(** * esshader: a shallow embedding of [esshader.c]

    The program opens an X11 window with an EGL/GLES2 context, assembles a
    fragment shader around a user body, and runs a render loop that uploads
    the Shadertoy uniforms every frame until Escape or q is pressed.

    The embedding keeps the C program's shape: the file-scope statics are a
    store indexed by the variable's name, every call into Xlib, EGL or GLES2
    is appended to a log of calls, [die] leaves the computation with the exit
    status, and the values the libraries return come from an explicit
    environment.  *)

From Stdlib Require Import ZArith QArith Qround Qabs List String Ascii Bool.
From Stdlib Require Import Lia Lqa Sorted.
Import ListNotations.

Local Open Scope Z_scope.

(** ** Machine arithmetic *)

Module Machine.

(** Two's-complement reduction to [bits] bits. *)
Definition wrap (bits x : Z) : Z :=
  (x + 2 ^ (bits - 1)) mod 2 ^ bits - 2 ^ (bits - 1).

(** [int] (32 bits) and [long]/[time_t] (64 bits on the supported ABI). *)
Definition wrap_int : Z -> Z := wrap 32.
Definition wrap_long : Z -> Z := wrap 64.

(** Implicit conversion of an [int] argument to [unsigned int]. *)
Definition to_uint (x : Z) : Z := x mod 2 ^ 32.

Definition INT_MAX : Z := 2 ^ 31 - 1.

(** [(float)z] for an integer [z] in the range of [int]: the nearest value
    with a 24-bit significand, ties to even.  The result is returned as the
    integer it denotes (a binary32 value of magnitude at least 2^23 is an
    integer, and smaller integers are exact). *)
Definition float_of_int (z : Z) : Z :=
  let a := Z.abs z in
  let e := Z.log2 a - 23 in
  if e <=? 0 then z
  else
    let q := Z.shiftr a e in
    let r := Z.land a (Z.ones e) in
    let half := Z.shiftl 1 (e - 1) in
    let q' := if (half <? r) || ((r =? half) && Z.odd q) then q + 1 else q in
    Z.sgn z * Z.shiftl q' e.

(** *** Binary floating point

    A floating-point value is the rational it denotes; arithmetic computes
    the exact result and rounds it to the format, to nearest with ties to
    even, as IEEE 754 prescribes. *)

(** [x] rounded to the nearest integer, a tie going to the even one. *)
Definition round_half_even (x : Q) : Z :=
  let f := Qfloor x in
  match (x - inject_Z f ?= 1 # 2)%Q with
  | Lt => f
  | Gt => f + 1
  | Eq => if Z.even f then f else f + 1
  end.

(** The exponent of the last bit kept when [x >= 0], counted in units, is
    written with a significand of [prec] bits: the integers below [2^prec]
    are kept whole. *)
Definition lsb_exponent (prec : Z) (x : Q) : Z :=
  Z.max 0 (Z.log2 (Qfloor x) - (prec - 1)).

(** A non-negative [x] rounded to the nearest [m * 2^e] whose significand
    [m] has [prec] bits. *)
Definition round_significand (prec : Z) (x : Q) : Z :=
  let e := lsb_exponent prec x in
  round_half_even (x / inject_Z (2 ^ e)) * 2 ^ e.

(** Rounding to the binary format with significands of [prec] bits whose
    smallest positive (subnormal) value is [2^-scale]: the value is counted
    in units of [2^-scale], rounded, and scaled back.  There is no upper
    bound on the exponent: what the program computes stays far below the
    largest finite value of either format (see [timespec_diff_in_range]). *)
Definition round_binary (prec scale : Z) (q : Q) : Q :=
  let unit := inject_Z (2 ^ scale) in
  let m := round_significand prec (Qabs q * unit) in
  Qred ((if Qle_bool 0 q then inject_Z m else inject_Z (- m)) / unit).

(** binary64: 53-bit significands, smallest subnormal 2^-1074. *)
Definition to_double : Q -> Q := round_binary 53 1074.

(** binary32: 24-bit significands, smallest subnormal 2^-149. *)
Definition float_of_double : Q -> Q := round_binary 24 149.

(** [(double)z], and [a + b] and [a / b] on doubles. *)
Definition double_of_long (z : Z) : Q := to_double (inject_Z z).
Definition double_add (a b : Q) : Q := to_double (a + b).
Definition double_div (a b : Q) : Q := to_double (a / b).

End Machine.
Import Machine.

(** ** C data *)

Definition GLint := Z.
Definition GLuint := Z.
Definition GLsizei := Z.
Definition GLenum := Z.
Definition KeySym := Z.
Definition Handle := Z.

(** A [GLfloat] (like the [double] of [timespec_diff]) is the rational it
    holds.  Conversions from [int] round as [float_of_int] does, conversions
    from [double] as [float_of_double] does. *)
Definition GLfloat := Q.

Definition to_float (z : Z) : GLfloat := inject_Z (float_of_int z).

Record timespec := mk_timespec { tv_sec : Z; tv_nsec : Z }.

(** keysymdef.h *)
Definition XK_Escape : KeySym := 0xff1b.
Definition XK_q : KeySym := 0x0071.

(** [XEvent] is a tagged union; only the members [process_event] reads are
    kept.  A [KeyPress] carries the key symbol [XLookupString] decodes it to,
    and [OtherEvent] stands for every type besides [ConfigureNotify] and
    [KeyPress]. *)
Inductive XEvent : Type :=
| ConfigureNotify (width height : Z)
| KeyPress (key : KeySym)
| OtherEvent (type : Z).

(** GLES2 / EGL constants used by the program. *)
Definition GL_VERTEX_SHADER : GLenum := 0x8B31.
Definition GL_FRAGMENT_SHADER : GLenum := 0x8B30.
Definition GL_COLOR_BUFFER_BIT : Z := 0x4000.
Definition GL_TRIANGLE_STRIP : GLenum := 0x0005.
Definition GL_FLOAT : GLenum := 0x1406.
Definition EXIT_FAILURE : Z := 1.

(** ** The file-scope variables *)

Inductive global : Type :=
| x_display | x_root | x_window
| egl_display | egl_context | egl_surface
| viewport_width | viewport_height
| shader_program
| attrib_position
| sampler_channel (i : nat)
| uniform_cres | uniform_frame | uniform_ctime | uniform_date
| uniform_gtime | uniform_mouse | uniform_res | uniform_srate
| frames.

Definition global_eq_dec (a b : global) : {a = b} + {a <> b}.
Proof. decide equality. apply Nat.eq_dec. Defined.

Definition globals := global -> Z.

(** Static initialisation: everything zero except the cached viewport size. *)
Definition initial_globals : globals :=
  fun g =>
    match g with
    | viewport_width | viewport_height => -1
    | _ => 0
    end.

Definition upd (g : global) (v : Z) (s : globals) : globals :=
  fun g' => if global_eq_dec g g' then v else s g'.

(** ** Calls into Xlib, EGL and GLES2

    A uniform upload records which variable supplied the location besides the
    location itself. *)

Inductive Call : Type :=
(* Xlib *)
| XOpenDisplay
| XGetVisualInfo (vid : Z)
| XCreateColormap
| XCreateWindow (width height : Z)
| XStoreName (name : string)
| XMapWindow (w : Handle)
| XFlush
| XGetWindowAttributes (w : Handle)
| XDestroyWindow (dpy w : Handle)
| XCloseDisplay (dpy : Handle)
(* EGL *)
| EglGetDisplay
| EglBindAPI
| EglInitialize
| EglChooseConfig
| EglCreateContext
| EglGetConfigAttrib
| EglCreateWindowSurface (w : Handle)
| EglMakeCurrent (dpy draw read ctx : Handle)
| EglSwapBuffers (dpy surf : Handle)
| EglDestroyContext (dpy ctx : Handle)
| EglDestroySurface (dpy surf : Handle)
| EglTerminate (dpy : Handle)
(* GLES2 *)
| GlCreateShader (type : GLenum)
| GlShaderSource (shader : GLuint) (text : string)
| GlCompileShader (shader : GLuint)
| GlGetShaderInfoLog (shader : GLuint)
| GlCreateProgram
| GlAttachShader (prog shader : GLuint)
| GlLinkProgram (prog : GLuint)
| GlGetProgramInfoLog (prog : GLuint)
| GlDeleteShader (shader : GLuint)
| GlReleaseShaderCompiler
| GlUseProgram (prog : GLuint)
| GlValidateProgram (prog : GLuint)
| GlGetAttribLocation (prog : GLuint) (name : string)
| GlGetUniformLocation (prog : GLuint) (name : string)
| GlDeleteProgram (prog : GLuint)
| GlUniform1f (var : global) (location : GLint) (v0 : GLfloat)
| GlUniform3f (var : global) (location : GLint) (v0 v1 v2 : GLfloat)
| GlViewport (x y : GLint) (width height : GLsizei)
| GlClearColor (r g b a : GLfloat)
| GlClear (mask : Z)
| GlEnableVertexAttribArray (index : GLuint)
| GlVertexAttribPointer (index : GLuint) (size : GLint) (type : GLenum)
                        (vertices : list GLfloat)
| GlDrawArrays (mode : GLenum) (first : GLint) (count : GLsizei)
(* stdio *)
| Stdout (format : string) (args : list Z)
| Stderr (text : string).

(** ** Program state and the monad the program runs in *)

Record State := mk_State { vars : globals; calls : list Call }.

Definition initial_state : State :=
  {| vars := initial_globals; calls := [] |}.

(** A computation either returns or leaves the process through [exit]. *)
Inductive res (A : Type) : Type :=
| Ret (a : A)
| Exit (status : Z).
Arguments Ret {A} a.
Arguments Exit {A} status.

Definition M (A : Type) : Type := State -> res A * State.

Definition ret {A} (a : A) : M A := fun st => (Ret a, st).

Definition bind {A B} (m : M A) (k : A -> M B) : M B :=
  fun st =>
    match m st with
    | (Ret a, st') => k a st'
    | (Exit c, st') => (Exit c, st')
    end.

Notation "x <- m ;; k" := (bind m (fun x => k))
  (at level 61, m at next level, right associativity).
Notation "m ;;; k" := (bind m (fun _ => k))
  (at level 61, right associativity).

Definition load (g : global) : M Z := fun st => (Ret (vars st g), st).

Definition store (g : global) (v : Z) : M unit :=
  fun st => (Ret tt, {| vars := upd g v (vars st); calls := calls st |}).

Definition call (c : Call) : M unit :=
  fun st => (Ret tt, {| vars := vars st; calls := calls st ++ [c] |}).

Definition exec {A} (m : M A) (st : State) : State := snd (m st).
Definition result {A} (m : M A) (st : State) : res A := fst (m st).

(** The calls [st'] has logged beyond those of [st]. *)
Definition new_calls (st st' : State) : list Call :=
  skipn (List.length (calls st)) (calls st').

(** ** stdio and process exit *)

Definition nl : string := String "010"%char EmptyString.

(** A C string literal ending in a newline. *)
Definition line (s : string) : string := (s ++ nl)%string.

(** [die]: print to stderr and [exit(EXIT_FAILURE)]; nothing after it runs. *)
Definition die {A} (msg : string) : M A :=
  fun st =>
    (Exit EXIT_FAILURE, {| vars := vars st; calls := calls st ++ [Stderr msg] |}).

Definition info (format : string) (args : list Z) : M unit :=
  call (Stdout format args).

Definition when (b : bool) (m : M unit) : M unit :=
  if b then m else ret tt.

(** ** Shader sources *)

Definition common_shader_header : string :=
  ("#version 100" ++ nl ++
   "precision highp float;")%string.

Definition vertex_shader_body : string :=
  ("attribute vec4 iPosition;" ++
   "void main(){gl_Position=iPosition;}")%string.

Definition fragment_shader_header : string :=
  ("uniform vec3 iResolution;" ++
   "uniform float iTime;" ++
   "uniform float iFrame;" ++
   "uniform float iChannelTime[4];" ++
   "uniform vec4 iMouse;" ++
   "uniform vec4 iDate;" ++
   "uniform float iSampleRate;" ++
   "uniform vec3 iChannelResolution[4];" ++
   "uniform sampler2D iChannel0;" ++
   "uniform sampler2D iChannel1;" ++
   "uniform sampler2D iChannel2;" ++
   "uniform sampler2D iChannel3;" ++ nl)%string.

Definition fragment_shader_footer : string :=
  (nl ++ "void main(){mainImage(gl_FragColor,gl_FragCoord.xy);}")%string.

(** [strlen]: the number of characters before the first NUL of the buffer. *)
Fixpoint strlen (s : string) : nat :=
  match s with
  | EmptyString => O
  | String c s' => if Ascii.eqb c Ascii.zero then O else S (strlen s')
  end.

(** The text the driver receives from [glShaderSource(shader, n, sources,
    srclens)]: of each [sources[i]], in order, the first [srclens[i]]
    characters, or the characters up to its NUL when [srclens[i]] is
    negative (OpenGL ES 2.0, section 2.10.1). *)
Fixpoint shader_text (sources : list string) (srclens : list GLsizei)
  : string :=
  match sources, srclens with
  | s :: sources', n :: srclens' =>
      let taken := if n <? 0 then strlen s else Z.to_nat n in
      (substring 0 taken s ++ shader_text sources' srclens')%string
  | _, _ => EmptyString
  end.

(** ** Time *)

(** The result is a [double]: both fields are converted, and the division
    and the sum each round to binary64 (no extended precision, as on
    x86-64 and AArch64). *)
Definition timespec_diff (start stop : timespec) : Q :=
  let dn := wrap_long (tv_nsec stop - tv_nsec start) in
  let d :=
    if dn <? 0 then
      {| tv_sec := wrap_long (wrap_long (tv_sec stop - tv_sec start) - 1);
         tv_nsec := wrap_long (dn + 1000000000) |}
    else
      {| tv_sec := wrap_long (tv_sec stop - tv_sec start);
         tv_nsec := dn |} in
  double_add (double_of_long (tv_sec d))
             (double_div (double_of_long (tv_nsec d)) 1000000000%Q).

(** [clock_gettime(CLOCK_MONOTONIC, tp)]: [reading] is what the clock
    delivers, [None] when the call returns -1. *)
Definition monotonic_time (reading : option timespec) : M timespec :=
  match reading with
  | Some tp => ret tp
  | None => die (line "clock_gettime on CLOCK_MONOTIC failed.")
  end.

(** ** Viewport and per-frame updates *)

Definition resize_viewport (w h : GLsizei) : M unit :=
  vw <- load viewport_width ;;
  vh <- load viewport_height ;;
  if negb (vw =? w) || negb (vh =? h) then
    loc <- load uniform_res ;;
    call (GlUniform3f uniform_res loc (to_float w) (to_float h) 0%Q) ;;;
    call (GlViewport 0 0 w h) ;;;
    store viewport_width w ;;;
    store viewport_height h ;;;
    info (line "Setting window size to (%d,%d).") [w; h]
  else ret tt.

Definition vertices : list GLfloat :=
  [ (-1)%Q; (-1)%Q;
    1%Q; (-1)%Q;
    (-1)%Q; 1%Q;
    1%Q; 1%Q ].

(** [++frames] on the [int] counter wraps around in two's complement; the
    [GLint] attribute location is converted to the [GLuint] index the two
    attribute calls take. *)
Definition render (abstime : GLfloat) : M unit :=
  gtime <- load uniform_gtime ;;
  when (0 <=? gtime) (call (GlUniform1f uniform_gtime gtime abstime)) ;;;
  n <- load frames ;;
  store frames (wrap_int (n + 1)) ;;;
  n' <- load frames ;;
  floc <- load uniform_frame ;;
  call (GlUniform1f uniform_frame floc (to_float n')) ;;;
  call (GlClearColor 0%Q 0%Q 0%Q 1%Q) ;;;
  call (GlClear GL_COLOR_BUFFER_BIT) ;;;
  pos <- load attrib_position ;;
  call (GlEnableVertexAttribArray (to_uint pos)) ;;;
  call (GlVertexAttribPointer (to_uint pos) 2 GL_FLOAT vertices) ;;;
  call (GlDrawArrays GL_TRIANGLE_STRIP 0 4) ;;;
  dpy <- load egl_display ;;
  surf <- load egl_surface ;;
  call (EglSwapBuffers dpy surf).

(** ** Events *)

(** Returns [false] when the event asks to leave the loop. *)
Definition process_event (ev : XEvent) : M bool :=
  match ev with
  | ConfigureNotify width height =>
      resize_viewport width height ;;; ret true
  | KeyPress key =>
      if (key =? XK_Escape) || (key =? XK_q) then ret false else ret true
  | OtherEvent _ => ret true
  end.

(** The [while (XPending(...))] loop over the events the queue delivers
    during one drain, threading the local [done]. *)
Fixpoint drain (queue : list XEvent) (done : bool) : M bool :=
  match queue with
  | [] => ret done
  | ev :: queue' =>
      ok <- process_event ev ;;
      drain queue' (if negb ok then true else done)
  end.

Definition process_events (queue : list XEvent) : M bool :=
  done <- drain queue false ;;
  ret (negb done).

(** ** Teardown *)

(** A library call whose status the program may inspect: [returns] is the
    status the library gives to each call. *)
Definition call_status (returns : Call -> bool) (c : Call) : M bool :=
  fun st => (Ret (returns c), {| vars := vars st; calls := calls st ++ [c] |}).

(** Every status below is discarded, as in the source. *)
Definition shutdown (returns : Call -> bool) : M unit :=
  prog <- load shader_program ;;
  call (GlDeleteProgram prog) ;;;
  edpy <- load egl_display ;;
  ctx <- load egl_context ;;
  _ <- call_status returns (EglDestroyContext edpy ctx) ;;
  surf <- load egl_surface ;;
  _ <- call_status returns (EglDestroySurface edpy surf) ;;
  _ <- call_status returns (EglTerminate edpy) ;;
  xdpy <- load x_display ;;
  win <- load x_window ;;
  _ <- call_status returns (XDestroyWindow xdpy win) ;;
  _ <- call_status returns (XCloseDisplay xdpy) ;;
  ret tt.

(** ** Startup *)

(** What the windowing system and the driver answer during [startup]. *)
Record Env := mk_Env {
  env_XOpenDisplay : Handle;            (* NULL is 0 *)
  env_eglGetDisplay : Handle;           (* EGL_NO_DISPLAY is 0 *)
  env_eglBindAPI : bool;
  env_eglInitialize : bool;
  env_eglChooseConfig : bool;
  env_eglCreateContext : Handle;        (* EGL_NO_CONTEXT is 0 *)
  env_eglGetConfigAttrib : option Z;    (* the native visual id *)
  env_RootWindow : Handle;
  env_XGetVisualInfo : bool;            (* a non-NULL XVisualInfo *)
  env_DisplayWidth : Z;
  env_DisplayHeight : Z;
  env_XCreateWindow : Handle;
  env_eglCreateWindowSurface : Handle;  (* EGL_NO_SURFACE is 0 *)
  env_glCreateShader : GLenum -> GLuint;
  env_compile_status : GLuint -> string -> bool;
  env_shader_info_log : GLuint -> string;
  env_glCreateProgram : GLuint;
  env_link_status : bool;
  env_program_info_log : string;
  env_glGetAttribLocation : string -> GLint;
  env_glGetUniformLocation : string -> GLint;
  env_XGetWindowAttributes : option (Z * Z)   (* gwa.width, gwa.height *)
}.

Section Startup.

Variable env : Env.

(** [config.h] is not part of the sources: the fragment body it defines (or
    the file given with -s, which replaces it) is a parameter. *)
Variable default_fragment_shader : string.

(** GL_INFO_LOG_LENGTH counts the terminating NUL; 0 when there is no log. *)
Definition info_log_length (log : string) : Z :=
  match log with
  | EmptyString => 0
  | _ => Z.of_nat (String.length log) + 1
  end.

Definition compile_shader (type : GLenum) (sources : list string) : M GLuint :=
  let srclens := map (fun s => wrap_int (Z.of_nat (strlen s))) sources in
  let shader := env_glCreateShader env type in
  call (GlCreateShader type) ;;;
  let text := shader_text sources srclens in
  call (GlShaderSource shader text) ;;;
  call (GlCompileShader shader) ;;;
  if negb (env_compile_status env shader text) then
    let log := env_shader_info_log env shader in
    when (1 <? info_log_length log)
         (call (GlGetShaderInfoLog shader) ;;;
          call (Stderr (log ++ nl ++ nl))) ;;;
    die (line "Error compiling shader.")
  else ret shader.

Definition fragment_sources : list string :=
  [ common_shader_header; fragment_shader_header;
    default_fragment_shader; fragment_shader_footer ].

Definition startup (width height : Z) (fullscreen : bool) : M unit :=
  call XOpenDisplay ;;;
  store x_display (env_XOpenDisplay env) ;;;
  xdpy <- load x_display ;;
  when (xdpy =? 0) (die (line "Unable to open X display.")) ;;;
  call EglGetDisplay ;;;
  store egl_display (env_eglGetDisplay env) ;;;
  edpy <- load egl_display ;;
  when (edpy =? 0) (die (line "Unable to get EGL display.")) ;;;
  call EglBindAPI ;;;
  when (negb (env_eglBindAPI env))
       (die (line "Unable to bind OpenGL ES API to EGL.")) ;;;
  call EglInitialize ;;;
  when (negb (env_eglInitialize env))
       (die (line "Unable to initialize EGL.")) ;;;
  call EglChooseConfig ;;;
  when (negb (env_eglChooseConfig env))
       (die (line "Unable to find EGL framebuffer configuration.")) ;;;
  call EglCreateContext ;;;
  store egl_context (env_eglCreateContext env) ;;;
  ctx <- load egl_context ;;
  when (ctx =? 0) (die (line "Unable to create EGL context.")) ;;;
  call EglGetConfigAttrib ;;;
  vid <- match env_eglGetConfigAttrib env with
         | Some vid => ret vid
         | None => die (line "Unable to get X VisualID.")
         end ;;
  store x_root (env_RootWindow env) ;;;
  call (XGetVisualInfo vid) ;;;
  when (negb (env_XGetVisualInfo env))
       (die (line "Unable to find matching XVisualInfo for framebuffer.")) ;;;
  call XCreateColormap ;;;
  let window_width :=
    if fullscreen then env_DisplayWidth env else width in
  let window_height :=
    if fullscreen then env_DisplayHeight env else height in
  call (XCreateWindow (to_uint window_width) (to_uint window_height)) ;;;
  store x_window (env_XCreateWindow env) ;;;
  win <- load x_window ;;
  call (XStoreName "esshader") ;;;
  call (XMapWindow win) ;;;
  call XFlush ;;;
  call (EglCreateWindowSurface win) ;;;
  store egl_surface (env_eglCreateWindowSurface env) ;;;
  surf <- load egl_surface ;;
  when (surf =? 0) (die (line "Unable to create EGL window surface.")) ;;;
  call (EglMakeCurrent edpy surf surf ctx) ;;;
  vtx <- compile_shader GL_VERTEX_SHADER
           [common_shader_header; vertex_shader_body] ;;
  frag <- compile_shader GL_FRAGMENT_SHADER fragment_sources ;;
  call GlCreateProgram ;;;
  store shader_program (env_glCreateProgram env) ;;;
  prog <- load shader_program ;;
  call (GlAttachShader prog vtx) ;;;
  call (GlAttachShader prog frag) ;;;
  call (GlLinkProgram prog) ;;;
  when (negb (env_link_status env))
       (when (1 <? info_log_length (env_program_info_log env))
             (call (GlGetProgramInfoLog prog) ;;;
              call (Stderr (env_program_info_log env ++ nl ++ nl))) ;;;
        die (line "Error linking shader program.")) ;;;
  call (GlDeleteShader vtx) ;;;
  call (GlDeleteShader frag) ;;;
  call GlReleaseShaderCompiler ;;;
  call (GlUseProgram prog) ;;;
  call (GlValidateProgram prog) ;;;
  let attrib (name : string) : M GLint :=
    call (GlGetAttribLocation prog name) ;;;
    ret (env_glGetAttribLocation env name) in
  let uniform (name : string) : M GLint :=
    call (GlGetUniformLocation prog name) ;;;
    ret (env_glGetUniformLocation env name) in
  l <- attrib "iPosition"%string ;; store attrib_position l ;;;
  l <- uniform "iChannel0"%string ;; store (sampler_channel 0) l ;;;
  l <- uniform "iChannel1"%string ;; store (sampler_channel 1) l ;;;
  l <- uniform "iChannel2"%string ;; store (sampler_channel 2) l ;;;
  l <- uniform "iChannel3"%string ;; store (sampler_channel 3) l ;;;
  l <- uniform "iChannelResolution"%string ;; store uniform_cres l ;;;
  l <- uniform "iFrame"%string ;; store uniform_frame l ;;;
  l <- uniform "iChannelTime"%string ;; store uniform_ctime l ;;;
  l <- uniform "iDate"%string ;; store uniform_date l ;;;
  l <- uniform "iTime"%string ;; store uniform_gtime l ;;;
  l <- uniform "iMouse"%string ;; store uniform_mouse l ;;;
  l <- uniform "iResolution"%string ;; store uniform_res l ;;;
  l <- uniform "iSampleRate"%string ;; store uniform_srate l ;;;
  call (XGetWindowAttributes win) ;;;
  match env_XGetWindowAttributes env with
  | None => die (line "Unable to get window size.")
  | Some (gw, gh) => resize_viewport gw gh
  end.

End Startup.

(** ** The render loop and [main] *)

Inductive loop_state : Type := RUNNING | STOPPED.

(** What one pass of the loop meets: the events its drain delivers and the
    clock reading taken after the frame. *)
Record Iteration := mk_Iteration {
  pending : list XEvent;
  clock : option timespec
}.

(** The [for (;;)] loop, run over the iterations the world provides.  It is
    still [RUNNING] when they are used up, and [STOPPED] after the [break].
    The elapsed time is converted from [double] to [float] on its way to
    [render]. *)
Fixpoint main_loop (start cur : timespec) (world : list Iteration)
  : M loop_state :=
  match world with
  | [] => ret RUNNING
  | it :: world' =>
      continue <- process_events (pending it) ;;
      if negb continue then ret STOPPED
      else
        render (float_of_double (timespec_diff start cur)) ;;;
        cur' <- monotonic_time (clock it) ;;
        main_loop start cur' world'
  end.

(** The world [main] runs in.  [cur_indeterminate] is whatever the
    uninitialised local [cur] holds on entry to the loop. *)
Record World := mk_World {
  environment : Env;
  teardown_status : Call -> bool;
  start_clock : option timespec;
  cur_indeterminate : timespec;
  iterations : list Iteration
}.

(** [main] from the end of option parsing, which yields the window size, the
    fullscreen flag and the fragment body (the version banner, whose text is
    in [config.h], and the final [free] are left out).  [Some 0] is
    [return 0]; [None] means the loop has not stopped within the given
    iterations. *)
Definition main (width height : Z) (fullscreen : bool) (body : string)
    (w : World) : M (option Z) :=
  info (line "Press [ESC] or [q] to exit.") [] ;;;
  info (line "Run with --help flag for more information." ++ nl) [] ;;;
  startup (environment w) body width height fullscreen ;;;
  start <- monotonic_time (start_clock w) ;;
  state <- main_loop start (cur_indeterminate w) (iterations w) ;;
  match state with
  | RUNNING => ret None
  | STOPPED => shutdown (teardown_status w) ;;; ret (Some 0)
  end.

(** ** Sequences of operations on the running program

    After [startup] the only operations that touch the program state are a
    frame, a resize and an event drain. *)

Inductive op : Type :=
| Frame (abstime : GLfloat)
| Resize (w h : GLsizei)
| Events (queue : list XEvent).

Definition run_op (o : op) : M unit :=
  match o with
  | Frame abstime => render abstime
  | Resize w h => resize_viewport w h
  | Events queue => _ <- process_events queue ;; ret tt
  end.

Fixpoint run_ops (os : list op) : M unit :=
  match os with
  | [] => ret tt
  | o :: os' => run_op o ;;; run_ops os'
  end.

Definition is_frame (o : op) : bool :=
  match o with Frame _ => true | _ => false end.

Definition count_frames (os : list op) : nat :=
  List.length (filter is_frame os).

(** ** Reading the log *)

(** The values uploaded through [uniform_frame], oldest first. *)
Definition frame_uploads (l : list Call) : list GLfloat :=
  flat_map (fun c => match c with
                     | GlUniform1f uniform_frame _ v => [v]
                     | _ => []
                     end) l.

Definition is_draw (c : Call) : bool :=
  match c with GlDrawArrays _ _ _ => true | _ => false end.

Definition count_draws (l : list Call) : nat :=
  List.length (filter is_draw l).

Definition is_teardown (c : Call) : bool :=
  match c with
  | GlDeleteProgram _ | EglDestroyContext _ _ | EglDestroySurface _ _
  | EglTerminate _ | XDestroyWindow _ _ | XCloseDisplay _ => true
  | _ => false
  end.

(** The calls of a resize that applies. *)
Definition resize_calls (vs : globals) (w h : GLsizei) : list Call :=
  [ GlUniform3f uniform_res (vs uniform_res) (to_float w) (to_float h) 0%Q;
    GlViewport 0 0 w h;
    Stdout (line "Setting window size to (%d,%d).") [w; h] ].

(** The calls of a frame after the optional time upload, for the counter
    value [n] the frame uploads. *)
Definition frame_calls (vs : globals) (n : Z) : list Call :=
  [ GlUniform1f uniform_frame (vs uniform_frame) (to_float n);
    GlClearColor 0%Q 0%Q 0%Q 1%Q;
    GlClear GL_COLOR_BUFFER_BIT;
    GlEnableVertexAttribArray (to_uint (vs attrib_position));
    GlVertexAttribPointer (to_uint (vs attrib_position)) 2 GL_FLOAT vertices;
    GlDrawArrays GL_TRIANGLE_STRIP 0 4;
    EglSwapBuffers (vs egl_display) (vs egl_surface) ].

Definition teardown_calls (vs : globals) : list Call :=
  [ GlDeleteProgram (vs shader_program);
    EglDestroyContext (vs egl_display) (vs egl_context);
    EglDestroySurface (vs egl_display) (vs egl_surface);
    EglTerminate (vs egl_display);
    XDestroyWindow (vs x_display) (vs x_window);
    XCloseDisplay (vs x_display) ].

(** A key press that asks to leave the loop. *)
Definition is_exit_key (ev : XEvent) : bool :=
  match ev with
  | KeyPress key => (key =? XK_Escape) || (key =? XK_q)
  | _ => false
  end.

Definition is_configure (ev : XEvent) : bool :=
  match ev with ConfigureNotify _ _ => true | _ => false end.

(** The cached viewport size. *)
Definition cached_size (vs : globals) : Z * Z :=
  (vs viewport_width, vs viewport_height).

(** The optional upload of the elapsed time at the head of a frame. *)
Definition time_upload (vs : globals) (abstime : GLfloat) : list Call :=
  if 0 <=? vs uniform_gtime
  then [GlUniform1f uniform_gtime (vs uniform_gtime) abstime]
  else [].

(** The state after one event has been handled. *)
Definition step_event (st : State) (ev : XEvent) : State :=
  exec (process_event ev) st.

(** The calls a resize can log, and the variables it can change. *)
Definition resize_call (c : Call) : bool :=
  match c with
  | GlUniform3f _ _ _ _ _ | GlViewport _ _ _ _ | Stdout _ _ => true
  | _ => false
  end.

Definition viewport_only (vs vs' : globals) : Prop :=
  forall g, g <> viewport_width -> g <> viewport_height -> vs' g = vs g.

(** The uploads of a run, from the counter value the run starts with. *)
Definition uploads_from (f : Z) (n : nat) : list GLfloat :=
  map (fun i => to_float (wrap_int (f + Z.of_nat i))) (seq 1 n).

(** An iteration that neither stops the loop nor loses the clock. *)
Definition keeps_running (it : Iteration) : Prop :=
  existsb is_exit_key (pending it) = false /\ clock it <> None.

Definition not_teardown (c : Call) : bool := negb (is_teardown c).

Definition is_create_window (c : Call) : bool :=
  match c with XCreateWindow _ _ => true | _ => false end.

Definition is_shader_source (c : Call) : bool :=
  match c with GlShaderSource _ _ => true | _ => false end.

(** The uploads made through [uniform_gtime], oldest first. *)
Definition time_uploads (l : list Call) : list GLfloat :=
  flat_map (fun c => match c with
                     | GlUniform1f uniform_gtime _ v => [v]
                     | _ => []
                     end) l.

Definition is_uniform_upload (c : Call) : bool :=
  match c with
  | GlUniform1f _ _ _ | GlUniform3f _ _ _ _ _ => true
  | _ => false
  end.


(** ** Clock readings *)

(** A reading in nanoseconds. *)
Definition nanoseconds (t : timespec) : Z :=
  tv_sec t * 1000000000 + tv_nsec t.

(** What [clock_gettime] delivers: a normalised, non-negative time, with
    seconds that a [double] holds exactly (fewer than 2^52). *)
Definition clock_reading (t : timespec) : Prop :=
  0 <= tv_sec t < 2 ^ 52 /\ 0 <= tv_nsec t < 1000000000.

Definition not_before (a b : timespec) : Prop :=
  nanoseconds a <= nanoseconds b.

(** The readings the loop takes, in order. *)
Definition readings (world : list Iteration) : list timespec :=
  flat_map (fun it => match clock it with Some t => [t] | None => [] end)
           world.

(** The elapsed times the loop hands to its frames: the first from [cur] as
    the loop finds it, each later one from the reading taken after the frame
    before. *)
Fixpoint elapsed_times (start cur : timespec) (world : list Iteration)
  : list GLfloat :=
  match world with
  | [] => []
  | it :: world' =>
      float_of_double (timespec_diff start cur) ::
      match clock it with
      | Some t => elapsed_times start t world'
      | None => []
      end
  end.

(** ** Concrete worlds

    Inputs on which the theorems below are exercised. *)

(** A fragment body that reads no uniform. *)
Definition red_body : string :=
  "void mainImage(out vec4 c, in vec2 p){c=vec4(1.0,0.0,0.0,1.0);}".

(** [n] spaces. *)
Fixpoint spaces (n : nat) : string :=
  match n with
  | O => EmptyString
  | S n' => String " " (spaces n')
  end.

(** The same body followed by blanks up to a size of 2^32 + 5 bytes. *)
Definition long_body : string :=
  (red_body ++ spaces (Z.to_nat (2 ^ 32 + 5 - 63)))%string.

(** A driver that links every uniform of the fixed block. *)
Definition all_uniforms (name : string) : GLint :=
  if String.eqb name "iResolution" then 0
  else if String.eqb name "iTime" then 1
  else if String.eqb name "iFrame" then 2
  else if String.eqb name "iMouse" then 3
  else 4.

(** A driver that has optimised every unused uniform away: -1 for each. *)
Definition no_uniforms (name : string) : GLint := -1.

(** A 1920x1080 display on which every call succeeds; [compiles] says which
    shader stages compile, [location] resolves uniform names and [window] is
    the size the window manager gives the window. *)
Definition desktop (compiles : GLuint -> bool) (location : string -> GLint)
    (window : Z * Z) : Env :=
  {| env_XOpenDisplay := 101;
     env_eglGetDisplay := 102;
     env_eglBindAPI := true;
     env_eglInitialize := true;
     env_eglChooseConfig := true;
     env_eglCreateContext := 103;
     env_eglGetConfigAttrib := Some 33;
     env_RootWindow := 104;
     env_XGetVisualInfo := true;
     env_DisplayWidth := 1920;
     env_DisplayHeight := 1080;
     env_XCreateWindow := 105;
     env_eglCreateWindowSurface := 106;
     env_glCreateShader :=
       fun type => if type =? GL_VERTEX_SHADER then 1 else 2;
     env_compile_status := fun shader _ => compiles shader;
     env_shader_info_log :=
       fun shader => if compiles shader then EmptyString
                     else "0:1(1): error: syntax error"%string;
     env_glCreateProgram := 3;
     env_link_status := true;
     env_program_info_log := EmptyString;
     env_glGetAttribLocation := fun _ => 0;
     env_glGetUniformLocation := location;
     env_XGetWindowAttributes := Some window |}.

Definition every_stage (shader : GLuint) : bool := true.

Definition all_fail (c : Call) : bool := false.

(** Two frames, then q.  The clock starts at 100 s; [garbage] is what the
    uninitialised [cur] happens to hold. *)
Definition two_frames_then_q (env : Env) (garbage : timespec) : World :=
  {| environment := env;
     teardown_status := all_fail;
     start_clock := Some (mk_timespec 100 0);
     cur_indeterminate := garbage;
     iterations :=
       [ mk_Iteration [ConfigureNotify 800 600; KeyPress 32]
                      (Some (mk_timespec 100 16000000));
         mk_Iteration [] (Some (mk_timespec 100 33000000));
         mk_Iteration [OtherEvent 12; KeyPress XK_q; ConfigureNotify 640 360]
                      None;
         mk_Iteration [] None ] |}.



(** ** The viewport the driver has been given *)

(** The most recent call of a log that [pick] selects. *)
Fixpoint last_picked {A : Type} (pick : Call -> option A) (l : list Call)
  : option A :=
  match l with
  | [] => None
  | c :: l' =>
      match last_picked pick l' with
      | Some a => Some a
      | None => pick c
      end
  end.

Definition viewport_of (c : Call) : option (Z * Z) :=
  match c with GlViewport _ _ w h => Some (w, h) | _ => None end.

Definition resolution_of (c : Call) : option (GLfloat * GLfloat) :=
  match c with GlUniform3f uniform_res _ x y _ => Some (x, y) | _ => None end.

(** The size given by the most recent [glViewport] call. *)
Definition last_viewport : list Call -> option (Z * Z) :=
  last_picked viewport_of.

(** The resolution most recently uploaded through [uniform_res]. *)
Definition last_resolution : list Call -> option (GLfloat * GLfloat) :=
  last_picked resolution_of.

(** The cache agrees with the driver: it holds the size of the last
    [glViewport] call, which is also the resolution last uploaded, or the
    sentinel when there has been neither. *)
Definition viewport_coherent (st : State) : Prop :=
  match last_viewport (calls st), last_resolution (calls st) with
  | Some (w, h), Some (x, y) =>
      cached_size (vars st) = (w, h) /\ x = to_float w /\ y = to_float h
  | None, None => cached_size (vars st) = (-1, -1)
  | _, _ => False
  end.

(** A call that [viewport_coherent] does not look at. *)
Definition leaves_viewport (c : Call) : bool :=
  match viewport_of c, resolution_of c with
  | None, None => true
  | _, _ => false
  end.
(** A computation that keeps the cache and the driver in agreement. *)
Definition keeps_coherent {A : Type} (m : M A) : Prop :=
  forall st, viewport_coherent st -> viewport_coherent (exec m st).

(** ** The checks of [startup] *)

Definition is_some {A : Type} (o : option A) : bool :=
  match o with Some _ => true | None => false end.

(** The text a stage is compiled from. *)
Definition stage_text (sources : list string) : string :=
  shader_text sources (map (fun s => wrap_int (Z.of_nat (strlen s))) sources).

(** The number of characters the driver takes from the source [s]. *)
Definition taken (s : string) : nat :=
  let n := wrap_int (Z.of_nat (strlen s)) in
  if n <? 0 then strlen s else Z.to_nat n.

(** What [startup] tests, in the order it tests it, each with the diagnostic
    it dies with when the test fails. *)
Definition startup_checks (env : Env) (body : string) : list (bool * string) :=
  [ (negb (env_XOpenDisplay env =? 0), "Unable to open X display."%string);
    (negb (env_eglGetDisplay env =? 0), "Unable to get EGL display."%string);
    (env_eglBindAPI env, "Unable to bind OpenGL ES API to EGL."%string);
    (env_eglInitialize env, "Unable to initialize EGL."%string);
    (env_eglChooseConfig env,
     "Unable to find EGL framebuffer configuration."%string);
    (negb (env_eglCreateContext env =? 0),
     "Unable to create EGL context."%string);
    (is_some (env_eglGetConfigAttrib env), "Unable to get X VisualID."%string);
    (env_XGetVisualInfo env,
     "Unable to find matching XVisualInfo for framebuffer."%string);
    (negb (env_eglCreateWindowSurface env =? 0),
     "Unable to create EGL window surface."%string);
    (env_compile_status env (env_glCreateShader env GL_VERTEX_SHADER)
       (stage_text [common_shader_header; vertex_shader_body]),
     "Error compiling shader."%string);
    (env_compile_status env (env_glCreateShader env GL_FRAGMENT_SHADER)
       (stage_text (fragment_sources body)),
     "Error compiling shader."%string);
    (env_link_status env, "Error linking shader program."%string);
    (is_some (env_XGetWindowAttributes env),
     "Unable to get window size."%string) ].

(** The diagnostic of the first check that fails, if one does. *)
Definition first_failure (checks : list (bool * string)) : option string :=
  match find (fun c => negb (fst c)) checks with
  | Some (_, msg) => Some msg
  | None => None
  end.

(** Calls [startup] never makes. *)
Definition startup_call (c : Call) : bool :=
  negb (is_draw c) && negb (is_teardown c) &&
  match c with
  | GlUniform1f _ _ _ | EglSwapBuffers _ _ | GlClear _ => false
  | _ => true
  end.
(** One frame, after which the clock stops answering. *)
Definition clock_lost (env : Env) : World :=
  {| environment := env;
     teardown_status := all_fail;
     start_clock := Some (mk_timespec 100 0);
     cur_indeterminate := mk_timespec 0 0;
     iterations :=
       [ mk_Iteration [KeyPress 32] (Some (mk_timespec 100 16000000));
         mk_Iteration [ConfigureNotify 800 600] None;
         mk_Iteration [KeyPress XK_q] None ] |}.

(** ** Reading the shader file *)

(** [size_t] is 64 bits wide. *)
Definition to_size_t (x : Z) : Z := x mod 2 ^ 64.

Definition SEEK_SET : Z := 0.
Definition SEEK_END : Z := 2.

(** The calls [read_file_into_str] makes into the C library. *)
Inductive StdioCall : Type :=
| Fopen (filename : string)
| Fseek (offset whence : Z)
| Ftell
| Malloc (size : Z)
| Fread (count : Z)
| Fclose.

(** What the library answers for one open file: the status of the two
    [fseek]s, the position [ftell] reports, and the bytes [fread] stores for
    a request of [count] bytes (their number is what [fread] returns). *)
Record File := mk_File {
  fseek_end_status : Z;
  ftell_position : Z;
  fseek_set_status : Z;
  fread_bytes : Z -> string
}.

Record FileSystem := mk_FileSystem {
  fopen : string -> option File;     (* [None] is a NULL [FILE*] *)
  malloc : Z -> bool                 (* [false] is a NULL result *)
}.

(** A [char*]: NULL, or a buffer of [capacity] bytes whose first bytes are
    [contents] (the rest is whatever [malloc] left there). *)
Inductive pointer : Type :=
| NULL
| Buffer (capacity : Z) (contents : string).

Definition NUL : string := String Ascii.zero EmptyString.

(** The function returns its result together with the library calls it has
    made, in order.  [sizeof(char)] is 1; the [long] length is converted to
    [size_t] where the library takes a [size_t]. *)
Definition read_file_into_str (fs : FileSystem) (filename : string)
  : pointer * list StdioCall :=
  match fopen fs filename with
  | Some file =>
      if negb (fseek_end_status file =? 0) then
        (NULL, [Fopen filename; Fseek 0 SEEK_END; Fclose])
      else
        let length := ftell_position file in
        if negb (fseek_set_status file =? 0) then
          (NULL, [Fopen filename; Fseek 0 SEEK_END; Ftell;
                  Fseek 0 SEEK_SET; Fclose])
        else
          let size := to_size_t (to_size_t (wrap_long (length + 1)) * 1) in
          if malloc fs size then
            let count := to_size_t length in
            let actual := fread_bytes file count in
            (Buffer size (actual ++ NUL),
             [Fopen filename; Fseek 0 SEEK_END; Ftell; Fseek 0 SEEK_SET;
              Malloc size; Fread count; Fclose])
          else
            (NULL, [Fopen filename; Fseek 0 SEEK_END; Ftell;
                    Fseek 0 SEEK_SET; Malloc size; Fclose])
  | None => (NULL, [Fopen filename])
  end.

(** [fread] never stores more than it was asked for. *)
Definition fread_honest (file : File) : Prop :=
  forall count,
    0 <= count -> Z.of_nat (String.length (fread_bytes file count)) <= count.

(** The C string a buffer holds: its bytes before the first NUL. *)
Definition c_string (s : string) : string := substring 0 (strlen s) s.

Definition is_fclose (c : StdioCall) : bool :=
  match c with Fclose => true | _ => false end.

(** A text without a NUL byte. *)
Definition no_NUL (s : string) : Prop := strlen s = String.length s.

(** A disk with one readable file, [shader.glsl], holding [content]; every
    other name fails to open, and every allocation succeeds. *)
Definition disk (content : string) : FileSystem :=
  {| fopen := fun name =>
       if String.eqb name "shader.glsl" then
         Some {| fseek_end_status := 0;
                 ftell_position := Z.of_nat (String.length content);
                 fseek_set_status := 0;
                 fread_bytes :=
                   fun count => substring 0 (Z.to_nat count) content |}
       else None;
     malloc := fun _ => true |}.

(** ** The command line *)

Module Cli.

(** One answer of [getopt_long]: the option character and [optarg]. *)
Record Getopt := mk_Getopt { selected_option : Z; optarg : string }.

(** The locals of [main] that the options set. *)
Record locals := mk_locals {
  fullscreen : bool;
  window_width : Z;
  window_height : Z;
  program_source : pointer
}.

Definition defaults : locals :=
  {| fullscreen := false;
     window_width := 640;
     window_height := 360;
     program_source := NULL |}.

(** The code of an option character. *)
Definition opt (c : ascii) : Z := Z.of_nat (nat_of_ascii c).

Definition tab : string := String "009"%char EmptyString.

Definition usage : string :=
  (nl ++ "Usage: esshader [OPTIONS]" ++ nl ++
   "Example: esshader --width 1280 --height 720" ++ nl ++ nl ++
   "Options:" ++ nl ++
   " -f, --fullscreen " ++ tab ++
     "runs the program in (fake) fullscreen mode." ++ nl ++
   " -?, --help " ++ tab ++ tab ++ "shows this help." ++ nl ++
   " -w, --width [value] " ++ tab ++
     "sets the window width to [value]." ++ nl ++
   " -h, --height [value] " ++ tab ++
     "sets the window height to [value]." ++ nl ++
   " -s, --source [path] " ++ tab ++ "path to shader program" ++ nl)%string.

Section Main.

(** [atoi] of the C library, the file system, and the two things [config.h]
    provides: the version string and the default fragment body.  What is
    printed with a %s conversion is logged with the argument in place. *)
Variable atoi : string -> Z.
Variable fs : FileSystem.
Variable VERSION : string.
Variable default_fragment_shader : string.

(** The [while] loop over the answers of [getopt_long], up to its -1.
    [None] is the [return 0] of the help case. *)
Fixpoint parse (options : list Getopt) (l : locals) : M (option locals) :=
  match options with
  | [] => ret (Some l)
  | g :: options' =>
      let c := selected_option g in
      if c =? opt "f" then
        parse options'
          {| fullscreen := true;
             window_width := window_width l;
             window_height := window_height l;
             program_source := program_source l |}
      else if c =? opt "w" then
        let temp_width := atoi (optarg g) in
        parse options'
          (if 0 <? temp_width then
             {| fullscreen := fullscreen l;
                window_width := temp_width;
                window_height := window_height l;
                program_source := program_source l |}
           else l)
      else if c =? opt "h" then
        let temp_height := atoi (optarg g) in
        parse options'
          (if 0 <? temp_height then
             {| fullscreen := fullscreen l;
                window_width := window_width l;
                window_height := temp_height;
                program_source := program_source l |}
           else l)
      else if c =? opt "s" then
        info (line ("Loading shader program: " ++ optarg g)) [] ;;;
        match fst (read_file_into_str fs (optarg g)) with
        | NULL =>
            die (line ("Could not read shader program " ++ optarg g))
        | Buffer capacity contents =>
            parse options'
              {| fullscreen := fullscreen l;
                 window_width := window_width l;
                 window_height := window_height l;
                 program_source := Buffer capacity contents |}
        end
      else if c =? opt "?" then
        info usage [] ;;; ret None
      else parse options' l
  end.

(** The fragment body [startup] compiles: the file read last, or the
    default. *)
Definition fragment_body (l : locals) : string :=
  match program_source l with
  | Buffer _ contents => contents
  | NULL => default_fragment_shader
  end.

(** The whole of [main] (the final [free] apart). *)
Definition main (options : list Getopt) (w : World) : M (option Z) :=
  info (line ("ESShader -  Version: " ++ VERSION)) [] ;;;
  parsed <- parse options defaults ;;
  match parsed with
  | None => ret (Some 0)
  | Some l =>
      main (window_width l) (window_height l) (fullscreen l)
        (fragment_body l) w
  end.

End Main.

End Cli.

(** The value an option ends up with: the last positive one given, or the
    value it had. *)
Definition last_positive (current : Z) (given : list Z) : Z :=
  fold_left (fun acc v => if 0 <? v then v else acc) given current.

(** The arguments given with option [c], in order. *)
Definition arguments_of (c : ascii) (options : list Cli.Getopt)
  : list string :=
  map Cli.optarg
      (filter (fun g => Cli.selected_option g =? Cli.opt c) options).

Definition has_option (c : ascii) (options : list Cli.Getopt) : bool :=
  existsb (fun g => Cli.selected_option g =? Cli.opt c) options.

(** An option that lets the parsing go on: not the help option, and if it
    names a source file, one that can be read. *)
Definition parses_on (fs : FileSystem) (g : Cli.Getopt) : Prop :=
  Cli.selected_option g <> Cli.opt "?" /\
  (Cli.selected_option g = Cli.opt "s" ->
   fst (read_file_into_str fs (Cli.optarg g)) <> NULL).

(** The source file named last, or the pointer as it was. *)
Definition last_source (fs : FileSystem) (current : pointer)
    (names : list string) : pointer :=
  fold_left (fun _ name => fst (read_file_into_str fs name)) names current.

(** The fragment body the program ends up with. *)
Definition chosen_body (fs : FileSystem) (default_fragment_shader : string)
    (options : list Cli.Getopt) : string :=
  match last_source fs NULL (arguments_of "s" options) with
  | Buffer _ contents => contents
  | NULL => default_fragment_shader
  end.

Definition is_stdout (c : Call) : bool :=
  match c with Stdout _ _ => true | _ => false end.

(** A decimal [atoi] for unsigned digit strings. *)
Definition decimal_atoi (s : string) : Z :=
  (fix go (s : string) (acc : Z) : Z :=
     match s with
     | EmptyString => acc
     | String c s' =>
         let d := Z.of_nat (nat_of_ascii c) - 48 in
         if (0 <=? d) && (d <=? 9) then go s' (10 * acc + d) else acc
     end) s 0.

(** A command line: -w 1280 -h 0 -f -w wide -s shader.glsl. *)
Definition sample_options : list Cli.Getopt :=
  [ Cli.mk_Getopt (Cli.opt "w") "1280";
    Cli.mk_Getopt (Cli.opt "h") "0";
    Cli.mk_Getopt (Cli.opt "f") EmptyString;
    Cli.mk_Getopt (Cli.opt "w") "wide";
    Cli.mk_Getopt (Cli.opt "s") "shader.glsl" ].

(** * Properties *)

(** ** The log *)

Lemma new_calls_app (vs' : globals) (st : State) (l : list Call) :
  new_calls st {| vars := vs'; calls := calls st ++ l |} = l.
Proof.
  unfold new_calls; simpl.
  rewrite skipn_app, skipn_all, Nat.sub_diag. reflexivity.
Qed.

Lemma new_calls_of_app (st st' : State) (l : list Call) :
  calls st' = calls st ++ l -> new_calls st st' = l.
Proof.
  intros H. unfold new_calls.
  rewrite H, skipn_app, skipn_all, Nat.sub_diag. reflexivity.
Qed.

Lemma state_eta (st : State) : {| vars := vars st; calls := calls st |} = st.
Proof. destruct st; reflexivity. Qed.

(** ** Machine arithmetic *)

Lemma wrap_int_small (x : Z) : - 2 ^ 31 <= x < 2 ^ 31 -> wrap_int x = x.
Proof.
  intros Hx. unfold wrap_int, wrap.
  change (2 ^ (32 - 1)) with 2147483648.
  change (2 ^ 32) with 4294967296.
  change (2 ^ 31) with 2147483648 in Hx.
  rewrite Z.mod_small; lia.
Qed.

Lemma float_of_int_exact (z : Z) : 0 <= z <= 2 ^ 24 -> float_of_int z = z.
Proof.
  intros Hz. change (2 ^ 24) with 16777216 in Hz.
  destruct (Z.eq_dec z 16777216) as [-> | Hne]; [reflexivity |].
  unfold float_of_int.
  assert (Hlog : Z.log2 (Z.abs z) - 23 <= 0).
  { rewrite Z.abs_eq by lia.
    destruct (Z.eq_dec z 0) as [-> | Hz0]; [simpl; lia |].
    assert (Z.log2 z < 24) by (apply Z.log2_lt_pow2; simpl; lia).
    lia. }
  apply Z.leb_le in Hlog. rewrite Hlog. reflexivity.
Qed.

(** ** Rounding

    Round-to-nearest is monotone, keeps the values of the format, and is
    off by at most half a unit in the last place. *)

Lemma round_half_even_bounds (x : Q) :
  Qfloor x <= round_half_even x <= Qfloor x + 1.
Proof.
  unfold round_half_even.
  destruct (_ ?= _)%Q; [destruct (Z.even _) | |]; lia.
Qed.

Lemma round_half_even_error (x : Q) :
  (Qabs (inject_Z (round_half_even x) - x) <= 1 # 2)%Q.
Proof.
  unfold round_half_even.
  pose proof (Qfloor_le x) as Hl. pose proof (Qlt_floor x) as Hu.
  rewrite inject_Z_plus in Hu. change (inject_Z 1) with 1%Q in Hu.
  apply Qabs_Qle_condition.
  destruct (Qcompare_spec (x - inject_Z (Qfloor x)) (1 # 2)) as [E | E | E];
    [destruct (Z.even _) | |];
    rewrite ?inject_Z_plus; change (inject_Z 1) with 1%Q; split; lra.
Qed.

Lemma round_half_even_le (x y : Q) :
  (x <= y)%Q -> round_half_even x <= round_half_even y.
Proof.
  intros Hxy. pose proof (Qfloor_resp_le x y Hxy) as Hf.
  destruct (Z.eq_dec (Qfloor x) (Qfloor y)) as [E | N].
  - unfold round_half_even. rewrite E.
    destruct (Qcompare_spec (x - inject_Z (Qfloor y)) (1 # 2));
      destruct (Qcompare_spec (y - inject_Z (Qfloor y)) (1 # 2));
      try destruct (Z.even _); first [lia | exfalso; lra].
  - pose proof (round_half_even_bounds x).
    pose proof (round_half_even_bounds y).
    lia.
Qed.

Lemma round_half_even_Z (z : Z) : round_half_even (inject_Z z) = z.
Proof.
  unfold round_half_even. rewrite Qfloor_Z.
  assert (H : (inject_Z z - inject_Z z ?= 1 # 2)%Q = Lt)
    by (apply (proj1 (Qlt_alt _ _)); generalize (inject_Z z); intros q; lra).
  rewrite H. reflexivity.
Qed.

Lemma round_half_even_comp (x y : Q) :
  (x == y)%Q -> round_half_even x = round_half_even y.
Proof.
  intros E. apply Z.le_antisymm; apply round_half_even_le; rewrite E; lra.
Qed.


Lemma pow2_pos (e : Z) : 0 <= e -> (0 < inject_Z (2 ^ e))%Q.
Proof.
  intros He. change 0%Q with (inject_Z 0). rewrite <- Zlt_Qlt.
  apply Z.pow_pos_nonneg; lia.
Qed.

Lemma inject_Z_pow2_add (a b : Z) :
  0 <= a -> 0 <= b ->
  (inject_Z (2 ^ (a + b)) == inject_Z (2 ^ a) * inject_Z (2 ^ b))%Q.
Proof.
  intros Ha Hb. rewrite Z.pow_add_r by assumption.
  rewrite inject_Z_mult. reflexivity.
Qed.

Section Significand.

Variable prec : Z.
Hypothesis Hprec : 0 < prec.

Lemma lsb_exponent_nonneg (x : Q) : 0 <= lsb_exponent prec x.
Proof. unfold lsb_exponent. lia. Qed.

Lemma lsb_exponent_le (x y : Q) :
  (x <= y)%Q -> lsb_exponent prec x <= lsb_exponent prec y.
Proof.
  intros Hxy. unfold lsb_exponent.
  pose proof (Z.log2_le_mono _ _ (Qfloor_resp_le x y Hxy)). lia.
Qed.

Lemma below_binade (x : Q) :
  (x < inject_Z (2 ^ (prec + lsb_exponent prec x)))%Q.
Proof.
  apply Qlt_le_trans with (inject_Z (Qfloor x + 1)); [apply Qlt_floor |].
  rewrite <- Zle_Qle. unfold lsb_exponent.
  destruct (Z.le_gt_cases (Qfloor x) 0) as [H0 | Hpos].
  - assert (0 < 2 ^ (prec + Z.max 0 (Z.log2 (Qfloor x) - (prec - 1))))
      by (apply Z.pow_pos_nonneg; lia).
    lia.
  - destruct (Z.log2_spec _ Hpos) as [_ Hu].
    assert (2 ^ Z.succ (Z.log2 (Qfloor x))
            <= 2 ^ (prec + Z.max 0 (Z.log2 (Qfloor x) - (prec - 1))))
      by (apply Z.pow_le_mono_r; lia).
    lia.
Qed.

Lemma above_binade (x : Q) :
  0 < lsb_exponent prec x ->
  (inject_Z (2 ^ (prec - 1 + lsb_exponent prec x)) <= x)%Q.
Proof.
  unfold lsb_exponent. intros He.
  apply Qle_trans with (inject_Z (Qfloor x)); [| apply Qfloor_le].
  rewrite <- Zle_Qle.
  destruct (Z.le_gt_cases (Qfloor x) 0) as [H0 | Hpos].
  - rewrite (Z.log2_nonpos _ H0) in He. lia.
  - destruct (Z.log2_spec _ Hpos) as [Hl _].
    replace (prec - 1 + Z.max 0 (Z.log2 (Qfloor x) - (prec - 1)))
      with (Z.log2 (Qfloor x)) by lia.
    exact Hl.
Qed.

Lemma significand_le (x : Q) :
  round_half_even (x / inject_Z (2 ^ lsb_exponent prec x)) <= 2 ^ prec.
Proof.
  rewrite <- (round_half_even_Z (2 ^ prec)). apply round_half_even_le.
  pose proof (lsb_exponent_nonneg x) as He.
  apply Qle_shift_div_r; [apply pow2_pos, He |].
  rewrite <- inject_Z_pow2_add by lia.
  apply Qlt_le_weak, below_binade.
Qed.

Lemma significand_ge (x : Q) :
  0 < lsb_exponent prec x ->
  2 ^ (prec - 1) <= round_half_even (x / inject_Z (2 ^ lsb_exponent prec x)).
Proof.
  intros He.
  rewrite <- (round_half_even_Z (2 ^ (prec - 1))). apply round_half_even_le.
  apply Qle_shift_div_l; [apply pow2_pos; lia |].
  rewrite <- inject_Z_pow2_add by lia.
  apply above_binade, He.
Qed.

Lemma round_significand_le (x y : Q) :
  (x <= y)%Q -> round_significand prec x <= round_significand prec y.
Proof.
  intros Hxy. unfold round_significand.
  pose proof (lsb_exponent_le x y Hxy) as Hle.
  pose proof (lsb_exponent_nonneg x) as Hex.
  destruct (Z.eq_dec (lsb_exponent prec x) (lsb_exponent prec y)) as [E | N].
  - rewrite E. apply Z.mul_le_mono_nonneg_r; [apply Z.pow_nonneg; lia |].
    apply round_half_even_le.
    apply Qmult_le_compat_r; [exact Hxy |].
    apply Qlt_le_weak, Qinv_lt_0_compat, pow2_pos. lia.
  - assert (Hlt : lsb_exponent prec x < lsb_exponent prec y) by lia.
    pose proof (significand_le x) as Hx.
    pose proof (significand_ge y ltac:(lia)) as Hy.
    set (ex := lsb_exponent prec x) in *. set (ey := lsb_exponent prec y) in *.
    apply Z.le_trans with (2 ^ prec * 2 ^ ex).
    { apply Z.mul_le_mono_nonneg_r; [apply Z.pow_nonneg; lia | exact Hx]. }
    apply Z.le_trans with (2 ^ (prec - 1) * 2 ^ ey).
    { rewrite <- !Z.pow_add_r by lia. apply Z.pow_le_mono_r; lia. }
    apply Z.mul_le_mono_nonneg_r; [apply Z.pow_nonneg; lia | exact Hy].
Qed.

Lemma round_significand_exact (m k : Z) :
  0 <= m < 2 ^ prec -> 0 <= k ->
  round_significand prec (inject_Z (m * 2 ^ k)) = m * 2 ^ k.
Proof.
  intros Hm Hk. unfold round_significand, lsb_exponent. rewrite Qfloor_Z.
  set (e := Z.max 0 (Z.log2 (m * 2 ^ k) - (prec - 1))).
  assert (He : 0 <= e <= k).
  { subst e. split; [lia |].
    destruct (Z.eq_dec m 0) as [-> | Hm0].
    - rewrite Z.mul_0_l. change (Z.log2 0) with 0. lia.
    - rewrite Z.log2_mul_pow2 by lia.
      assert (Z.log2 m < prec) by (apply Z.log2_lt_pow2; lia).
      lia. }
  replace k with ((k - e) + e) at 1 by lia.
  rewrite Z.pow_add_r, Z.mul_assoc by lia.
  rewrite inject_Z_mult.
  assert (Hq : (inject_Z (m * 2 ^ (k - e)) * inject_Z (2 ^ e) / inject_Z (2 ^ e)
                == inject_Z (m * 2 ^ (k - e)))%Q).
  { apply Qdiv_mult_l. apply Qnot_eq_sym, Qlt_not_eq, pow2_pos. lia. }
  rewrite (round_half_even_comp _ _ Hq), round_half_even_Z.
  rewrite <- Z.mul_assoc, <- Z.pow_add_r by lia.
  replace (k - e + e) with k by lia. reflexivity.
Qed.

Lemma round_significand_error (x : Q) :
  (Qabs (inject_Z (round_significand prec x) - x)
   <= inject_Z (2 ^ lsb_exponent prec x) / 2)%Q.
Proof.
  unfold round_significand.
  pose proof (lsb_exponent_nonneg x) as He.
  set (e := lsb_exponent prec x) in *.
  pose proof (pow2_pos e He) as Hp.
  pose proof (round_half_even_error (x / inject_Z (2 ^ e))) as Herr.
  rewrite inject_Z_mult.
  set (u := inject_Z (2 ^ e)) in *.
  set (r := inject_Z (round_half_even (x / u))) in *.
  assert (E : (r * u - x == (r - x / u) * u)%Q) by (field; lra).
  rewrite E, Qabs_Qmult, (Qabs_pos u) by lra.
  setoid_replace (u / 2)%Q with ((1 # 2) * u)%Q by (field).
  apply Qmult_le_compat_r; [exact Herr | lra].
Qed.

End Significand.

Lemma round_significand_comp (prec : Z) (x y : Q) :
  0 < prec -> (x == y)%Q -> round_significand prec x = round_significand prec y.
Proof.
  intros Hp E.
  apply Z.le_antisymm; apply round_significand_le; try assumption;
    rewrite E; apply Qle_refl.
Qed.

Lemma round_significand_nonneg (prec : Z) (x : Q) :
  0 < prec -> (0 <= x)%Q -> 0 <= round_significand prec x.
Proof.
  intros Hp Hx.
  apply Z.le_trans with (round_significand prec (inject_Z (0 * 2 ^ 0))).
  - rewrite round_significand_exact;
      [lia | exact Hp | split; [lia | apply Z.pow_pos_nonneg; lia] | lia].
  - apply round_significand_le; [exact Hp | exact Hx].
Qed.

Section Binary.

Variables prec scale : Z.
Hypothesis Hprec : 0 < prec.
Hypothesis Hscale : 0 <= scale.

Lemma round_binary_nonneg (q : Q) :
  (0 <= q)%Q ->
  (round_binary prec scale q ==
   inject_Z (round_significand prec (q * inject_Z (2 ^ scale)))
   / inject_Z (2 ^ scale))%Q.
Proof.
  intros Hq. unfold round_binary. rewrite Qred_correct.
  rewrite (proj2 (Qle_bool_iff 0 q) Hq).
  rewrite (round_significand_comp prec (Qabs q * inject_Z (2 ^ scale))
             (q * inject_Z (2 ^ scale)) Hprec).
  - reflexivity.
  - rewrite (Qabs_pos q Hq). reflexivity.
Qed.

Lemma round_binary_negative (q : Q) :
  (q < 0)%Q ->
  (round_binary prec scale q ==
   - (inject_Z (round_significand prec (- q * inject_Z (2 ^ scale)))
      / inject_Z (2 ^ scale)))%Q.
Proof.
  intros Hq. unfold round_binary. rewrite Qred_correct.
  destruct (Qle_bool 0 q) eqn:E.
  - apply Qle_bool_iff in E. lra.
  - rewrite (round_significand_comp prec (Qabs q * inject_Z (2 ^ scale))
               (- q * inject_Z (2 ^ scale)) Hprec).
    + rewrite inject_Z_opp.
      pose proof (pow2_pos scale Hscale).
      field. lra.
    + rewrite (Qabs_neg q) by lra. reflexivity.
Qed.

Lemma round_binary_le (x y : Q) :
  (x <= y)%Q -> (round_binary prec scale x <= round_binary prec scale y)%Q.
Proof.
  intros Hxy. pose proof (pow2_pos scale Hscale) as Hu.
  assert (Hinv : (0 <= / inject_Z (2 ^ scale))%Q)
    by (apply Qlt_le_weak, Qinv_lt_0_compat, Hu).
  assert (Hpos : forall q, (0 <= q)%Q ->
            (0 <= inject_Z (round_significand prec (q * inject_Z (2 ^ scale)))
                  / inject_Z (2 ^ scale))%Q).
  { intros q Hq. apply Qmult_le_0_compat; [| exact Hinv].
    change 0%Q with (inject_Z 0). rewrite <- Zle_Qle.
    apply round_significand_nonneg; [exact Hprec |].
    apply Qmult_le_0_compat; lra. }
  assert (Hmono : forall a b, (a <= b)%Q ->
            (inject_Z (round_significand prec (a * inject_Z (2 ^ scale)))
               / inject_Z (2 ^ scale)
             <= inject_Z (round_significand prec (b * inject_Z (2 ^ scale)))
               / inject_Z (2 ^ scale))%Q).
  { intros a b Hab. apply Qmult_le_compat_r; [| exact Hinv].
    rewrite <- Zle_Qle. apply round_significand_le; [exact Hprec |].
    apply Qmult_le_compat_r; lra. }
  destruct (Qlt_le_dec x 0) as [Hx | Hx];
    destruct (Qlt_le_dec y 0) as [Hy | Hy].
  - rewrite (round_binary_negative x Hx), (round_binary_negative y Hy).
    apply Qopp_le_compat, Hmono. lra.
  - rewrite (round_binary_negative x Hx), (round_binary_nonneg y Hy).
    pose proof (Hpos (- x)%Q ltac:(lra)). pose proof (Hpos y Hy). lra.
  - lra.
  - rewrite (round_binary_nonneg x Hx), (round_binary_nonneg y Hy).
    apply Hmono, Hxy.
Qed.

Lemma round_binary_comp (x y : Q) :
  (x == y)%Q -> (round_binary prec scale x == round_binary prec scale y)%Q.
Proof.
  intros E. apply Qle_antisym; apply round_binary_le; rewrite E; apply Qle_refl.
Qed.

Lemma round_binary_opp (q : Q) :
  (round_binary prec scale (- q) == - round_binary prec scale q)%Q.
Proof.
  pose proof (pow2_pos scale Hscale) as Hu.
  destruct (Qlt_le_dec q 0) as [Hq | Hq].
  - rewrite (round_binary_negative q Hq), (round_binary_nonneg (- q)) by lra.
    ring.
  - destruct (Qlt_le_dec 0 q) as [Hq' | Hq'].
    + rewrite (round_binary_negative (- q)) by lra.
      rewrite (round_binary_nonneg q Hq).
      rewrite (round_significand_comp prec (- - q * inject_Z (2 ^ scale))
                 (q * inject_Z (2 ^ scale)) Hprec) by ring.
      reflexivity.
    + assert (E : (q == 0)%Q) by lra.
      rewrite (round_binary_comp (- q) 0), (round_binary_comp q 0) by lra.
      rewrite (round_binary_nonneg 0) by lra.
      rewrite (round_significand_comp prec (0 * inject_Z (2 ^ scale))
                 (inject_Z (0 * 2 ^ 0)) Hprec) by (cbn; ring).
      rewrite round_significand_exact;
        [| exact Hprec | split; [lia | apply Z.pow_pos_nonneg; lia] | lia].
      cbn. field. lra.
Qed.

(** Every [m * 2^k / 2^scale] with a significand [m] of [prec] bits is a
    value of the format. *)
Lemma round_binary_exact (m k : Z) :
  Z.abs m < 2 ^ prec -> 0 <= k ->
  (round_binary prec scale (inject_Z (m * 2 ^ k) / inject_Z (2 ^ scale))
   == inject_Z (m * 2 ^ k) / inject_Z (2 ^ scale))%Q.
Proof.
  intros Hm Hk. pose proof (pow2_pos scale Hscale) as Hu.
  assert (Hnn : forall n, 0 <= n < 2 ^ prec ->
            (round_binary prec scale
               (inject_Z (n * 2 ^ k) / inject_Z (2 ^ scale))
             == inject_Z (n * 2 ^ k) / inject_Z (2 ^ scale))%Q).
  { intros n Hn.
    assert (H0 : (0 <= inject_Z (n * 2 ^ k) / inject_Z (2 ^ scale))%Q).
    { apply Qmult_le_0_compat;
        [| apply Qlt_le_weak, Qinv_lt_0_compat, Hu].
      change 0%Q with (inject_Z 0). rewrite <- Zle_Qle.
      apply Z.mul_nonneg_nonneg; [lia | apply Z.pow_nonneg; lia]. }
    rewrite (round_binary_nonneg _ H0).
    rewrite (round_significand_comp prec
               (inject_Z (n * 2 ^ k) / inject_Z (2 ^ scale)
                * inject_Z (2 ^ scale))
               (inject_Z (n * 2 ^ k)) Hprec) by (field; lra).
    rewrite (round_significand_exact prec Hprec n k Hn Hk). reflexivity. }
  destruct (Z.le_gt_cases 0 m) as [Hpos | Hneg].
  - apply Hnn. lia.
  - replace (m * 2 ^ k) with (- ((- m) * 2 ^ k)) by ring.
    rewrite inject_Z_opp.
    assert (E : (- inject_Z (- m * 2 ^ k) / inject_Z (2 ^ scale) ==
                 - (inject_Z (- m * 2 ^ k) / inject_Z (2 ^ scale)))%Q)
      by (field; lra).
    rewrite (round_binary_comp _ _ E), E, round_binary_opp, Hnn by lia.
    reflexivity.
Qed.

(** In particular the integers of at most [prec] bits. *)
Lemma round_binary_Z (z : Z) :
  Z.abs z < 2 ^ prec ->
  (round_binary prec scale (inject_Z z) == inject_Z z)%Q.
Proof.
  intros Hz. pose proof (pow2_pos scale Hscale) as Hu.
  assert (E : (inject_Z z ==
               inject_Z (z * 2 ^ scale) / inject_Z (2 ^ scale))%Q)
    by (rewrite inject_Z_mult; field; lra).
  rewrite (round_binary_comp _ _ E), round_binary_exact by assumption.
  symmetry. exact E.
Qed.

End Binary.

Section Error.

Variables prec scale : Z.
Hypothesis Hprec : 0 < prec.
Hypothesis Hscale : 0 <= scale.

(** Half a unit in the last place: 2^-prec relative, or half the smallest
    subnormal. *)
Lemma round_significand_error_bound (x : Q) :
  (0 <= x)%Q ->
  (Qabs (inject_Z (round_significand prec x) - x)
   <= x / inject_Z (2 ^ prec) + (1 # 2))%Q.
Proof.
  intros Hx.
  apply Qle_trans with (inject_Z (2 ^ lsb_exponent prec x) / 2)%Q;
    [apply round_significand_error; exact Hprec |].
  pose proof (lsb_exponent_nonneg prec x) as He.
  pose proof (pow2_pos prec ltac:(lia)) as Hp.
  assert (Hdiv : (0 <= x / inject_Z (2 ^ prec))%Q)
    by (apply Qmult_le_0_compat;
        [exact Hx | apply Qlt_le_weak, Qinv_lt_0_compat, Hp]).
  destruct (Z.eq_dec (lsb_exponent prec x) 0) as [-> | N].
  - change (inject_Z (2 ^ 0) / 2)%Q with (1 # 2)%Q. lra.
  - pose proof (above_binade prec Hprec x ltac:(lia)) as Hb.
    rewrite inject_Z_pow2_add in Hb by lia.
    replace prec with (prec - 1 + 1) at 2 by lia.
    rewrite (inject_Z_pow2_add (prec - 1) 1) by lia.
    change (inject_Z (2 ^ 1)) with 2%Q.
    pose proof (pow2_pos (prec - 1) ltac:(lia)) as Hp1.
    set (a := inject_Z (2 ^ (prec - 1))) in *.
    set (u := inject_Z (2 ^ lsb_exponent prec x)) in *.
    apply Qle_trans with (x / (a * 2))%Q; [| lra].
    apply Qle_shift_div_l; [lra |].
    setoid_replace (u / 2 * (a * 2))%Q with (a * u)%Q by field.
    exact Hb.
Qed.

Lemma round_binary_error_bound (q : Q) :
  (Qabs (round_binary prec scale q - q)
   <= Qabs q / inject_Z (2 ^ prec) + (1 # 2) / inject_Z (2 ^ scale))%Q.
Proof.
  pose proof (pow2_pos scale Hscale) as Hu.
  pose proof (pow2_pos prec ltac:(lia)) as Hp.
  assert (Hnn : forall x, (0 <= x)%Q ->
            (Qabs (round_binary prec scale x - x)
             <= x / inject_Z (2 ^ prec)
                + (1 # 2) / inject_Z (2 ^ scale))%Q).
  { intros x Hx. rewrite (round_binary_nonneg prec scale Hprec x Hx).
    set (u := inject_Z (2 ^ scale)) in *.
    assert (Hxu : (0 <= x * u)%Q) by (apply Qmult_le_0_compat; lra).
    pose proof (round_significand_error_bound (x * u) Hxu) as He.
    set (r := inject_Z (round_significand prec (x * u))) in *.
    assert (E : (r / u - x == (r - x * u) * / u)%Q) by (field; lra).
    rewrite E, Qabs_Qmult.
    rewrite (Qabs_pos (/ u))
      by (apply Qlt_le_weak, Qinv_lt_0_compat, Hu).
    setoid_replace (x / inject_Z (2 ^ prec) + (1 # 2) / u)%Q
      with ((x * u / inject_Z (2 ^ prec) + (1 # 2)) * / u)%Q
      by (field; lra).
    apply Qmult_le_compat_r;
      [exact He | apply Qlt_le_weak, Qinv_lt_0_compat, Hu]. }
  destruct (Qlt_le_dec q 0) as [Hq | Hq].
  - rewrite (Qabs_neg q) by lra.
    specialize (Hnn (- q)%Q ltac:(lra)).
    rewrite (round_binary_opp prec scale Hprec Hscale) in Hnn.
    setoid_replace (round_binary prec scale q - q)%Q
      with (- (- round_binary prec scale q - - q))%Q by ring.
    rewrite Qabs_opp. exact Hnn.
  - rewrite (Qabs_pos q) by lra. apply Hnn; assumption.
Qed.

(** The integers [m * 2^k] with a significand of [prec] bits. *)
Lemma round_binary_scaled_Z (m k : Z) :
  Z.abs m < 2 ^ prec -> 0 <= k ->
  (round_binary prec scale (inject_Z (m * 2 ^ k)) == inject_Z (m * 2 ^ k))%Q.
Proof.
  intros Hm Hk. pose proof (pow2_pos scale Hscale) as Hu.
  assert (E : (inject_Z (m * 2 ^ k) ==
               inject_Z (m * 2 ^ (k + scale)) / inject_Z (2 ^ scale))%Q).
  { rewrite Z.pow_add_r, Z.mul_assoc, (inject_Z_mult (m * 2 ^ k)) by lia.
    field. lra. }
  rewrite (round_binary_comp prec scale Hprec Hscale _ _ E).
  rewrite round_binary_exact by (assumption || lia).
  symmetry. exact E.
Qed.

End Error.

(** ** What each operation does to the state *)

(** Unfold the monad's plumbing and leave the program's own tests. *)
Ltac run :=
  cbv beta iota delta
    [bind load store call call_status info when ret die exec result];
  cbn [vars calls fst snd].

Ltac reassoc := rewrite <- ?app_assoc; simpl app.

Lemma resize_viewport_same (w h : GLsizei) (st : State) :
  cached_size (vars st) = (w, h) ->
  resize_viewport w h st = (Ret tt, st).
Proof.
  unfold cached_size. intros H. injection H as Hw Hh.
  unfold resize_viewport, bind, load. simpl.
  rewrite Hw, Hh, !Z.eqb_refl. reflexivity.
Qed.

Lemma resize_viewport_new (w h : GLsizei) (st : State) :
  cached_size (vars st) <> (w, h) ->
  resize_viewport w h st =
    (Ret tt,
     {| vars := upd viewport_height h (upd viewport_width w (vars st));
        calls := calls st ++ resize_calls (vars st) w h |}).
Proof.
  unfold cached_size. intros H.
  unfold resize_viewport, bind, load. simpl.
  destruct (Z.eqb_spec (vars st viewport_width) w) as [Hw | Hw];
    destruct (Z.eqb_spec (vars st viewport_height) h) as [Hh | Hh];
    try (exfalso; apply H; rewrite Hw, Hh; reflexivity);
    simpl; unfold resize_calls, info, call; simpl;
    rewrite <- !app_assoc; reflexivity.
Qed.

Lemma cached_size_dec (vs : globals) (w h : Z) :
  {cached_size vs = (w, h)} + {cached_size vs <> (w, h)}.
Proof.
  unfold cached_size.
  destruct (Z.eq_dec (vs viewport_width) w) as [-> | Hw];
    destruct (Z.eq_dec (vs viewport_height) h) as [-> | Hh];
    first [left; reflexivity | right; intros H; injection H; tauto].
Qed.

Lemma cached_size_after_resize (w h : GLsizei) (st : State) :
  cached_size (vars (exec (resize_viewport w h) st)) = (w, h).
Proof.
  unfold exec.
  destruct (cached_size_dec (vars st) w h) as [Heq | Hne].
  - rewrite resize_viewport_same by assumption. assumption.
  - rewrite resize_viewport_new by assumption. reflexivity.
Qed.

Lemma render_run (abstime : GLfloat) (st : State) :
  render abstime st =
    (Ret tt,
     {| vars := upd frames (wrap_int (vars st frames + 1)) (vars st);
        calls := calls st ++ time_upload (vars st) abstime
                          ++ frame_calls (vars st)
                               (wrap_int (vars st frames + 1)) |}).
Proof.
  unfold render, time_upload, frame_calls. run.
  destruct (0 <=? vars st uniform_gtime); run; reassoc; reflexivity.
Qed.

Lemma process_event_configure (w h : Z) (st : State) :
  process_event (ConfigureNotify w h) st =
    (Ret true, exec (resize_viewport w h) st).
Proof.
  unfold exec. simpl. unfold bind.
  destruct (cached_size_dec (vars st) w h) as [Heq | Hne].
  - rewrite resize_viewport_same by assumption. reflexivity.
  - rewrite resize_viewport_new by assumption. reflexivity.
Qed.

Lemma process_event_inert (ev : XEvent) (st : State) :
  is_configure ev = false ->
  process_event ev st = (Ret (negb (is_exit_key ev)), st).
Proof.
  destruct ev as [w h | key | ty]; simpl; intros H; try discriminate.
  - destruct ((key =? XK_Escape) || (key =? XK_q)); reflexivity.
  - reflexivity.
Qed.

(** Whatever the event, [process_event] returns, says whether the event was
    an exit key, and leaves the state [process_event] alone would leave. *)
Lemma process_event_run (ev : XEvent) (st : State) :
  process_event ev st =
    (Ret (negb (is_exit_key ev)), exec (process_event ev) st).
Proof.
  destruct ev as [w h | key | ty].
  - rewrite process_event_configure. unfold exec at 2.
    rewrite process_event_configure. reflexivity.
  - unfold exec. rewrite process_event_inert by reflexivity. reflexivity.
  - unfold exec. rewrite process_event_inert by reflexivity. reflexivity.
Qed.

Lemma drain_run (queue : list XEvent) (done : bool) (st : State) :
  drain queue done st =
    (Ret (done || existsb is_exit_key queue), fold_left step_event queue st).
Proof.
  revert done st.
  induction queue as [| ev queue IH]; intros done st; simpl.
  - rewrite orb_false_r. reflexivity.
  - unfold bind. rewrite process_event_run, IH.
    rewrite negb_involutive.
    destruct (is_exit_key ev), done; reflexivity.
Qed.

Lemma process_events_run (queue : list XEvent) (st : State) :
  process_events queue st =
    (Ret (negb (existsb is_exit_key queue)), fold_left step_event queue st).
Proof.
  unfold process_events, bind. rewrite drain_run. reflexivity.
Qed.

(** ** Frame conditions: what resizes and event drains cannot touch *)

Lemma viewport_only_refl (vs : globals) : viewport_only vs vs.
Proof. intros g _ _. reflexivity. Qed.

Lemma viewport_only_trans (a b c : globals) :
  viewport_only a b -> viewport_only b c -> viewport_only a c.
Proof.
  intros Hab Hbc g Hw Hh. rewrite (Hbc g Hw Hh). apply Hab; assumption.
Qed.

Lemma upd_same (g : global) (v : Z) (vs : globals) : upd g v vs g = v.
Proof. unfold upd. destruct (global_eq_dec g g); congruence. Qed.

Lemma upd_other (g g' : global) (v : Z) (vs : globals) :
  g <> g' -> upd g v vs g' = vs g'.
Proof. unfold upd. destruct (global_eq_dec g g'); congruence. Qed.

Lemma resize_viewport_frame (w h : GLsizei) (st : State) :
  exists vs' l,
    resize_viewport w h st = (Ret tt, {| vars := vs'; calls := calls st ++ l |})
    /\ viewport_only (vars st) vs'
    /\ forallb resize_call l = true.
Proof.
  destruct (cached_size_dec (vars st) w h) as [Heq | Hne].
  - exists (vars st), []. rewrite resize_viewport_same by assumption.
    rewrite app_nil_r, state_eta.
    split; [reflexivity | split; [apply viewport_only_refl | reflexivity]].
  - eexists _, _. rewrite resize_viewport_new by assumption.
    split; [reflexivity | split; [| reflexivity]].
    intros g Hw Hh. rewrite !upd_other by congruence. reflexivity.
Qed.

Lemma step_event_frame (ev : XEvent) (st : State) :
  exists vs' l,
    step_event st ev = {| vars := vs'; calls := calls st ++ l |}
    /\ viewport_only (vars st) vs'
    /\ forallb resize_call l = true.
Proof.
  unfold step_event, exec.
  destruct (is_configure ev) eqn:Hc.
  - destruct ev as [w h | key | ty]; try discriminate.
    rewrite process_event_configure. unfold exec. simpl snd.
    destruct (resize_viewport_frame w h st) as (vs' & l & Hrun & Hvs & Hl).
    exists vs', l. rewrite Hrun. auto.
  - rewrite process_event_inert by assumption. simpl.
    exists (vars st), []. rewrite app_nil_r, state_eta.
    split; [reflexivity | split; [apply viewport_only_refl | reflexivity]].
Qed.

Lemma drained_frame (queue : list XEvent) (st : State) :
  exists vs' l,
    fold_left step_event queue st = {| vars := vs'; calls := calls st ++ l |}
    /\ viewport_only (vars st) vs'
    /\ forallb resize_call l = true.
Proof.
  revert st. induction queue as [| ev queue IH]; intros st; simpl.
  - exists (vars st), []. rewrite app_nil_r, state_eta.
    split; [reflexivity | split; [apply viewport_only_refl | reflexivity]].
  - destruct (step_event_frame ev st) as (vs1 & l1 & H1 & Hvs1 & Hl1).
    destruct (IH (step_event st ev)) as (vs2 & l2 & H2 & Hvs2 & Hl2).
    exists vs2, (l1 ++ l2). rewrite H2, H1. simpl. rewrite app_assoc.
    split; [reflexivity | split].
    + rewrite H1 in Hvs2. simpl in Hvs2.
      eapply viewport_only_trans; eassumption.
    + rewrite forallb_app, Hl1, Hl2. reflexivity.
Qed.

Lemma resize_call_no_frame_upload (l : list Call) :
  forallb resize_call l = true -> frame_uploads l = [].
Proof.
  induction l as [| c l IH]; simpl; [reflexivity |].
  intros H. apply andb_true_iff in H as [Hc Hl].
  rewrite (IH Hl). destruct c; try discriminate; reflexivity.
Qed.

Lemma resize_call_no_draw (l : list Call) :
  forallb resize_call l = true -> count_draws l = O.
Proof.
  unfold count_draws.
  induction l as [| c l IH]; simpl; [reflexivity |].
  intros H. apply andb_true_iff in H as [Hc Hl].
  destruct c; try discriminate; simpl; auto.
Qed.

Lemma resize_call_no_teardown (l : list Call) :
  forallb resize_call l = true -> forallb (fun c => negb (is_teardown c)) l = true.
Proof.
  induction l as [| c l IH]; simpl; [reflexivity |].
  intros H. apply andb_true_iff in H as [Hc Hl].
  rewrite (IH Hl). destruct c; try discriminate; reflexivity.
Qed.

(** ** The frame counter over a run of operations *)

Lemma wrap_int_add_l (a b : Z) : wrap_int (wrap_int a + b) = wrap_int (a + b).
Proof.
  unfold wrap_int, wrap.
  change (2 ^ (32 - 1)) with 2147483648.
  change (2 ^ 32) with 4294967296.
  f_equal.
  replace ((a + 2147483648) mod 4294967296 - 2147483648 + b + 2147483648)
    with ((a + 2147483648) mod 4294967296 + b) by lia.
  rewrite Zplus_mod_idemp_l. f_equal. lia.
Qed.

Lemma frame_uploads_app (l1 l2 : list Call) :
  frame_uploads (l1 ++ l2) = frame_uploads l1 ++ frame_uploads l2.
Proof. unfold frame_uploads. apply flat_map_app. Qed.

Lemma frame_uploads_time_upload (vs : globals) (t : GLfloat) :
  frame_uploads (time_upload vs t) = [].
Proof. unfold time_upload. destruct (0 <=? vs uniform_gtime); reflexivity. Qed.

Lemma count_draws_app (l1 l2 : list Call) :
  count_draws (l1 ++ l2) = (count_draws l1 + count_draws l2)%nat.
Proof. unfold count_draws. rewrite filter_app, length_app. reflexivity. Qed.

Lemma count_draws_time_upload (vs : globals) (t : GLfloat) :
  count_draws (time_upload vs t) = O.
Proof. unfold time_upload. destruct (0 <=? vs uniform_gtime); reflexivity. Qed.

Lemma uploads_from_S (f : Z) (n : nat) :
  uploads_from f (S n) =
    to_float (wrap_int (f + 1)) :: uploads_from (wrap_int (f + 1)) n.
Proof.
  unfold uploads_from. rewrite <- cons_seq. simpl map. f_equal.
  rewrite <- seq_shift, map_map. apply map_ext. intros i.
  rewrite wrap_int_add_l. do 2 f_equal. lia.
Qed.

Lemma run_ops_uploads (os : list op) (st : State) :
  exists vs' l,
    run_ops os st = (Ret tt, {| vars := vs'; calls := calls st ++ l |})
    /\ frame_uploads l = uploads_from (vars st frames) (count_frames os).
Proof.
  revert st. induction os as [| o os IH]; intros st.
  - exists (vars st), []. simpl. rewrite app_nil_r, state_eta. auto.
  - simpl run_ops. unfold bind.
    destruct o as [t | w h | queue]; simpl run_op.
    + rewrite render_run.
      match goal with |- context [run_ops os ?s] => destruct (IH s) as (vs' & l & Hrun & Hup) end.
      rewrite Hrun. cbn [vars calls] in *.
      eexists vs', _. rewrite <- !app_assoc. split; [reflexivity |].
      rewrite !frame_uploads_app, frame_uploads_time_upload, Hup.
      rewrite upd_same.
      change (count_frames (Frame t :: os)) with (S (count_frames os)).
      rewrite uploads_from_S. reflexivity.
    + destruct (resize_viewport_frame w h st) as (vs1 & l1 & H1 & Hvs1 & Hl1).
      rewrite H1.
      match goal with |- context [run_ops os ?s] => destruct (IH s) as (vs' & l & Hrun & Hup) end.
      rewrite Hrun. cbn [vars calls] in *.
      eexists vs', _. rewrite <- !app_assoc. split; [reflexivity |].
      rewrite frame_uploads_app, (resize_call_no_frame_upload _ Hl1), Hup.
      rewrite (Hvs1 frames) by discriminate. reflexivity.
    + unfold bind. rewrite process_events_run.
      destruct (drained_frame queue st) as (vs1 & l1 & H1 & Hvs1 & Hl1).
      rewrite H1. unfold ret.
      match goal with |- context [run_ops os ?s] => destruct (IH s) as (vs' & l & Hrun & Hup) end.
      rewrite Hrun. cbn [vars calls] in *.
      eexists vs', _. rewrite <- !app_assoc. split; [reflexivity |].
      rewrite frame_uploads_app, (resize_call_no_frame_upload _ Hl1), Hup.
      rewrite (Hvs1 frames) by discriminate. reflexivity.
Qed.

Lemma uploads_from_exact (n : nat) :
  Z.of_nat n <= 2 ^ 24 ->
  uploads_from 0 n = map (fun k => inject_Z (Z.of_nat k)) (seq 1 n).
Proof.
  intros Hn. unfold uploads_from. apply map_ext_in.
  intros k Hk. apply in_seq in Hk.
  change (2 ^ 24) with 16777216 in Hn.
  unfold to_float. f_equal. simpl Z.add.
  rewrite wrap_int_small by (change (2 ^ 31) with 2147483648; lia).
  apply float_of_int_exact. change (2 ^ 24) with 16777216. lia.
Qed.

Lemma count_frames_repeat (t : GLfloat) (n : nat) :
  count_frames (repeat (Frame t) n) = n.
Proof.
  unfold count_frames. induction n as [| n IH]; simpl; [reflexivity |].
  f_equal. exact IH.
Qed.

Lemma uploads_from_nth (f : Z) (n k : nat) :
  (k < n)%nat ->
  nth_error (uploads_from f n) k = Some (to_float (wrap_int (f + Z.of_nat (S k)))).
Proof.
  intros Hk. unfold uploads_from.
  rewrite nth_error_map, nth_error_seq.
  destruct (Nat.ltb_spec k n) as [_ | Hge]; [| lia].
  reflexivity.
Qed.

(** ** C1: the frame counter *)

(** C1 (as amended).  Starting from the counter's initial value 0, over any
    run of frames, resizes and event drains that contains at most 2^24
    frames, every operation returns and the values uploaded through the
    frame-count uniform are 1, 2, ..., N in order, N being the number of
    frames: whatever elapsed time each frame is given, and with no reset by
    the operations in between. *)
Theorem frame_counter_uploads (os : list op) (st : State) :
  vars st frames = 0 ->
  Z.of_nat (count_frames os) <= 2 ^ 24 ->
  result (run_ops os) st = Ret tt /\
  frame_uploads (new_calls st (exec (run_ops os) st)) =
    map (fun k => inject_Z (Z.of_nat k)) (seq 1 (count_frames os)).
Proof.
  intros H0 Hn.
  destruct (run_ops_uploads os st) as (vs' & l & Hrun & Hup).
  unfold result, exec. rewrite Hrun. cbn [fst snd].
  split; [reflexivity |].
  rewrite new_calls_app, Hup, H0.
  apply uploads_from_exact. exact Hn.
Qed.

Lemma frame_counter_uploads_witness :
  frame_uploads
    (new_calls initial_state
       (exec (run_ops [Frame 0%Q; Resize 800 600; Frame (7 # 2);
                       Events [KeyPress 32]; Frame (1 # 3)])
             initial_state)) =
    [1%Q; 2%Q; 3%Q].
Proof.
  apply (frame_counter_uploads
           [Frame 0%Q; Resize 800 600; Frame (7 # 2);
            Events [KeyPress 32]; Frame (1 # 3)] initial_state).
  - reflexivity.
  - vm_compute. discriminate.
Defined.


(** C1 as stated fails: the counter is uploaded as a [float], and the
    16777217th frame of a run uploads 16777216, which is not 16777217. *)
Lemma frame_counter_inexact_past_2p24 :
  nth_error
    (frame_uploads
       (new_calls initial_state
          (exec (run_ops (repeat (Frame 0%Q) (Z.to_nat 16777217)))
                initial_state)))
    (Z.to_nat 16777216) = Some (inject_Z 16777216)
  /\ ~ (inject_Z 16777216 == inject_Z 16777217)%Q.
Proof.
  split.
  - destruct (run_ops_uploads (repeat (Frame 0%Q) (Z.to_nat 16777217))
                initial_state) as (vs' & l & Hrun & Hup).
    unfold exec. rewrite Hrun. cbn [snd].
    rewrite new_calls_app, Hup, count_frames_repeat.
    rewrite uploads_from_nth by lia.
    change (vars initial_state frames) with 0.
    replace (0 + Z.of_nat (S (Z.to_nat 16777216))) with 16777217 by lia.
    vm_compute. reflexivity.
  - intros H. unfold Qeq in H. simpl in H. discriminate H.
Qed.

(** ** C2: viewport de-duplication *)

(** C2.  A resize to the size just set is a no-op: it returns with the state,
    log included, unchanged.  A resize to a size other than the cached one
    logs exactly the resolution upload, the viewport call and the message,
    once each, and sets the cached size to the new one; a resize to the
    cached size does nothing.  From the initial sentinel (-1,-1) a resize to
    any non-negative size applies. *)
Theorem resize_viewport_dedup (st : State) (w h : GLsizei) :
  let st1 := exec (resize_viewport w h) st in
  resize_viewport w h st1 = (Ret tt, st1) /\
  (cached_size (vars st) <> (w, h) ->
     new_calls st st1 = resize_calls (vars st) w h /\
     vars st1 = upd viewport_height h (upd viewport_width w (vars st)) /\
     cached_size (vars st1) = (w, h)) /\
  (cached_size (vars st) = (w, h) -> st1 = st) /\
  (cached_size (vars st) = (-1, -1) -> 0 <= w -> 0 <= h ->
     new_calls st st1 = resize_calls (vars st) w h /\
     cached_size (vars st1) = (w, h)).
Proof.
  intros st1.
  assert (Hnew : cached_size (vars st) <> (w, h) ->
                 new_calls st st1 = resize_calls (vars st) w h /\
                 vars st1 = upd viewport_height h (upd viewport_width w (vars st)) /\
                 cached_size (vars st1) = (w, h)).
  { intros Hne. subst st1. unfold exec.
    rewrite resize_viewport_new by assumption. cbn [snd vars].
    rewrite new_calls_app. repeat split. }
  split; [| split; [| split]].
  - apply resize_viewport_same. apply cached_size_after_resize.
  - exact Hnew.
  - intros Heq. subst st1. unfold exec.
    rewrite resize_viewport_same by assumption. reflexivity.
  - intros Hinit Hw Hh.
    assert (Hne : cached_size (vars st) <> (w, h)).
    { rewrite Hinit. intros Hc. injection Hc as Hcw Hch. lia. }
    destruct (Hnew Hne) as (Hcalls & _ & Hsize). split; assumption.
Qed.

Lemma resize_viewport_dedup_witness :
  new_calls initial_state (exec (resize_viewport 640 360) initial_state) =
    resize_calls initial_globals 640 360
  /\ resize_viewport 640 360 (exec (resize_viewport 640 360) initial_state) =
       (Ret tt, exec (resize_viewport 640 360) initial_state).
Proof.
  destruct (resize_viewport_dedup initial_state 640 360)
    as (Hagain & _ & _ & Hfirst).
  split.
  - apply Hfirst; [reflexivity | lia | lia].
  - exact Hagain.
Defined.

(** ** C6: the elapsed-time upload is guarded *)

Lemma in_frame_calls_location (vs : globals) (n : Z) (c : Call) :
  In c (frame_calls vs n) ->
  match c with
  | GlUniform1f var loc _ => var = uniform_frame /\ loc = vs uniform_frame
  | _ => True
  end.
Proof.
  unfold frame_calls. simpl.
  intros [H | [H | [H | [H | [H | [H | [H | []]]]]]]]; subst c; auto.
Qed.

(** C6.  A frame always returns.  When the location held by [uniform_gtime]
    is negative the frame logs the frame-counter upload and the draw only:
    no upload is made through [uniform_gtime], and none at that location
    unless the frame-counter uniform has the very same location.  When the
    location is non-negative the frame first uploads the elapsed time it was
    given to that location. *)
Theorem render_time_upload_guarded (abstime : GLfloat) (st : State) :
  let st' := exec (render abstime) st in
  let n := wrap_int (vars st frames + 1) in
  result (render abstime) st = Ret tt /\
  (vars st uniform_gtime < 0 ->
     new_calls st st' = frame_calls (vars st) n /\
     (forall loc v, ~ In (GlUniform1f uniform_gtime loc v) (new_calls st st')) /\
     (vars st uniform_frame <> vars st uniform_gtime ->
      forall var v,
        ~ In (GlUniform1f var (vars st uniform_gtime) v) (new_calls st st'))) /\
  (0 <= vars st uniform_gtime ->
     new_calls st st' =
       GlUniform1f uniform_gtime (vars st uniform_gtime) abstime
         :: frame_calls (vars st) n).
Proof.
  intros st' n. subst st' n. unfold result, exec.
  rewrite render_run. cbn [fst snd]. rewrite new_calls_app.
  split; [reflexivity | split].
  - intros Hneg. unfold time_upload.
    destruct (Z.leb_spec 0 (vars st uniform_gtime)) as [Hle | _]; [lia |].
    cbn [app]. split; [reflexivity | split].
    + intros loc v Hin. apply in_frame_calls_location in Hin.
      destruct Hin as [Hvar _]. discriminate Hvar.
    + intros Hdiff var v Hin. apply in_frame_calls_location in Hin.
      destruct Hin as [_ Hloc]. congruence.
  - intros Hpos. unfold time_upload.
    destruct (Z.leb_spec 0 (vars st uniform_gtime)) as [_ | Hlt]; [| lia].
    reflexivity.
Qed.

(** ** C10: a drain handles every pending event *)

Lemma fold_left_step_event_app (l1 l2 : list XEvent) (st : State) :
  fold_left step_event (l1 ++ l2) st =
    fold_left step_event l2 (fold_left step_event l1 st).
Proof. apply fold_left_app. Qed.

(** C10.  A drain returns; the state it leaves is the one obtained by
    handling every pending event in order, exit keys included; it answers
    "stop" ([false]) exactly when one of the events is an exit key; and a
    configure event anywhere in the queue, also behind an exit key, is given
    to [resize_viewport]. *)
Theorem process_events_drains_all (queue : list XEvent) (st : State) :
  process_events queue st =
    (Ret (negb (existsb is_exit_key queue)), fold_left step_event queue st)
  /\ (result (process_events queue) st = Ret false <->
      exists ev, In ev queue /\ is_exit_key ev = true)
  /\ (forall before after w h,
        queue = before ++ ConfigureNotify w h :: after ->
        exec (process_events queue) st =
          exec (process_events after)
            (exec (resize_viewport w h)
               (exec (process_events before) st))).
Proof.
  split; [apply process_events_run | split].
  - unfold result. rewrite process_events_run. cbn [fst].
    rewrite <- existsb_exists.
    destruct (existsb is_exit_key queue); simpl; split;
      intros H; first [reflexivity | discriminate H | congruence].
  - intros before after w h ->. unfold exec at 1 2 4.
    rewrite !process_events_run. cbn [snd].
    rewrite fold_left_step_event_app. simpl fold_left.
    unfold step_event at 2. unfold exec at 1.
    rewrite process_event_configure. reflexivity.
Qed.

Lemma process_events_drains_all_witness :
  new_calls initial_state
    (exec (process_events [KeyPress XK_q; ConfigureNotify 800 600])
          initial_state) =
    resize_calls initial_globals 800 600
  /\ result (process_events [KeyPress XK_q; ConfigureNotify 800 600])
            initial_state = Ret false.
Proof.
  destruct (process_events_drains_all
              [KeyPress XK_q; ConfigureNotify 800 600] initial_state)
    as (Hrun & Hstop & Hcfg).
  split.
  - rewrite (Hcfg [KeyPress XK_q] [] 800 600 eq_refl). reflexivity.
  - apply Hstop. exists (KeyPress XK_q). split; [left |]; reflexivity.
Defined.

(** ** The render loop *)

Lemma count_draws_frame_calls (vs : globals) (n : Z) :
  count_draws (frame_calls vs n) = 1%nat.
Proof. reflexivity. Qed.

Lemma not_teardown_app (l1 l2 : list Call) :
  forallb not_teardown (l1 ++ l2) =
    forallb not_teardown l1 && forallb not_teardown l2.
Proof. apply forallb_app. Qed.

Lemma not_teardown_resize (l : list Call) :
  forallb resize_call l = true -> forallb not_teardown l = true.
Proof. apply resize_call_no_teardown. Qed.

Lemma not_teardown_frame (vs : globals) (t : GLfloat) (n : Z) :
  forallb not_teardown (time_upload vs t ++ frame_calls vs n) = true.
Proof. unfold time_upload. destruct (0 <=? vs uniform_gtime); reflexivity. Qed.

(** Iterations that keep the loop running each draw once and hand the loop
    on to the rest of the world. *)
Lemma main_loop_continue (start : timespec) (before rest : list Iteration) :
  forall (cur : timespec) (st : State),
    Forall keeps_running before ->
    exists cur' vs' l,
      main_loop start cur (before ++ rest) st =
        main_loop start cur' rest {| vars := vs'; calls := calls st ++ l |}
      /\ count_draws l = List.length before
      /\ forallb not_teardown l = true.
Proof.
  induction before as [| it before IH]; intros cur st Hq.
  - exists cur, (vars st), []. rewrite app_nil_r, state_eta. auto.
  - inversion Hq as [| ? ? [Hkeys Hclock] Hrest]; subst.
    destruct (clock it) as [t |] eqn:Hclk; [| congruence].
    destruct (drained_frame (pending it) st) as (vs1 & l1 & H1 & _ & Hl1).
    cbn [app main_loop]. unfold bind at 1.
    rewrite process_events_run, Hkeys. cbn [negb].
    unfold bind at 1. rewrite render_run, H1. cbn [vars calls].
    unfold bind at 1. rewrite Hclk. unfold monotonic_time, ret at 1.
    match goal with
    | |- context [main_loop start t (before ++ rest) ?s] =>
        destruct (IH t s Hrest) as (cur' & vs' & l & Hrun & Hdraws & Hnt)
    end.
    rewrite Hrun. cbn [vars calls].
    exists cur', vs'. eexists. rewrite <- !app_assoc.
    split; [reflexivity | split].
    + rewrite !count_draws_app, (resize_call_no_draw _ Hl1),
        count_draws_time_upload, count_draws_frame_calls, Hdraws.
      reflexivity.
    + rewrite not_teardown_app, (not_teardown_resize _ Hl1).
      rewrite app_assoc, not_teardown_app, not_teardown_frame, Hnt.
      reflexivity.
Qed.

(** An iteration whose drain holds an exit key stops the loop without a
    frame, whatever follows. *)
Lemma main_loop_stop (start cur : timespec) (it : Iteration)
    (after : list Iteration) (st : State) :
  existsb is_exit_key (pending it) = true ->
  main_loop start cur (it :: after) st =
    (Ret STOPPED, fold_left step_event (pending it) st).
Proof.
  intros Hkey. cbn [main_loop]. unfold bind.
  rewrite process_events_run, Hkey. reflexivity.
Qed.

(** One iteration that keeps the loop running: drain, frame, clock. *)
Lemma main_loop_step (start cur : timespec) (it : Iteration)
    (world : list Iteration) (st : State) (t : timespec) :
  existsb is_exit_key (pending it) = false ->
  clock it = Some t ->
  main_loop start cur (it :: world) st =
    main_loop start t world
      (exec (render (float_of_double (timespec_diff start cur)))
            (fold_left step_event (pending it) st)).
Proof.
  intros Hk Hclk. cbn [main_loop]. unfold bind at 1.
  rewrite process_events_run, Hk. cbn [negb].
  unfold bind at 1, exec. rewrite render_run. cbn [snd].
  unfold bind at 1. rewrite Hclk. reflexivity.
Qed.

(** What follows the stopping iteration is never run. *)
Lemma main_loop_rest_not_run (start : timespec) (before : list Iteration)
    (it : Iteration) (after after' : list Iteration) :
  Forall keeps_running before ->
  existsb is_exit_key (pending it) = true ->
  forall (cur : timespec) (st : State),
    main_loop start cur (before ++ it :: after) st =
      main_loop start cur (before ++ it :: after') st.
Proof.
  intros Hq Hkey.
  induction Hq as [| i before' [Hk Hc] Hq' IH]; intros cur st.
  - cbn [app]. rewrite !main_loop_stop by assumption. reflexivity.
  - destruct (clock i) as [t |] eqn:Hclk; [| congruence].
    cbn [app]. rewrite !(main_loop_step start cur i _ st t Hk Hclk).
    apply IH.
Qed.

(** ** C5: leaving the loop *)

(** C5.  If the drains of the first iterations hold no exit key (and the
    clock keeps answering), and the drain of the next iteration holds a key
    press decoding to Escape or q, then the loop is still RUNNING after the
    first iterations, having drawn once in each, and is STOPPED by that next
    iteration, which draws nothing; the iterations after it are not run.
    A key press other than Escape and q, and an event that is neither a
    configure nor a key press, returns "continue" and leaves the state as it
    was. *)
Theorem loop_stops_on_exit_key (start cur : timespec)
    (before : list Iteration) (it : Iteration) (after : list Iteration)
    (st : State) :
  Forall keeps_running before ->
  existsb is_exit_key (pending it) = true ->
  result (main_loop start cur before) st = Ret RUNNING /\
  count_draws (new_calls st (exec (main_loop start cur before) st)) =
    List.length before /\
  result (main_loop start cur (before ++ it :: after)) st = Ret STOPPED /\
  count_draws
    (new_calls st (exec (main_loop start cur (before ++ it :: after)) st)) =
    List.length before /\
  main_loop start cur (before ++ it :: after) st =
    main_loop start cur (before ++ [it]) st /\
  (forall key s, key <> XK_Escape -> key <> XK_q ->
     process_event (KeyPress key) s = (Ret true, s)) /\
  (forall type s, process_event (OtherEvent type) s = (Ret true, s)).
Proof.
  intros Hq Hkey.
  destruct (main_loop_continue start before [] cur st Hq)
    as (c0 & vs0 & l0 & Hrun0 & Hdraws0 & _).
  rewrite app_nil_r in Hrun0.
  destruct (main_loop_continue start before (it :: after) cur st Hq)
    as (c1 & vs1 & l1 & Hrun1 & Hdraws1 & _).
  rewrite main_loop_stop in Hrun1 by assumption.
  match type of Hrun1 with
  | context [fold_left step_event (pending it) ?s] =>
      destruct (drained_frame (pending it) s) as (vs3 & l3 & H3 & _ & Hl3)
  end.
  rewrite H3 in Hrun1. cbn [calls] in Hrun1. rewrite <- app_assoc in Hrun1.
  split; [| split; [| split; [| split; [| split; [| split]]]]].
  - unfold result. rewrite Hrun0. reflexivity.
  - unfold exec. rewrite Hrun0. cbn [main_loop ret snd].
    rewrite new_calls_app. exact Hdraws0.
  - unfold result. rewrite Hrun1. reflexivity.
  - unfold exec. rewrite Hrun1. cbn [snd].
    rewrite new_calls_app, count_draws_app, Hdraws1,
      (resize_call_no_draw _ Hl3).
    apply Nat.add_0_r.
  - apply main_loop_rest_not_run; assumption.
  - intros key s Hesc Hqk. simpl.
    destruct (Z.eqb_spec key XK_Escape) as [E | _]; [contradiction |].
    destruct (Z.eqb_spec key XK_q) as [E | _]; [contradiction |].
    reflexivity.
  - reflexivity.
Qed.

(** ** Startup *)

(** Symbolic execution of a computation in hypothesis [H]: unfold the
    program, then decide the tests it is stuck on one at a time, dropping the
    branches that leave through [die]. *)
Ltac reduce_in H :=
  lazy beta iota zeta delta
    [startup compile_shader fragment_sources
     bind load store call call_status info when ret die
     vars calls fst snd] in H.

Ltac case_in H :=
  match type of H with
  | context [match ?c with _ => _ end] =>
      lazymatch c with
      | context [match _ with _ => _ end] => fail
      | _ => destruct c eqn:?; reduce_in H; try discriminate H
      end
  end.

Lemma substring_strlen (s : string) :
  strlen s = String.length s -> substring 0 (strlen s) s = s.
Proof.
  induction s as [| c s IH]; simpl; [reflexivity |].
  destruct (Ascii.eqb c zero); [discriminate |].
  intros H. injection H as H. rewrite (IH H). reflexivity.
Qed.

Lemma string_app_nil_r (a : string) : (a ++ EmptyString = a)%string.
Proof. induction a as [| x a IH]; simpl; [| rewrite IH]; reflexivity. Qed.

(** A length below 2^32 reaches the driver as itself or, from 2^31 on, as a
    negative [GLsizei]. *)
Lemma wrap_int_length (n : Z) :
  0 <= n < 2 ^ 32 -> wrap_int n = n \/ wrap_int n < 0.
Proof.
  intros Hn. unfold wrap_int, wrap.
  change (2 ^ (32 - 1)) with 2147483648. change (2 ^ 32) with 4294967296 in *.
  destruct (Z.lt_ge_cases n 2147483648) as [Hlt | Hge].
  - left. rewrite Z.mod_small; lia.
  - right.
    assert (E : (n + 2147483648) mod 4294967296 = n - 2147483648)
      by (symmetry; apply Z.mod_unique with 1; lia).
    rewrite E. lia.
Qed.

(** A C string shorter than 2^32 bytes is taken whole. *)
Lemma taken_whole (s : string) :
  strlen s = String.length s ->
  Z.of_nat (String.length s) < 2 ^ 32 ->
  substring 0 (taken s) s = s.
Proof.
  intros Hs Hlen. unfold taken.
  destruct (wrap_int_length (Z.of_nat (strlen s))) as [E | E];
    [rewrite Hs; lia | |].
  - rewrite E.
    destruct (Z.ltb_spec (Z.of_nat (strlen s)) 0) as [Hneg | _]; [lia |].
    rewrite Nat2Z.id. apply substring_strlen, Hs.
  - destruct (Z.ltb_spec (wrap_int (Z.of_nat (strlen s))) 0) as [_ | Hge];
      [| lia].
    apply substring_strlen, Hs.
Qed.

Lemma stage_text_cons (s : string) (sources : list string) :
  stage_text (s :: sources) =
    (substring 0 (taken s) s ++ stage_text sources)%string.
Proof. reflexivity. Qed.

Lemma fragment_text (body : string) :
  strlen body = String.length body ->
  Z.of_nat (String.length body) < 2 ^ 32 ->
  stage_text (fragment_sources body) =
    (common_shader_header ++ fragment_shader_header ++ body
       ++ fragment_shader_footer)%string.
Proof.
  intros Hbody Hlen. unfold fragment_sources.
  rewrite !stage_text_cons, (taken_whole body Hbody Hlen).
  change (substring 0 (taken common_shader_header) common_shader_header)
    with common_shader_header.
  change (substring 0 (taken fragment_shader_header) fragment_shader_header)
    with fragment_shader_header.
  change (substring 0 (taken fragment_shader_footer) fragment_shader_footer)
    with fragment_shader_footer.
  change (stage_text []) with EmptyString.
  rewrite string_app_nil_r. reflexivity.
Qed.

Lemma pair_snd_eq {A B : Type} (a a' : A) (b b' : B) :
  (a, b) = (a', b') -> b = b'.
Proof. intros H. exact (f_equal snd H). Qed.

Lemma resize_call_no_create_window (l : list Call) :
  forallb resize_call l = true -> filter is_create_window l = [].
Proof.
  induction l as [| c l IH]; [reflexivity |].
  cbn [forallb]. intros H. apply andb_true_iff in H as [Hc Hl].
  destruct c; try discriminate Hc; cbn [filter is_create_window]; auto.
Qed.

Lemma resize_call_no_shader_source (l : list Call) :
  forallb resize_call l = true -> filter is_shader_source l = [].
Proof.
  induction l as [| c l IH]; [reflexivity |].
  cbn [forallb]. intros H. apply andb_true_iff in H as [Hc Hl].
  destruct c; try discriminate Hc; cbn [filter is_shader_source]; auto.
Qed.

(** What a successful [startup] has logged. *)
Lemma startup_success (env : Env) (body : string) (width height : Z)
    (fullscreen : bool) (st st' : State) :
  startup env body width height fullscreen st = (Ret tt, st') ->
  exists l,
    calls st' = calls st ++ l
    /\ forallb not_teardown l = true
    /\ filter is_create_window l =
         [XCreateWindow
            (to_uint (if fullscreen then env_DisplayWidth env else width))
            (to_uint (if fullscreen then env_DisplayHeight env else height))]
    /\ filter is_shader_source l =
         [GlShaderSource (env_glCreateShader env GL_VERTEX_SHADER)
            (stage_text [common_shader_header; vertex_shader_body]);
          GlShaderSource (env_glCreateShader env GL_FRAGMENT_SHADER)
            (stage_text (fragment_sources body))]
    /\ vars st' frames = vars st frames.
Proof.
  intros H. destruct st as [v0 l0].
  reduce_in H. repeat case_in H.
  all: match type of H with
       | resize_viewport ?gw ?gh ?s = _ =>
           destruct (resize_viewport_frame gw gh s)
             as (vs' & l & Hrun & Hvs & Hl)
       end.
  all: rewrite Hrun in H; apply pair_snd_eq in H; subst st'.
  all: lazy beta iota delta [vars calls] in Hvs |- *.
  all: eexists; rewrite <- !app_assoc; cbn [app].
  all: split; [reflexivity |].
  all: split;
    [ cbn [forallb not_teardown is_teardown negb andb];
      apply not_teardown_resize; exact Hl |].
  all: split;
    [ cbn [filter is_create_window];
      rewrite (resize_call_no_create_window _ Hl); reflexivity |].
  all: split;
    [ cbn [filter is_shader_source];
      rewrite (resize_call_no_shader_source _ Hl); reflexivity |].
  all: rewrite (Hvs frames) by discriminate;
    repeat (rewrite upd_other by discriminate); reflexivity.
Qed.

(** ** C7: the assembled fragment source *)

(** Whether or not the stage compiles, [compile_shader] hands the driver the
    text of its sources. *)
Lemma compile_shader_logs_text (env : Env) (type : GLenum)
    (sources : list string) (st : State) :
  In (GlShaderSource (env_glCreateShader env type) (stage_text sources))
     (new_calls st (exec (compile_shader env type sources) st)).
Proof.
  unfold compile_shader. run.
  destruct (env_compile_status env _ _); cbn [negb]; run.
  - rewrite <- !app_assoc, new_calls_app. simpl. auto.
  - destruct (1 <? info_log_length _); run;
      rewrite <- !app_assoc, new_calls_app; simpl; auto.
Qed.

(** C7, as amended.  For a fragment body that is a C string (no NUL inside
    the buffer handed over) of fewer than 2^32 bytes, the text given to the
    driver for the fragment stage is the common header, the uniform block,
    the body and the footer, in that order and with nothing else; every
    [startup] that returns has handed the driver exactly that text for the
    fragment stage, once, after the text of the vertex stage, and so does
    [compile_shader] on the fragment sources whether or not they compile.
    The header opens with the version directive and the precision
    declaration and the footer's [main] calls [mainImage].  (The lengths are
    handed over as [GLsizei]: a length from 2^31 on arrives negative, which
    the driver reads as up to the NUL.) *)
Theorem fragment_source_assembly (env : Env) (body : string)
    (width height : Z) (fullscreen : bool) (st st' : State) :
  strlen body = String.length body ->
  Z.of_nat (String.length body) < 2 ^ 32 ->
  startup env body width height fullscreen st = (Ret tt, st') ->
  let text := (common_shader_header ++ fragment_shader_header ++ body
                 ++ fragment_shader_footer)%string in
  stage_text (fragment_sources body) = text /\
  In (GlShaderSource (env_glCreateShader env GL_FRAGMENT_SHADER) text)
     (new_calls st st') /\
  filter is_shader_source (new_calls st st') =
    [GlShaderSource (env_glCreateShader env GL_VERTEX_SHADER)
       (common_shader_header ++ vertex_shader_body);
     GlShaderSource (env_glCreateShader env GL_FRAGMENT_SHADER) text] /\
  (forall s,
     In (GlShaderSource (env_glCreateShader env GL_FRAGMENT_SHADER) text)
        (new_calls s
           (exec (compile_shader env GL_FRAGMENT_SHADER
                    (fragment_sources body)) s))) /\
  common_shader_header =
    ("#version 100" ++ nl ++ "precision highp float;")%string /\
  fragment_shader_footer =
    (nl ++ "void main(){mainImage(gl_FragColor,gl_FragCoord.xy);}")%string.
Proof.
  intros Hbody Hlen Hrun text.
  destruct (startup_success _ _ _ _ _ _ _ Hrun)
    as (l & Hcalls & _ & _ & Hsrc & _).
  rewrite (fragment_text body Hbody Hlen) in Hsrc. fold text in Hsrc.
  change (stage_text [common_shader_header; vertex_shader_body])
    with (common_shader_header ++ vertex_shader_body)%string in Hsrc.
  rewrite (new_calls_of_app _ _ _ Hcalls).
  split; [apply fragment_text; assumption |].
  split; [| split; [exact Hsrc | split; [| split; reflexivity]]].
  - apply (proj1 (filter_In is_shader_source _ l)).
    rewrite Hsrc. right. left. reflexivity.
  - intros s. subst text. rewrite <- (fragment_text body Hbody Hlen).
    apply compile_shader_logs_text.
Qed.

Lemma fragment_source_assembly_witness :
  In (GlShaderSource 2
        (common_shader_header ++ fragment_shader_header ++ red_body
           ++ fragment_shader_footer)%string)
     (new_calls initial_state
        (exec (startup (desktop every_stage no_uniforms (640, 360))
                 red_body 640 360 false) initial_state)).
Proof.
  apply (fragment_source_assembly
           (desktop every_stage no_uniforms (640, 360)) red_body
           640 360 false initial_state
           (exec (startup (desktop every_stage no_uniforms (640, 360))
                    red_body 640 360 false) initial_state)).
  - reflexivity.
  - vm_compute. reflexivity.
  - vm_compute. reflexivity.
Defined.

(** ** C8: the size of the window *)

(** C8.  A [startup] that returns has created exactly one window.  With the
    fullscreen flag set its size is the display's width and height, whatever
    width and height were requested; without the flag it is the requested
    width and height.  (All four are positive [int]s.) *)
Theorem window_size_fullscreen_override (env : Env) (body : string)
    (width height : Z) (fullscreen : bool) (st st' : State) :
  0 < width <= INT_MAX -> 0 < height <= INT_MAX ->
  0 < env_DisplayWidth env <= INT_MAX ->
  0 < env_DisplayHeight env <= INT_MAX ->
  startup env body width height fullscreen st = (Ret tt, st') ->
  filter is_create_window (new_calls st st') =
    [ if fullscreen
      then XCreateWindow (env_DisplayWidth env) (env_DisplayHeight env)
      else XCreateWindow width height ].
Proof.
  unfold INT_MAX. change (2 ^ 31 - 1) with 2147483647.
  intros Hw Hh Hdw Hdh Hrun.
  destruct (startup_success _ _ _ _ _ _ _ Hrun)
    as (l & Hcalls & _ & Hwin & _).
  rewrite (new_calls_of_app _ _ _ Hcalls), Hwin. unfold to_uint.
  change (2 ^ 32) with 4294967296.
  destruct fullscreen; rewrite !Z.mod_small by lia; reflexivity.
Qed.

Lemma window_size_fullscreen_override_witness :
  filter is_create_window
    (new_calls initial_state
       (exec (startup (desktop every_stage no_uniforms (1920, 1080))
                red_body 640 360 true) initial_state)) =
    [XCreateWindow 1920 1080].
Proof.
  apply (window_size_fullscreen_override
           (desktop every_stage no_uniforms (1920, 1080)) red_body
           640 360 true initial_state
           (exec (startup (desktop every_stage no_uniforms (1920, 1080))
                    red_body 640 360 true) initial_state)).
  - unfold INT_MAX. simpl. lia.
  - unfold INT_MAX. simpl. lia.
  - unfold INT_MAX. simpl. lia.
  - unfold INT_MAX. simpl. lia.
  - vm_compute. reflexivity.
Defined.

(** ** C9: teardown *)



Lemma shutdown_run (status : Call -> bool) (st : State) :
  shutdown status st =
    (Ret tt,
     {| vars := vars st; calls := calls st ++ teardown_calls (vars st) |}).
Proof. unfold shutdown, teardown_calls. run. reassoc. reflexivity. Qed.

(** However the loop ends, it has logged no teardown call. *)
Lemma main_loop_log (start : timespec) (world : list Iteration) :
  forall (cur : timespec) (st : State),
  exists l,
    calls (exec (main_loop start cur world) st) = calls st ++ l
    /\ forallb not_teardown l = true.
Proof.
  induction world as [| it world IH]; intros cur st.
  - exists []. unfold exec. simpl. rewrite app_nil_r. auto.
  - unfold exec. cbn [main_loop]. unfold bind at 1.
    rewrite process_events_run.
    destruct (drained_frame (pending it) st) as (vs1 & l1 & H1 & _ & Hl1).
    rewrite H1.
    destruct (existsb is_exit_key (pending it)); cbn [negb].
    + exists l1. split; [reflexivity | apply not_teardown_resize; exact Hl1].
    + unfold bind at 1. rewrite render_run. cbn [vars calls].
      unfold bind at 1.
      destruct (clock it) as [t |]; unfold monotonic_time.
      * unfold ret at 1.
        match goal with
        | |- context [main_loop start t world ?s] =>
            destruct (IH t s) as (l & Hl & Hnt)
        end.
        unfold exec in Hl. cbn [calls] in Hl.
        eexists. rewrite Hl, <- !app_assoc. split; [reflexivity |].
        rewrite not_teardown_app, (not_teardown_resize _ Hl1).
        rewrite app_assoc, not_teardown_app, not_teardown_frame, Hnt.
        reflexivity.
      * unfold die. cbn [snd calls].
        eexists. rewrite <- !app_assoc. split; [reflexivity |].
        rewrite not_teardown_app, (not_teardown_resize _ Hl1).
        rewrite app_assoc, not_teardown_app, not_teardown_frame.
        reflexivity.
Qed.




(** ** Witnesses for C5 and C6 *)

Lemma loop_stops_on_exit_key_witness :
  let world := iterations (two_frames_then_q
                 (desktop every_stage all_uniforms (640, 360))
                 (mk_timespec 0 0)) in
  result (main_loop (mk_timespec 100 0) (mk_timespec 0 0) world)
         initial_state = Ret STOPPED
  /\ count_draws
       (new_calls initial_state
          (exec (main_loop (mk_timespec 100 0) (mk_timespec 0 0) world)
                initial_state)) = 2%nat.
Proof.
  destruct (loop_stops_on_exit_key (mk_timespec 100 0) (mk_timespec 0 0)
              [ mk_Iteration [ConfigureNotify 800 600; KeyPress 32]
                             (Some (mk_timespec 100 16000000));
                mk_Iteration [] (Some (mk_timespec 100 33000000)) ]
              (mk_Iteration
                 [OtherEvent 12; KeyPress XK_q; ConfigureNotify 640 360] None)
              [mk_Iteration [] None]
              initial_state)
    as (_ & _ & Hstop & Hdraws & _).
  - repeat constructor; discriminate.
  - reflexivity.
  - split; [exact Hstop | exact Hdraws].
Defined.

Lemma render_time_upload_guarded_witness :
  new_calls initial_state
    (exec (render (5 # 2))
       {| vars := upd uniform_gtime (-1) initial_globals; calls := [] |}) =
    frame_calls (upd uniform_gtime (-1) initial_globals) 1
  /\ new_calls initial_state
       (exec (render (5 # 2))
          {| vars := upd uniform_gtime 1 initial_globals; calls := [] |}) =
       GlUniform1f uniform_gtime 1 (5 # 2)
         :: frame_calls (upd uniform_gtime 1 initial_globals) 1.
Proof.
  split.
  - apply (render_time_upload_guarded (5 # 2)
             {| vars := upd uniform_gtime (-1) initial_globals; calls := [] |}).
    reflexivity.
  - apply (render_time_upload_guarded (5 # 2)
             {| vars := upd uniform_gtime 1 initial_globals; calls := [] |}).
    discriminate.
Defined.

(** ** C3: uploads to absent uniforms *)

(** C3 fails on the code.  With a shader that uses no uniform every location
    is -1; only the elapsed-time upload is guarded, and the resolution and
    frame-counter uploads are still issued, at location -1: once for each
    resize that applies and once for each frame. *)
Theorem absent_uniforms_still_uploaded :
  let st' := exec (main 640 360 false red_body
                     (two_frames_then_q
                        (desktop every_stage no_uniforms (640, 360))
                        (mk_timespec 0 0)))
                  initial_state in
  vars st' uniform_res = -1 /\ vars st' uniform_frame = -1 /\
  vars st' uniform_gtime = -1 /\
  filter is_uniform_upload (calls st') =
    [ GlUniform3f uniform_res (-1) 640%Q 360%Q 0%Q;
      GlUniform3f uniform_res (-1) 800%Q 600%Q 0%Q;
      GlUniform1f uniform_frame (-1) 1%Q;
      GlUniform1f uniform_frame (-1) 2%Q;
      GlUniform3f uniform_res (-1) 640%Q 360%Q 0%Q ].
Proof. vm_compute. repeat split. Qed.

(** ** C4: the elapsed time *)

(** C4 fails on the code.  The first frame is rendered before [cur] has been
    sampled, so its elapsed time is computed from whatever the uninitialised
    [cur] holds.  With the clock at 100 s and [cur] holding zeros the first
    frame uploads -100 s; with [cur] holding 1000 s it uploads 900 s, and the
    second frame, 16 ms after the start, uploads less than the first (0.016
    as a [double], converted to [float]: 8589935 / 2^29). *)
Theorem first_frame_elapsed_time_indeterminate :
  let uploads garbage :=
        time_uploads
          (calls (exec (main 640 360 false red_body
                          (two_frames_then_q
                             (desktop every_stage all_uniforms (640, 360))
                             garbage))
                       initial_state)) in
  Forall2 Qeq (uploads (mk_timespec 0 0))
          [(-100)%Q; (8589935 # 536870912)%Q] /\
  Forall2 Qeq (uploads (mk_timespec 1000 0))
          [900%Q; (8589935 # 536870912)%Q].
Proof.
  split; vm_compute; repeat constructor.
Qed.

(** ** The elapsed time from the second frame on *)

Lemma wrap_long_small (x : Z) : - 2 ^ 63 <= x < 2 ^ 63 -> wrap_long x = x.
Proof.
  intros Hx. unfold wrap_long, wrap.
  change (2 ^ (64 - 1)) with 9223372036854775808.
  change (2 ^ 64) with 18446744073709551616.
  change (2 ^ 63) with 9223372036854775808 in Hx.
  rewrite Z.mod_small; lia.
Qed.

Lemma seconds_and_nanoseconds (s n : Z) :
  (inject_Z s + inject_Z n / inject_Z 1000000000 ==
   (s * 1000000000 + n) # 1000000000)%Q.
Proof.
  unfold Qeq, Qdiv, Qmult, Qplus, Qinv, inject_Z. cbn [Qnum Qden].
  rewrite !Pos.mul_1_l. lia.
Qed.

Lemma to_double_le (x y : Q) : (x <= y)%Q -> (to_double x <= to_double y)%Q.
Proof. apply round_binary_le; lia. Qed.

Lemma to_double_comp (x y : Q) : (x == y)%Q -> (to_double x == to_double y)%Q.
Proof. apply round_binary_comp; lia. Qed.

Lemma to_double_Z (z : Z) :
  Z.abs z < 2 ^ 53 -> (to_double (inject_Z z) == inject_Z z)%Q.
Proof. apply round_binary_Z; lia. Qed.

Lemma float_of_double_le (x y : Q) :
  (x <= y)%Q -> (float_of_double x <= float_of_double y)%Q.
Proof. apply round_binary_le; lia. Qed.

Lemma float_of_double_nonneg (x : Q) :
  (0 <= x)%Q -> (0 <= float_of_double x)%Q.
Proof.
  intros H.
  rewrite <- (round_binary_Z 24 149 ltac:(lia) ltac:(lia) 0 ltac:(reflexivity)).
  apply float_of_double_le, H.
Qed.

(** On clock readings the subtraction does not wrap, and the difference is
    [s] whole seconds and [n] nanoseconds, both held exactly. *)
Lemma timespec_diff_parts (start stop : timespec) :
  clock_reading start -> clock_reading stop ->
  exists s n : Z,
    - 2 ^ 52 <= s < 2 ^ 52 /\ 0 <= n < 1000000000 /\
    s * 1000000000 + n = nanoseconds stop - nanoseconds start /\
    (timespec_diff start stop ==
     to_double (inject_Z s + to_double (inject_Z n / 1000000000)))%Q.
Proof.
  unfold clock_reading, nanoseconds. change (2 ^ 52) with 4503599627370496.
  intros [Hs Hn] [Hs' Hn'].
  assert (Hval : forall s n : Z,
            - 4503599627370496 <= s < 4503599627370496 ->
            0 <= n < 1000000000 ->
            (double_add (double_of_long s)
               (double_div (double_of_long n) 1000000000)
             == to_double (inject_Z s
                           + to_double (inject_Z n / 1000000000)))%Q).
  { intros s n Hs0 Hn0. unfold double_add, double_div, double_of_long.
    apply to_double_comp.
    rewrite (to_double_Z s) by (change (2 ^ 53) with 9007199254740992; lia).
    apply Qplus_comp; [reflexivity |].
    apply to_double_comp.
    rewrite (to_double_Z n) by (change (2 ^ 53) with 9007199254740992; lia).
    reflexivity. }
  unfold timespec_diff.
  assert (B63 : 2 ^ 63 = 9223372036854775808) by reflexivity.
  rewrite (wrap_long_small (tv_nsec stop - tv_nsec start)) by lia.
  rewrite (wrap_long_small (tv_sec stop - tv_sec start)) by lia.
  destruct (Z.ltb_spec (tv_nsec stop - tv_nsec start) 0) as [Hlt | Hge];
    cbn [tv_sec tv_nsec].
  - rewrite !wrap_long_small by lia.
    exists (tv_sec stop - tv_sec start - 1),
           (tv_nsec stop - tv_nsec start + 1000000000).
    split; [lia | split; [lia | split; [lia |]]].
    apply Hval; lia.
  - exists (tv_sec stop - tv_sec start), (tv_nsec stop - tv_nsec start).
    split; [lia | split; [lia | split; [lia |]]].
    apply Hval; lia.
Qed.

Lemma to_double_0 : (to_double 0 == 0)%Q.
Proof. apply (to_double_Z 0). reflexivity. Qed.

Lemma to_double_nonneg (x : Q) : (0 <= x)%Q -> (0 <= to_double x)%Q.
Proof. intros H. rewrite <- to_double_0. apply to_double_le, H. Qed.

(** The fraction of a second: a double between 0 and 1 - 2^-30. *)
Lemma fraction_bounds (n : Z) :
  0 <= n < 1000000000 ->
  (0 <= to_double (inject_Z n / 1000000000)
   <= 1073741823 # 1073741824)%Q.
Proof.
  intros Hn.
  assert (Hq : (0 <= inject_Z n / 1000000000 <= 1073741823 # 1073741824)%Q).
  { unfold Qdiv, Qmult, Qinv, Qle, inject_Z. cbn [Qnum Qden]. lia. }
  split; [apply to_double_nonneg, Hq |].
  assert (E : (to_double (1073741823 # 1073741824)
               == 1073741823 # 1073741824)%Q).
  { assert (R : (1073741823 # 1073741824 ==
                 inject_Z (1073741823 * 2 ^ 1044) / inject_Z (2 ^ 1074))%Q)
      by (unfold Qeq; vm_compute; reflexivity).
    rewrite (to_double_comp _ _ R), R.
    apply round_binary_exact; [lia | lia | reflexivity | lia]. }
  rewrite <- E. apply to_double_le, Hq.
Qed.

Lemma fraction_le (n m : Z) :
  n <= m ->
  (to_double (inject_Z n / 1000000000)
   <= to_double (inject_Z m / 1000000000))%Q.
Proof.
  intros H. apply to_double_le.
  unfold Qdiv, Qmult, Qinv, Qle, inject_Z. cbn [Qnum Qden]. lia.
Qed.

(** Seconds and nanoseconds compare as the nanoseconds they stand for. *)
Lemma seconds_fraction_le (s n s' n' : Z) :
  0 <= n < 1000000000 -> 0 <= n' < 1000000000 ->
  s * 1000000000 + n <= s' * 1000000000 + n' ->
  (inject_Z s + to_double (inject_Z n / 1000000000)
   <= inject_Z s' + to_double (inject_Z n' / 1000000000))%Q.
Proof.
  intros Hn Hn' Hle.
  pose proof (fraction_bounds n Hn) as [_ Hu].
  pose proof (fraction_bounds n' Hn') as [Hl' _].
  destruct (Z.eq_dec s s') as [-> | Hne].
  - apply Qplus_le_r, fraction_le. lia.
  - assert (Hs : s + 1 <= s') by lia.
    rewrite Zle_Qle, inject_Z_plus in Hs. change (inject_Z 1) with 1%Q in Hs.
    set (f := to_double (inject_Z n / 1000000000)) in *.
    set (f' := to_double (inject_Z n' / 1000000000)) in *.
    set (a := inject_Z s) in *. set (b := inject_Z s') in *.
    assert (Hf : (f <= 1)%Q)
      by (apply Qle_trans with (1073741823 # 1073741824)%Q;
          [exact Hu | unfold Qle; cbn; lia]).
    lra.
Qed.

Lemma timespec_diff_monotone (start a b : timespec) :
  clock_reading start -> clock_reading a -> clock_reading b ->
  not_before a b ->
  (timespec_diff start a <= timespec_diff start b)%Q.
Proof.
  intros Hs Ha Hb Hab.
  destruct (timespec_diff_parts start a Hs Ha) as (s & n & _ & Hn & Hsn & ->).
  destruct (timespec_diff_parts start b Hs Hb)
    as (s' & n' & _ & Hn' & Hsn' & ->).
  apply to_double_le, seconds_fraction_le; try assumption.
  unfold not_before in Hab. lia.
Qed.

Lemma timespec_diff_nonneg (start a : timespec) :
  clock_reading start -> clock_reading a -> not_before start a ->
  (0 <= timespec_diff start a)%Q.
Proof.
  intros Hs Ha Hsa.
  destruct (timespec_diff_parts start a Hs Ha) as (s & n & _ & Hn & Hsn & ->).
  apply to_double_nonneg.
  pose proof (fraction_bounds n Hn) as [Hl _].
  assert (H0 : 0 <= s) by (unfold not_before in Hsa; lia).
  rewrite Zle_Qle in H0. change (inject_Z 0) with 0%Q in H0.
  set (f := to_double (inject_Z n / 1000000000)) in *.
  set (x := inject_Z s) in *. lra.
Qed.

Lemma timespec_diff_negative (start a : timespec) :
  clock_reading start -> clock_reading a -> ~ not_before start a ->
  (timespec_diff start a < 0)%Q.
Proof.
  intros Hs Ha Hsa.
  destruct (timespec_diff_parts start a Hs Ha) as (s & n & _ & Hn & Hsn & ->).
  pose proof (fraction_bounds n Hn) as [_ Hu].
  assert (H0 : s + 1 <= 0) by (unfold not_before in Hsa; lia).
  rewrite Zle_Qle, inject_Z_plus in H0.
  change (inject_Z 1) with 1%Q in H0. change (inject_Z 0) with 0%Q in H0.
  assert (E : (to_double (- (1 # 1073741824)) == - (1 # 1073741824))%Q).
  { assert (R : (- (1 # 1073741824) ==
                 inject_Z (-1 * 2 ^ 1044) / inject_Z (2 ^ 1074))%Q)
      by (unfold Qeq; vm_compute; reflexivity).
    rewrite (to_double_comp _ _ R), R.
    apply round_binary_exact; [lia | lia | reflexivity | lia]. }
  apply Qle_lt_trans with (- (1 # 1073741824))%Q; [| reflexivity].
  rewrite <- E. apply to_double_le.
  set (f := to_double (inject_Z n / 1000000000)) in *.
  set (x := inject_Z s) in *. lra.
Qed.

Lemma timespec_diff_same (a : timespec) :
  clock_reading a -> (timespec_diff a a == 0)%Q.
Proof.
  intros Ha. apply Qle_antisym.
  - rewrite <- (Qopp_involutive (timespec_diff a a)).
    destruct (timespec_diff_parts a a Ha Ha) as (s & n & _ & Hn & Hsn & ->).
    assert (s = 0 /\ n = 0) as [-> ->] by lia.
    assert (E : (inject_Z 0 + to_double (inject_Z 0 / 1000000000) == 0)%Q).
    { rewrite (to_double_comp (inject_Z 0 / 1000000000) 0) by reflexivity.
      rewrite to_double_0. reflexivity. }
    rewrite (to_double_comp _ _ E), to_double_0. discriminate.
  - apply timespec_diff_nonneg; try assumption. unfold not_before. lia.
Qed.

Lemma to_double_error (q : Q) :
  (Qabs (to_double q - q)
   <= Qabs q * (1 # 9007199254740992) + (1 # 2) / inject_Z (2 ^ 1074))%Q.
Proof.
  apply (round_binary_error_bound 53 1074); lia.
Qed.

(** [timespec_diff] is off by at most two roundings. *)
Lemma timespec_diff_error (start stop : timespec) :
  clock_reading start -> clock_reading stop ->
  let elapsed := ((nanoseconds stop - nanoseconds start) # 1000000000)%Q in
  (Qabs (timespec_diff start stop - elapsed)
   <= (Qabs elapsed + 2) * (1 # 9007199254740992))%Q.
Proof.
  intros Hs Ht elapsed. subst elapsed.
  destruct (timespec_diff_parts start stop Hs Ht)
    as (s & n & _ & Hn & Hsn & ->).
  rewrite <- Hsn, <- seconds_and_nanoseconds.
  change (inject_Z 1000000000) with 1000000000%Q.
  pose proof (to_double_error (inject_Z n / 1000000000)) as Hf.
  pose proof (to_double_error
                (inject_Z s + to_double (inject_Z n / 1000000000))) as Hy.
  assert (Hx : (0 <= inject_Z n / 1000000000 <= 1)%Q)
    by (unfold Qdiv, Qmult, Qinv, Qle, inject_Z; cbn [Qnum Qden]; lia).
  rewrite (Qabs_pos (inject_Z n / 1000000000)) in Hf by apply Hx.
  assert (Hv : (0 <= (1 # 2) / inject_Z (2 ^ 1074)
                <= 1 # 1152921504606846976)%Q)
    by (split; unfold Qle; vm_compute; discriminate).
  set (v := ((1 # 2) / inject_Z (2 ^ 1074))%Q) in *.
  set (x := (inject_Z n / 1000000000)%Q) in *.
  set (f := to_double x) in *.
  set (a := inject_Z s) in *.
  set (r := to_double (a + f)) in *.
  apply Qabs_Qle_condition in Hf. apply Qabs_Qle_condition.
  pose proof (Qabs_nonneg (a + x)) as HA0.
  pose proof (Qle_Qabs (a + x)) as HA1.
  pose proof (Qle_Qabs (- (a + x))) as HA2. rewrite Qabs_opp in HA2.
  set (A := Qabs (a + x)) in *.
  assert (HAy : (Qabs (a + f)
                 <= A + (1 # 9007199254740992) + (1 # 1152921504606846976))%Q)
    by (apply Qabs_Qle_condition; lra).
  apply Qabs_Qle_condition in Hy.
  set (Ay := Qabs (a + f)) in *.
  lra.
Qed.

Lemma wrap_long_range (x : Z) : - 2 ^ 63 <= wrap_long x < 2 ^ 63.
Proof.
  unfold wrap_long, wrap.
  change (2 ^ (64 - 1)) with 9223372036854775808.
  change (2 ^ 64) with 18446744073709551616.
  change (2 ^ 63) with 9223372036854775808.
  pose proof (Z.mod_pos_bound (x + 9223372036854775808) 18446744073709551616).
  lia.
Qed.

Lemma to_double_scaled_Z (m k : Z) :
  Z.abs m < 2 ^ 53 -> 0 <= k ->
  (to_double (inject_Z (m * 2 ^ k)) == inject_Z (m * 2 ^ k))%Q.
Proof. apply round_binary_scaled_Z; lia. Qed.

Lemma to_double_within (x : Q) (k : Z) :
  0 <= k ->
  (- inject_Z (2 ^ k) <= x <= inject_Z (2 ^ k))%Q ->
  (- inject_Z (2 ^ k) <= to_double x <= inject_Z (2 ^ k))%Q.
Proof.
  intros Hk [Hl Hu].
  pose proof (to_double_scaled_Z 1 k ltac:(reflexivity) Hk) as E1.
  pose proof (to_double_scaled_Z (-1) k ltac:(reflexivity) Hk) as E2.
  rewrite Z.mul_1_l in E1.
  replace (-1 * 2 ^ k) with (- 2 ^ k) in E2 by ring.
  rewrite inject_Z_opp in E2.
  rewrite <- E1 at 2. rewrite <- E2.
  split; apply to_double_le; assumption.
Qed.

(** Whatever the readings, the result is far from the largest finite
    [double], and its conversion far from the largest finite [float]: no
    operation of [timespec_diff] overflows. *)
Lemma timespec_diff_in_range (start stop : timespec) :
  (Qabs (timespec_diff start stop) <= inject_Z (2 ^ 64))%Q /\
  (Qabs (float_of_double (timespec_diff start stop)) <= inject_Z (2 ^ 64))%Q.
Proof.
  assert (Hd : forall s n : Z,
            - 2 ^ 63 <= s < 2 ^ 63 -> - 2 ^ 63 <= n < 2 ^ 63 ->
            (- inject_Z (2 ^ 64)
             <= double_add (double_of_long s)
                  (double_div (double_of_long n) 1000000000)
             <= inject_Z (2 ^ 64))%Q).
  { intros s n Hs Hn. unfold double_add, double_div, double_of_long.
    assert (Hbound : forall z, - 2 ^ 63 <= z < 2 ^ 63 ->
              (- inject_Z (2 ^ 63) <= to_double (inject_Z z)
               <= inject_Z (2 ^ 63))%Q).
    { intros z Hz. apply to_double_within; [lia |].
      rewrite <- inject_Z_opp, <- !Zle_Qle. lia. }
    pose proof (Hbound s Hs) as Hs'. pose proof (Hbound n Hn) as Hn'.
    set (a := to_double (inject_Z s)) in *.
    set (b := to_double (inject_Z n)) in *.
    assert (Hq : (- inject_Z (2 ^ 34) <= to_double (b / 1000000000)
                  <= inject_Z (2 ^ 34))%Q).
    { apply to_double_within; [lia |].
      change (inject_Z (2 ^ 63)) with 9223372036854775808%Q in Hn'.
      change (inject_Z (2 ^ 34)) with 17179869184%Q.
      split.
      - apply Qle_shift_div_l; [reflexivity | lra].
      - apply Qle_shift_div_r; [reflexivity | lra]. }
    apply to_double_within; [lia |].
    change (inject_Z (2 ^ 63)) with 9223372036854775808%Q in Hs'.
    change (inject_Z (2 ^ 34)) with 17179869184%Q in Hq.
    change (inject_Z (2 ^ 64)) with 18446744073709551616%Q.
    lra. }
  assert (Hr : (- inject_Z (2 ^ 64) <= timespec_diff start stop
                <= inject_Z (2 ^ 64))%Q).
  { unfold timespec_diff.
    destruct (wrap_long (tv_nsec stop - tv_nsec start) <? 0);
      cbn [tv_sec tv_nsec]; apply Hd; apply wrap_long_range. }
  split; [apply Qabs_Qle_condition, Hr |].
  apply Qabs_Qle_condition.
  pose proof (round_binary_scaled_Z 24 149 ltac:(lia) ltac:(lia) 1 64
                ltac:(reflexivity) ltac:(lia)) as E1.
  pose proof (round_binary_scaled_Z 24 149 ltac:(lia) ltac:(lia) (-1) 64
                ltac:(reflexivity) ltac:(lia)) as E2.
  change (inject_Z (1 * 2 ^ 64)) with (inject_Z (2 ^ 64)) in E1.
  change (inject_Z (-1 * 2 ^ 64)) with (- inject_Z (2 ^ 64))%Q in E2.
  fold float_of_double in E1, E2.
  rewrite <- E1 at 2. rewrite <- E2.
  split; apply float_of_double_le; apply Hr.
Qed.

Lemma time_uploads_app (l1 l2 : list Call) :
  time_uploads (l1 ++ l2) = time_uploads l1 ++ time_uploads l2.
Proof. unfold time_uploads. apply flat_map_app. Qed.

Lemma resize_call_no_time_upload (l : list Call) :
  forallb resize_call l = true -> time_uploads l = [].
Proof.
  induction l as [| c l IH]; simpl; [reflexivity |].
  intros H. apply andb_true_iff in H as [Hc Hl].
  rewrite (IH Hl). destruct c; try discriminate; reflexivity.
Qed.

Lemma main_loop_time_uploads (start : timespec) (world : list Iteration) :
  forall (cur : timespec) (st : State),
    Forall keeps_running world ->
    0 <= vars st uniform_gtime ->
    time_uploads (new_calls st (exec (main_loop start cur world) st)) =
      elapsed_times start cur world.
Proof.
  induction world as [| it world IH]; intros cur st Hq Hloc.
  - unfold exec. simpl. unfold new_calls. rewrite skipn_all. reflexivity.
  - inversion Hq as [| ? ? [Hkeys Hclock] Hrest]; subst.
    destruct (clock it) as [t |] eqn:Hclk; [| congruence].
    unfold exec. rewrite (main_loop_step start cur it world st t Hkeys Hclk).
    cbn [elapsed_times]. rewrite Hclk.
    destruct (drained_frame (pending it) st) as (vs1 & l1 & H1 & Hvs1 & Hl1).
    unfold exec. rewrite H1, render_run. cbn [snd vars calls].
    match goal with
    | |- context [main_loop start t world ?s] =>
        set (s1 := s);
        destruct (main_loop_log start world t s1) as (l2 & Hl2 & _);
        specialize (IH t s1 Hrest)
    end.
    assert (Hg : vars s1 uniform_gtime = vars st uniform_gtime).
    { subst s1. cbn [vars]. rewrite upd_other by discriminate.
      apply Hvs1; discriminate. }
    rewrite Hg in IH. specialize (IH Hloc).
    unfold exec in IH, Hl2.
    rewrite (new_calls_of_app _ _ _ Hl2) in IH.
    rewrite (new_calls_of_app st _
               (l1 ++ (time_upload vs1
                         (float_of_double (timespec_diff start cur))
                       ++ frame_calls vs1 (wrap_int (vs1 frames + 1))) ++ l2)).
    + rewrite !time_uploads_app, (resize_call_no_time_upload _ Hl1), IH.
      unfold time_upload.
      replace (vs1 uniform_gtime) with (vars st uniform_gtime)
        by (symmetry; apply Hvs1; discriminate).
      destruct (Z.leb_spec 0 (vars st uniform_gtime)) as [_ | Hlt]; [| lia].
      reflexivity.
    + rewrite Hl2. subst s1. cbn [calls]. rewrite <- !app_assoc. reflexivity.
Qed.

Lemma not_before_trans (a b c : timespec) :
  not_before a b -> not_before b c -> not_before a c.
Proof. unfold not_before. lia. Qed.

Lemma elapsed_times_sorted (start : timespec) (world : list Iteration) :
  forall t : timespec,
    clock_reading start -> clock_reading t -> not_before start t ->
    Forall keeps_running world ->
    Forall clock_reading (readings world) ->
    Sorted not_before (t :: readings world) ->
    Forall (fun q => (0 <= q)%Q) (elapsed_times start t world)
    /\ Sorted Qle (elapsed_times start t world).
Proof.
  induction world as [| it world IH]; intros t Hs Ht Hst Hq Hr Hsorted.
  - split; constructor.
  - inversion Hq as [| ? ? [_ Hclock] Hrest]; subst.
    cbn [elapsed_times]. unfold readings in Hr, Hsorted.
    cbn [flat_map] in Hr, Hsorted. fold (readings world) in Hr, Hsorted.
    destruct (clock it) as [t' |] eqn:Hclk; [| congruence].
    cbn [app] in Hr, Hsorted.
    inversion Hr as [| ? ? Ht' Hr']; subst.
    inversion Hsorted as [| ? ? Hsorted' Hhd]; subst.
    inversion Hhd as [| ? ? Htt']; subst.
    destruct (IH t' Hs Ht' (not_before_trans _ _ _ Hst Htt') Hrest Hr' Hsorted')
      as [Hnn Hsrt].
    split.
    + constructor; [| exact Hnn].
      apply float_of_double_nonneg, timespec_diff_nonneg; assumption.
    + constructor; [exact Hsrt |].
      destruct world as [| it' world']; cbn [elapsed_times]; constructor.
      apply float_of_double_le, timespec_diff_monotone; assumption.
Qed.

(** Each frame is handed the reading taken after the frame before it. *)
Lemma elapsed_times_readings (start : timespec) (world : list Iteration) :
  forall cur : timespec,
    Forall keeps_running world ->
    elapsed_times start cur world =
      map (fun t => float_of_double (timespec_diff start t))
          (firstn (List.length world) (cur :: readings world)).
Proof.
  induction world as [| it world IH]; intros cur Hq; [reflexivity |].
  inversion Hq as [| ? ? [_ Hclock] Hrest]; subst.
  unfold readings. cbn [elapsed_times List.length flat_map].
  fold (readings world).
  destruct (clock it) as [t |]; [| congruence].
  cbn [app firstn map]. f_equal. apply IH, Hrest.
Qed.

(** The elapsed time is sound from the second frame on.  When the clock's
    readings are normalised and never go back, starting from [start], a
    running loop (the time uniform being present) uploads one elapsed time
    per frame: the [float] conversion of [timespec_diff] from [start] to the
    reading taken after the frame before, and for the first frame to [cur]
    as the loop finds it.  The uploads after the first are non-negative and
    non-decreasing among themselves; nothing is said of the first, which
    may be negative or above the second. *)
Theorem elapsed_time_monotone_after_first_frame
    (start cur : timespec) (world : list Iteration) (st : State) :
  Forall keeps_running world ->
  0 <= vars st uniform_gtime ->
  clock_reading start ->
  Forall clock_reading (readings world) ->
  Sorted not_before (start :: readings world) ->
  let uploads :=
    time_uploads (new_calls st (exec (main_loop start cur world) st)) in
  uploads =
    map (fun t => float_of_double (timespec_diff start t))
        (firstn (List.length world) (cur :: readings world)) /\
  Forall (fun q => (0 <= q)%Q) (tl uploads) /\
  Sorted Qle (tl uploads).
Proof.
  intros Hq Hloc Hs Hr Hsorted uploads. subst uploads.
  rewrite (main_loop_time_uploads start world cur st Hq Hloc).
  split; [apply elapsed_times_readings, Hq |].
  destruct world as [| it world]; [split; constructor |].
  inversion Hq as [| ? ? [_ Hclock] Hrest]; subst.
  cbn [elapsed_times tl].
  unfold readings in Hr, Hsorted.
  cbn [flat_map] in Hr, Hsorted. fold (readings world) in Hr, Hsorted.
  destruct (clock it) as [t |] eqn:Hclk; [| congruence].
  cbn [app] in Hr, Hsorted.
  inversion Hr as [| ? ? Ht Hr']; subst.
  inversion Hsorted as [| ? ? Hsorted' Hhd]; subst.
  inversion Hhd as [| ? ? Hst]; subst.
  exact (elapsed_times_sorted start world t Hs Ht Hst Hrest Hr' Hsorted').
Qed.

Lemma elapsed_time_monotone_after_first_frame_witness :
  Sorted Qle
    (tl (time_uploads
           (new_calls initial_state
              (exec (main_loop (mk_timespec 100 0) (mk_timespec 0 0)
                       [ mk_Iteration [] (Some (mk_timespec 100 16000000));
                         mk_Iteration [KeyPress 32]
                                      (Some (mk_timespec 100 33000000));
                         mk_Iteration [] (Some (mk_timespec 101 0)) ])
                    initial_state)))).
Proof.
  apply (elapsed_time_monotone_after_first_frame
           (mk_timespec 100 0) (mk_timespec 0 0)
           [ mk_Iteration [] (Some (mk_timespec 100 16000000));
             mk_Iteration [KeyPress 32] (Some (mk_timespec 100 33000000));
             mk_Iteration [] (Some (mk_timespec 101 0)) ]
           initial_state).
  - repeat constructor; discriminate.
  - discriminate.
  - unfold clock_reading. simpl. lia.
  - unfold readings. simpl.
    repeat first [apply Forall_cons | apply Forall_nil];
      unfold clock_reading; simpl; lia.
  - unfold readings. simpl.
    repeat first [ apply Sorted_cons | apply Sorted_nil
                 | apply HdRel_cons | apply HdRel_nil ];
      unfold not_before, nanoseconds; simpl; lia.
Defined.

(** ** The frame counter in the render loop *)

Lemma frame_uploads_frame_calls (vs : globals) (n : Z) :
  frame_uploads (frame_calls vs n) = [to_float n].
Proof. reflexivity. Qed.

(** However the loop goes on (it may stop, leave through [die], or still be
    running), it uploads the counter once per draw, counting on from the
    value it found. *)
Lemma main_loop_frame_uploads (start : timespec) (world : list Iteration) :
  forall (cur : timespec) (st : State),
  exists n : nat,
    (n <= List.length world)%nat
    /\ count_draws (new_calls st (exec (main_loop start cur world) st)) = n
    /\ frame_uploads (new_calls st (exec (main_loop start cur world) st)) =
         uploads_from (vars st frames) n.
Proof.
  induction world as [| it world IH]; intros cur st.
  - exists O. unfold exec. simpl. unfold new_calls. rewrite skipn_all. auto.
  - remember (exec (main_loop start cur (it :: world)) st) as final
      eqn:Hfinal.
    unfold exec in Hfinal. cbn [main_loop] in Hfinal.
    unfold bind at 1 in Hfinal. rewrite process_events_run in Hfinal.
    destruct (drained_frame (pending it) st) as (vs1 & l1 & H1 & Hvs1 & Hl1).
    rewrite H1 in Hfinal.
    destruct (existsb is_exit_key (pending it)); cbn [negb] in Hfinal.
    + exists O. cbn [snd ret] in Hfinal. subst final.
      rewrite new_calls_app.
      rewrite (resize_call_no_draw _ Hl1), (resize_call_no_frame_upload _ Hl1).
      split; [apply Nat.le_0_l | split; reflexivity].
    + unfold bind at 1 in Hfinal. rewrite render_run in Hfinal.
      cbn [vars calls] in Hfinal. unfold bind at 1 in Hfinal.
      rewrite (Hvs1 frames) in Hfinal by discriminate.
      destruct (clock it) as [t |]; unfold monotonic_time in Hfinal.
      * unfold ret at 1 in Hfinal.
        match type of Hfinal with
        | context [main_loop start t world ?s] =>
            set (s1 := s) in Hfinal;
            destruct (main_loop_log start world t s1) as (l2 & Hl2 & _);
            destruct (IH t s1) as (n & Hn & Hdraws & Hup)
        end.
        fold (exec (main_loop start t world) s1) in Hfinal.
        rewrite (new_calls_of_app _ _ _ Hl2) in Hdraws, Hup.
        exists (S n).
        rewrite (new_calls_of_app st final
                   (l1 ++ (time_upload vs1
                             (float_of_double (timespec_diff start cur))
                           ++ frame_calls vs1
                                (wrap_int (vars st frames + 1))) ++ l2)).
        2:{ subst final. rewrite Hl2. subst s1. cbn [calls].
            rewrite <- !app_assoc. reflexivity. }
        split; [cbn [List.length]; lia | split].
        -- rewrite !count_draws_app, (resize_call_no_draw _ Hl1),
             count_draws_time_upload, count_draws_frame_calls, Hdraws.
           reflexivity.
        -- rewrite !frame_uploads_app, (resize_call_no_frame_upload _ Hl1),
             frame_uploads_time_upload, frame_uploads_frame_calls, Hup.
           subst s1. cbn [vars]. rewrite upd_same, uploads_from_S.
           reflexivity.
      * exists 1%nat. unfold die in Hfinal. cbn [snd calls] in Hfinal.
        rewrite <- !app_assoc in Hfinal. subst final.
        rewrite new_calls_app.
        split; [cbn [List.length]; lia | split].
        -- rewrite !count_draws_app, (resize_call_no_draw _ Hl1),
             count_draws_time_upload, count_draws_frame_calls.
           reflexivity.
        -- rewrite !frame_uploads_app, (resize_call_no_frame_upload _ Hl1),
             frame_uploads_time_upload, frame_uploads_frame_calls.
           reflexivity.
Qed.

(** In the render loop itself, entered with the counter at 0 and run for at
    most 2^24 iterations, the frame-count uploads are 1, 2, ..., D, where D is
    the number of draw calls: whatever events arrive, whatever the clock
    reads, and whether the loop stops, dies or is still running. *)
Theorem main_loop_counts_frames (start cur : timespec)
    (world : list Iteration) (st : State) :
  vars st frames = 0 ->
  Z.of_nat (List.length world) <= 2 ^ 24 ->
  frame_uploads (new_calls st (exec (main_loop start cur world) st)) =
    map (fun k => inject_Z (Z.of_nat k))
        (seq 1 (count_draws
                  (new_calls st (exec (main_loop start cur world) st)))).
Proof.
  intros H0 Hlen.
  destruct (main_loop_frame_uploads start world cur st)
    as (n & Hn & Hdraws & Hup).
  rewrite Hdraws, Hup, H0.
  apply uploads_from_exact. lia.
Qed.

Lemma main_loop_counts_frames_witness :
  frame_uploads
    (new_calls initial_state
       (exec (main_loop (mk_timespec 100 0) (mk_timespec 0 0)
                (iterations (two_frames_then_q
                   (desktop every_stage all_uniforms (640, 360))
                   (mk_timespec 0 0))))
             initial_state)) =
    map (fun k => inject_Z (Z.of_nat k)) (seq 1 2).
Proof.
  apply (main_loop_counts_frames (mk_timespec 100 0) (mk_timespec 0 0)
           (iterations (two_frames_then_q
              (desktop every_stage all_uniforms (640, 360))
              (mk_timespec 0 0)))
           initial_state).
  - reflexivity.
  - vm_compute. discriminate.
Defined.

(** ** The accuracy of [timespec_diff] *)

(** The value the source computes for the readings 5.9 s and 7.1 s: the
    double next to 1.2, not 6/5. *)
Lemma timespec_diff_rounds :
  timespec_diff (mk_timespec 5 900000000) (mk_timespec 7 100000000) =
    (5404319552844595 # 4503599627370496)%Q /\
  ~ (5404319552844595 # 4503599627370496 == 6 # 5)%Q.
Proof. split; [vm_compute; reflexivity | discriminate]. Qed.

(** On clock readings [timespec_diff] is the difference in seconds up to
    its two roundings, in the branch that borrows a second as in the one
    that does not, and also when [stop] is before [start]: it differs from
    the exact difference [d] by at most (|d| + 2) * 2^-53.  It is exactly 0
    for a reading and itself, it is non-negative exactly when [stop] is not
    before [start], and it never decreases when [stop] moves on. *)
Theorem timespec_diff_accuracy (a b c : timespec) :
  clock_reading a -> clock_reading b -> clock_reading c ->
  let elapsed x y :=
    ((nanoseconds y - nanoseconds x) # 1000000000)%Q in
  (timespec_diff a a == 0)%Q /\
  (Qabs (timespec_diff a b - elapsed a b)
   <= (Qabs (elapsed a b) + 2) * (1 # 9007199254740992))%Q /\
  (not_before a b -> (0 <= timespec_diff a b)%Q) /\
  (~ not_before a b -> (timespec_diff a b < 0)%Q) /\
  (not_before b c -> (timespec_diff a b <= timespec_diff a c)%Q).
Proof.
  intros Ha Hb Hc elapsed. subst elapsed. cbv beta.
  split; [apply timespec_diff_same, Ha |].
  split; [apply timespec_diff_error; assumption |].
  split; [intros H; apply timespec_diff_nonneg; assumption |].
  split; [intros H; apply timespec_diff_negative; assumption |].
  intros H. apply timespec_diff_monotone; assumption.
Qed.

Lemma timespec_diff_accuracy_witness :
  (0 <= timespec_diff (mk_timespec 5 900000000) (mk_timespec 7 100000000))%Q
  /\ (timespec_diff (mk_timespec 7 100000000) (mk_timespec 5 900000000)
      < 0)%Q.
Proof.
  assert (Hr : forall s n, 0 <= s < 100 -> 0 <= n < 1000000000 ->
                 clock_reading (mk_timespec s n)).
  { intros s n Hs Hn. unfold clock_reading. cbn [tv_sec tv_nsec].
    change (2 ^ 52) with 4503599627370496. lia. }
  destruct (timespec_diff_accuracy
              (mk_timespec 5 900000000) (mk_timespec 7 100000000)
              (mk_timespec 7 100000000)
              (Hr 5 900000000 ltac:(lia) ltac:(lia))
              (Hr 7 100000000 ltac:(lia) ltac:(lia))
              (Hr 7 100000000 ltac:(lia) ltac:(lia)))
    as (_ & _ & Hnonneg & _ & _).
  destruct (timespec_diff_accuracy
              (mk_timespec 7 100000000) (mk_timespec 5 900000000)
              (mk_timespec 5 900000000)
              (Hr 7 100000000 ltac:(lia) ltac:(lia))
              (Hr 5 900000000 ltac:(lia) ltac:(lia))
              (Hr 5 900000000 ltac:(lia) ltac:(lia)))
    as (_ & _ & _ & Hneg & _).
  split.
  - apply Hnonneg. unfold not_before, nanoseconds. cbn [tv_sec tv_nsec]. lia.
  - apply Hneg. unfold not_before, nanoseconds. cbn [tv_sec tv_nsec]. lia.
Defined.

Lemma last_picked_app {A : Type} (pick : Call -> option A) (l l' : list Call) :
  last_picked pick (l ++ l') =
    match last_picked pick l' with
    | Some a => Some a
    | None => last_picked pick l
    end.
Proof.
  induction l as [| c l IH]; simpl.
  - destruct (last_picked pick l'); reflexivity.
  - rewrite IH. destruct (last_picked pick l'); reflexivity.
Qed.

Lemma last_picked_none {A : Type} (pick : Call -> option A) (l : list Call) :
  forallb (fun c => match pick c with None => true | Some _ => false end) l
    = true ->
  last_picked pick l = None.
Proof.
  induction l as [| c l IH]; simpl; [reflexivity |].
  intros H. apply andb_true_iff in H as [Hc Hl]. rewrite (IH Hl).
  destruct (pick c); [discriminate | reflexivity].
Qed.

Lemma leaves_viewport_last (l l' : list Call) :
  forallb leaves_viewport l' = true ->
  last_viewport (l ++ l') = last_viewport l /\
  last_resolution (l ++ l') = last_resolution l.
Proof.
  intros H. unfold last_viewport, last_resolution.
  assert (Hv : last_picked viewport_of l' = None).
  { apply last_picked_none. apply forallb_forall. intros c Hc.
    rewrite forallb_forall in H. specialize (H c Hc).
    unfold leaves_viewport in H.
    destruct (viewport_of c); [discriminate | reflexivity]. }
  assert (Hr : last_picked resolution_of l' = None).
  { apply last_picked_none. apply forallb_forall. intros c Hc.
    rewrite forallb_forall in H. specialize (H c Hc).
    unfold leaves_viewport in H.
    destruct (viewport_of c), (resolution_of c);
      first [discriminate | reflexivity]. }
  rewrite !last_picked_app, Hv, Hr. auto.
Qed.

(** Calls that are not about the viewport, with the cache untouched, keep
    the cache and the driver in agreement. *)
Lemma coherent_extend (st : State) (vs' : globals) (l : list Call) :
  viewport_coherent st ->
  forallb leaves_viewport l = true ->
  cached_size vs' = cached_size (vars st) ->
  viewport_coherent {| vars := vs'; calls := calls st ++ l |}.
Proof.
  unfold viewport_coherent. intros Hc Hl Hsize. cbn [vars calls].
  destruct (leaves_viewport_last (calls st) l Hl) as [-> ->].
  rewrite Hsize. exact Hc.
Qed.

Lemma coherent_resize (w h : GLsizei) (st : State) :
  viewport_coherent st ->
  viewport_coherent (exec (resize_viewport w h) st).
Proof.
  intros Hc. unfold exec.
  destruct (cached_size_dec (vars st) w h) as [Heq | Hne].
  - rewrite resize_viewport_same by assumption. exact Hc.
  - rewrite resize_viewport_new by assumption. cbn [snd].
    unfold viewport_coherent. cbn [vars calls].
    unfold last_viewport, last_resolution. rewrite !last_picked_app.
    cbn. split; [reflexivity | split; reflexivity].
Qed.

Lemma coherent_event (ev : XEvent) (st : State) :
  viewport_coherent st -> viewport_coherent (step_event st ev).
Proof.
  intros Hc. unfold step_event, exec. destruct ev as [w h | key | ty].
  - rewrite process_event_configure. cbn [snd]. apply coherent_resize, Hc.
  - rewrite process_event_inert by reflexivity. exact Hc.
  - rewrite process_event_inert by reflexivity. exact Hc.
Qed.

Lemma coherent_drain (queue : list XEvent) (st : State) :
  viewport_coherent st ->
  viewport_coherent (exec (process_events queue) st).
Proof.
  unfold exec. rewrite process_events_run. cbn [snd].
  revert st. induction queue as [| ev queue IH]; intros st Hc; simpl.
  - exact Hc.
  - apply IH, coherent_event, Hc.
Qed.

Lemma leaves_viewport_frame (vs : globals) (t : GLfloat) (n : Z) :
  forallb leaves_viewport (time_upload vs t ++ frame_calls vs n) = true.
Proof. unfold time_upload. destruct (0 <=? vs uniform_gtime); reflexivity. Qed.

Lemma coherent_render (t : GLfloat) (st : State) :
  viewport_coherent st -> viewport_coherent (exec (render t) st).
Proof.
  intros Hc. unfold exec. rewrite render_run. cbn [snd].
  apply coherent_extend; [exact Hc | apply leaves_viewport_frame |].
  unfold cached_size. rewrite !upd_other by discriminate. reflexivity.
Qed.

Lemma coherent_main_loop (start : timespec) (world : list Iteration) :
  forall (cur : timespec) (st : State),
    viewport_coherent st ->
    viewport_coherent (exec (main_loop start cur world) st).
Proof.
  induction world as [| it world IH]; intros cur st Hc.
  - exact Hc.
  - assert (H1 := coherent_drain (pending it) st Hc).
    unfold exec in *. cbn [main_loop]. unfold bind at 1.
    rewrite process_events_run in *. cbn [snd] in H1.
    destruct (existsb is_exit_key (pending it)); cbn [negb].
    + exact H1.
    + assert (H2 := coherent_render
                      (float_of_double (timespec_diff start cur)) _ H1).
      unfold exec in H2. unfold bind at 1.
      destruct (render (float_of_double (timespec_diff start cur)) _)
        as [[[] | c] s2] eqn:E;
        cbn [snd] in H2.
      * unfold bind at 1. destruct (clock it) as [t |]; unfold monotonic_time.
        -- unfold ret at 1. apply IH, H2.
        -- unfold die. cbn [snd].
           apply (coherent_extend s2 (vars s2) [_] H2); reflexivity.
      * exact H2.
Qed.

(** Symbolic execution that keeps the branches leaving through [die]. *)
Ltac case_all_in H :=
  match type of H with
  | context [match ?c with _ => _ end] =>
      lazymatch c with
      | context [match _ with _ => _ end] => fail
      | _ => destruct c eqn:?; reduce_in H
      end
  end.

Lemma coherent_startup (env : Env) (body : string) (width height : Z)
    (fullscreen : bool) (st : State) :
  viewport_coherent st ->
  viewport_coherent (exec (startup env body width height fullscreen) st).
Proof.
  intros Hc. unfold exec.
  remember (startup env body width height fullscreen st) as r eqn:H.
  destruct st as [v0 l0].
  reduce_in H. repeat case_all_in H.
  all: subst r.
  all: lazymatch goal with
       | |- viewport_coherent (snd (resize_viewport ?gw ?gh ?s)) =>
           apply (coherent_resize gw gh s)
       | |- _ => cbn [snd]
       end.
  all: rewrite <- !app_assoc; cbn [app].
  all: apply (coherent_extend {| vars := v0; calls := l0 |} _ _ Hc);
    [ reflexivity
    | unfold cached_size; cbn [vars];
      repeat (rewrite upd_other by discriminate); reflexivity ].
Qed.


Lemma keeps_bind {A B : Type} (m : M A) (k : A -> M B) :
  keeps_coherent m -> (forall a, keeps_coherent (k a)) ->
  keeps_coherent (bind m k).
Proof.
  intros Hm Hk st Hc. specialize (Hm st Hc).
  unfold exec, bind in *. destruct (m st) as [[a | c] s]; cbn [snd] in *.
  - apply Hk, Hm.
  - exact Hm.
Qed.

Lemma keeps_call (c : Call) :
  leaves_viewport c = true -> keeps_coherent (call c).
Proof.
  intros Hl st Hc. unfold exec, call. cbn [snd].
  apply coherent_extend; [exact Hc | cbn [forallb]; rewrite Hl | ]; reflexivity.
Qed.

Lemma keeps_die {A : Type} (msg : string) : keeps_coherent (@die A msg).
Proof.
  intros st Hc. unfold exec, die. cbn [snd].
  apply coherent_extend; [exact Hc | |]; reflexivity.
Qed.

Lemma keeps_ret {A : Type} (a : A) : keeps_coherent (ret a).
Proof. intros st Hc. exact Hc. Qed.

Lemma keeps_shutdown (status : Call -> bool) : keeps_coherent (shutdown status).
Proof.
  intros st Hc. unfold exec. rewrite shutdown_run. cbn [snd].
  apply coherent_extend; [exact Hc | |]; reflexivity.
Qed.

Lemma keeps_run_ops (os : list op) : keeps_coherent (run_ops os).
Proof.
  induction os as [| o os IH]; [apply keeps_ret |].
  cbn [run_ops]. apply keeps_bind; [| intros _; exact IH].
  destruct o as [t | w h | queue]; cbn [run_op].
  - intros st Hc. apply coherent_render, Hc.
  - intros st Hc. apply coherent_resize, Hc.
  - apply keeps_bind; [| intros; apply keeps_ret].
    intros st Hc. apply coherent_drain, Hc.
Qed.

(** The cache never disagrees with the driver.  In every state the program
    reaches from a coherent one (the initial state is), through any run of
    frames, resizes and drains, or through the whole of [main] whatever the
    world answers, the cached viewport size is the size of the most recent
    [glViewport] call and of the most recent resolution upload, and it is
    the sentinel (-1,-1) while there has been neither. *)
Theorem viewport_cache_agrees_with_driver (st : State) :
  viewport_coherent st ->
  (forall os, viewport_coherent (exec (run_ops os) st)) /\
  (forall width height fullscreen body w,
     viewport_coherent (exec (main width height fullscreen body w) st)).
Proof.
  intros Hc. split.
  - intros os. apply keeps_run_ops, Hc.
  - intros width height fullscreen body w. revert st Hc.
    change (keeps_coherent (main width height fullscreen body w)).
    unfold main.
    apply keeps_bind; [apply keeps_call; reflexivity | intros _].
    apply keeps_bind; [apply keeps_call; reflexivity | intros _].
    apply keeps_bind; [intros st Hc; apply coherent_startup, Hc | intros _].
    apply keeps_bind.
    { destruct (start_clock w); [apply keeps_ret | apply keeps_die]. }
    intros start. apply keeps_bind.
    { intros st Hc. apply coherent_main_loop, Hc. }
    intros [|]; [apply keeps_ret |].
    apply keeps_bind; [apply keeps_shutdown | intros; apply keeps_ret].
Qed.

Lemma viewport_cache_agrees_with_driver_witness :
  viewport_coherent
    (exec (main 640 360 false red_body
             (two_frames_then_q
                (desktop every_stage all_uniforms (640, 360))
                (mk_timespec 0 0)))
          initial_state).
Proof.
  apply (viewport_cache_agrees_with_driver initial_state).
  vm_compute. reflexivity.
Defined.

(** ** The outcome of [startup] *)

(** Normalise the reads of variables [startup] has just written. *)
Ltac read_vars_in E :=
  repeat first [ rewrite upd_same in E
               | rewrite upd_other in E by discriminate ].

Ltac read_vars_everywhere :=
  repeat match goal with
         | E : context [upd _ _ _ _] |- _ => progress read_vars_in E
         end.

Lemma resize_viewport_returns (w h : GLsizei) (st : State) :
  fst (resize_viewport w h st) = Ret tt.
Proof.
  destruct (resize_viewport_frame w h st) as (vs' & l & Hrun & _).
  rewrite Hrun. reflexivity.
Qed.

Lemma startup_result (env : Env) (body : string) (width height : Z)
    (fullscreen : bool) (st : State) :
  result (startup env body width height fullscreen) st =
    match first_failure (startup_checks env body) with
    | None => Ret tt
    | Some _ => Exit EXIT_FAILURE
    end.
Proof.
  unfold result.
  remember (startup env body width height fullscreen st) as r eqn:H.
  destruct st as [v0 l0].
  reduce_in H. repeat case_all_in H.
  all: subst r.
  all: read_vars_everywhere.
  all: unfold first_failure, startup_checks, stage_text, fragment_sources.
  all: cbn [find fst].
  all: repeat match goal with
              | E : _ = true |- _ => rewrite E; clear E
              | E : _ = false |- _ => rewrite E; clear E
              | E : _ = Some _ |- _ => rewrite E; clear E
              | E : _ = None |- _ => rewrite E; clear E
              end.
  all: cbn [negb is_some].
  all: first [reflexivity | apply resize_viewport_returns].
Qed.

(** On every path, also the fatal ones, [startup] only appends to the log,
    and what it appends holds no draw, no swap, no clear, no frame or time
    upload and no teardown call. *)
Lemma startup_log (env : Env) (body : string) (width height : Z)
    (fullscreen : bool) (st : State) :
  exists l,
    calls (exec (startup env body width height fullscreen) st) = calls st ++ l
    /\ forallb startup_call l = true.
Proof.
  unfold exec.
  remember (startup env body width height fullscreen st) as r eqn:H.
  destruct st as [v0 l0].
  reduce_in H. repeat case_all_in H.
  all: subst r.
  all: lazymatch goal with
       | |- context [resize_viewport ?gw ?gh ?s] =>
           destruct (resize_viewport_frame gw gh s)
             as (vs' & l & Hrun & _ & Hl);
           rewrite Hrun
       | |- _ => idtac
       end.
  all: cbn [snd calls]; eexists; rewrite <- !app_assoc; cbn [app].
  all: split; [reflexivity |].
  all: cbn [forallb startup_call is_draw is_teardown negb andb].
  all: try reflexivity.
  all: clear - Hl; induction l as [| c l IH]; [reflexivity |].
  all: cbn [forallb] in *; apply andb_true_iff in Hl as [Hc Hl].
  all: rewrite (IH Hl), andb_true_r.
  all: destruct c; try discriminate Hc; reflexivity.
Qed.

(** [startup] dies at the first check that fails, in the order of the
    source, with that check's diagnostic as the last thing written, and with
    status EXIT_FAILURE; it returns exactly when every check passes. *)
Theorem startup_dies_at_first_failing_check (env : Env) (body : string)
    (width height : Z) (fullscreen : bool) (st : State) :
  match first_failure (startup_checks env body) with
  | None =>
      result (startup env body width height fullscreen) st = Ret tt
  | Some msg =>
      result (startup env body width height fullscreen) st =
        Exit EXIT_FAILURE
      /\ last (calls (exec (startup env body width height fullscreen) st))
              XFlush = Stderr (line msg)
  end.
Proof.
  unfold result, exec.
  remember (startup env body width height fullscreen st) as r eqn:H.
  destruct st as [v0 l0].
  reduce_in H. repeat case_all_in H.
  all: subst r.
  all: read_vars_everywhere.
  all: unfold first_failure, startup_checks, stage_text, fragment_sources.
  all: cbn [find fst].
  all: repeat match goal with
              | E : _ = true |- _ => rewrite E; clear E
              | E : _ = false |- _ => rewrite E; clear E
              | E : _ = Some _ |- _ => rewrite E; clear E
              | E : _ = None |- _ => rewrite E; clear E
              end.
  all: cbn [negb is_some fst snd calls].
  all: first [ apply resize_viewport_returns
             | split; [reflexivity | apply last_last] ].
Qed.

(** What a [startup] that returns has established: every handle and every
    location variable holds what the library answered for it, each location
    under the name of its own uniform; the cached viewport size is the size
    the window reports; the frame counter is untouched. *)
Theorem startup_establishes (env : Env) (body : string) (width height : Z)
    (fullscreen : bool) (st st' : State) :
  startup env body width height fullscreen st = (Ret tt, st') ->
  let loc := env_glGetUniformLocation env in
  (vars st' x_display = env_XOpenDisplay env /\
   vars st' x_root = env_RootWindow env /\
   vars st' x_window = env_XCreateWindow env /\
   vars st' egl_display = env_eglGetDisplay env /\
   vars st' egl_context = env_eglCreateContext env /\
   vars st' egl_surface = env_eglCreateWindowSurface env /\
   vars st' shader_program = env_glCreateProgram env) /\
  (vars st' attrib_position = env_glGetAttribLocation env "iPosition" /\
   vars st' (sampler_channel 0) = loc "iChannel0"%string /\
   vars st' (sampler_channel 1) = loc "iChannel1"%string /\
   vars st' (sampler_channel 2) = loc "iChannel2"%string /\
   vars st' (sampler_channel 3) = loc "iChannel3"%string /\
   vars st' uniform_cres = loc "iChannelResolution"%string /\
   vars st' uniform_frame = loc "iFrame"%string /\
   vars st' uniform_ctime = loc "iChannelTime"%string /\
   vars st' uniform_date = loc "iDate"%string /\
   vars st' uniform_gtime = loc "iTime"%string /\
   vars st' uniform_mouse = loc "iMouse"%string /\
   vars st' uniform_res = loc "iResolution"%string /\
   vars st' uniform_srate = loc "iSampleRate"%string) /\
  env_XGetWindowAttributes env = Some (cached_size (vars st')) /\
  vars st' frames = vars st frames.
Proof.
  intros H loc. subst loc. destruct st as [v0 l0].
  reduce_in H. repeat case_in H.
  all: match type of H with
       | resize_viewport ?gw ?gh ?s = _ =>
           destruct (resize_viewport_frame gw gh s)
             as (vs' & l & Hrun & Hvs & Hl);
           pose proof (cached_size_after_resize gw gh s) as Hsize;
           unfold exec in Hsize; rewrite H in Hsize; cbn [snd] in Hsize
       end.
  all: rewrite Hrun in H; apply pair_snd_eq in H; subst st'.
  all: lazy beta iota delta [vars calls] in Hvs, Hsize |- *.
  all: rewrite Hsize.
  all: rewrite !Hvs by discriminate.
  all: repeat split;
    first [ assumption
          | repeat first [ rewrite upd_same
                         | rewrite upd_other by discriminate ];
            reflexivity ].
Qed.

(** ** The whole of [main] *)

Lemma startup_call_quiet (l : list Call) :
  forallb startup_call l = true ->
  count_draws l = O /\ forallb not_teardown l = true.
Proof.
  unfold count_draws.
  induction l as [| c l IH]; [split; reflexivity |].
  cbn [forallb]. intros H. apply andb_true_iff in H as [Hc Hl].
  destruct (IH Hl) as [Hd Hn]. cbn [filter forallb]. rewrite Hn.
  unfold startup_call in Hc.
  apply andb_true_iff in Hc as [Hc _]. apply andb_true_iff in Hc as [Hdr Htd].
  unfold not_teardown. rewrite Htd.
  destruct (is_draw c); [discriminate Hdr |]. split; [exact Hd | reflexivity].
Qed.

(** With every check of [startup] passing and the clock answering, [main]
    reaches its loop, having drawn nothing and torn nothing down. *)
Lemma main_enters_loop (width height : Z) (fullscreen : bool) (body : string)
    (w : World) (t : timespec) (st : State) :
  first_failure (startup_checks (environment w) body) = None ->
  start_clock w = Some t ->
  exists vs3 l3,
    main width height fullscreen body w st =
      (state <- main_loop t (cur_indeterminate w) (iterations w) ;;
       match state with
       | RUNNING => ret None
       | STOPPED => shutdown (teardown_status w) ;;; ret (Some 0)
       end) {| vars := vs3; calls := calls st ++ l3 |}
    /\ count_draws l3 = O
    /\ forallb not_teardown l3 = true.
Proof.
  intros Hchecks Hclock. unfold main.
  unfold bind at 1. unfold info at 1, call at 1.
  unfold bind at 1. unfold info at 1, call at 1. cbn [vars calls].
  unfold bind at 1.
  match goal with
  | |- context [startup ?e ?b ?x ?y ?f ?s] =>
      pose proof (startup_result e b x y f s) as Hres;
      destruct (startup_log e b x y f s) as (l & Hl & Hquiet);
      unfold result, exec in Hres, Hl;
      destruct (startup e b x y f s) as [r s3]
  end.
  rewrite Hchecks in Hres. cbn [fst snd calls] in Hres, Hl. subst r.
  unfold bind at 1. rewrite Hclock. unfold monotonic_time, ret at 1.
  destruct (startup_call_quiet l Hquiet) as [Hd Hn].
  destruct s3 as [vs3 c3]. cbn [calls] in Hl. subst c3.
  exists vs3. eexists. rewrite <- !app_assoc. split; [reflexivity |].
  split.
  - rewrite !count_draws_app, Hd. reflexivity.
  - rewrite !not_teardown_app, Hn. reflexivity.
Qed.

(** [main] returns 0 when nothing fails and an exit key arrives: with every
    check of [startup] passing, the clock answering, and an Escape or q key
    press in the drain of some iteration, [main] returns 0 having drawn
    exactly one frame for each iteration before that one. *)
Theorem main_returns_zero (width height : Z) (fullscreen : bool)
    (body : string) (w : World) (before : list Iteration) (it : Iteration)
    (after : list Iteration) (st : State) :
  first_failure (startup_checks (environment w) body) = None ->
  start_clock w <> None ->
  iterations w = before ++ it :: after ->
  Forall keeps_running before ->
  existsb is_exit_key (pending it) = true ->
  result (main width height fullscreen body w) st = Ret (Some 0) /\
  count_draws (new_calls st (exec (main width height fullscreen body w) st)) =
    List.length before.
Proof.
  intros Hchecks Hclock Hits Hq Hkey.
  destruct (start_clock w) as [t |] eqn:Ht; [| congruence].
  destruct (main_enters_loop width height fullscreen body w t st Hchecks Ht)
    as (vs3 & l3 & Hmain & Hd3 & _).
  assert (Hrun_main : exists vs4 l1 l4,
            main width height fullscreen body w st =
              (Ret (Some 0),
               {| vars := vs4;
                  calls := calls st ++ l3 ++ l1 ++ l4 ++ teardown_calls vs4 |})
            /\ count_draws l1 = List.length before
            /\ forallb resize_call l4 = true).
  { rewrite Hmain, Hits. unfold bind at 1.
    match goal with
    | |- context [main_loop t ?c (before ++ it :: after) ?s] =>
        destruct (main_loop_continue t before (it :: after) c s Hq)
          as (c1 & vs1 & l1 & Hrun & Hd1 & _)
    end.
    rewrite Hrun, main_loop_stop by assumption. cbn [calls].
    match goal with
    | |- context [fold_left step_event (pending it) ?s] =>
        destruct (drained_frame (pending it) s) as (vs4 & l4 & H4 & _ & Hl4)
    end.
    rewrite H4. unfold bind. rewrite shutdown_run. cbn [vars calls ret].
    exists vs4, l1, l4. rewrite <- !app_assoc. auto. }
  destruct Hrun_main as (vs4 & l1 & l4 & Hrun_main & Hd1 & Hl4).
  unfold result, exec. rewrite Hrun_main. cbn [fst snd].
  split; [reflexivity |].
  rewrite new_calls_app.
  rewrite !count_draws_app, Hd3, Hd1, (resize_call_no_draw _ Hl4).
  cbn. lia.
Qed.

(** A clock that fails inside the loop ends the process: with every check of
    [startup] passing, if the clock stops answering after the frame of some
    iteration (no exit key having arrived), [main] exits with EXIT_FAILURE
    right after that frame, its diagnostic being the last thing written, and
    without a single teardown call. *)
Theorem main_dies_when_clock_fails (width height : Z) (fullscreen : bool)
    (body : string) (w : World) (before : list Iteration) (it : Iteration)
    (after : list Iteration) (st : State) :
  first_failure (startup_checks (environment w) body) = None ->
  start_clock w <> None ->
  iterations w = before ++ it :: after ->
  Forall keeps_running before ->
  existsb is_exit_key (pending it) = false ->
  clock it = None ->
  let st' := exec (main width height fullscreen body w) st in
  result (main width height fullscreen body w) st = Exit EXIT_FAILURE /\
  count_draws (new_calls st st') = S (List.length before) /\
  filter is_teardown (new_calls st st') = [] /\
  last (calls st') XFlush =
    Stderr (line "clock_gettime on CLOCK_MONOTIC failed.").
Proof.
  intros Hchecks Hclock Hits Hq Hkey Hnone st'. subst st'.
  destruct (start_clock w) as [t |] eqn:Ht; [| congruence].
  destruct (main_enters_loop width height fullscreen body w t st Hchecks Ht)
    as (vs3 & l3 & Hmain & Hd3 & Hn3).
  assert (Hrun_main : exists vs4 c1 l1 l4,
            main width height fullscreen body w st =
              (Exit EXIT_FAILURE,
               {| vars := upd frames (wrap_int (vs4 frames + 1)) vs4;
                  calls :=
                    calls st ++ l3 ++ l1 ++ l4 ++
                    (time_upload vs4 (float_of_double (timespec_diff t c1)) ++
                     frame_calls vs4 (wrap_int (vs4 frames + 1))) ++
                    [Stderr (line "clock_gettime on CLOCK_MONOTIC failed.")] |})
            /\ count_draws l1 = List.length before
            /\ forallb not_teardown l1 = true
            /\ forallb resize_call l4 = true).
  { rewrite Hmain, Hits. unfold bind at 1.
    match goal with
    | |- context [main_loop t ?c (before ++ it :: after) ?s] =>
        destruct (main_loop_continue t before (it :: after) c s Hq)
          as (c1 & vs1 & l1 & Hrun & Hd1 & Hn1)
    end.
    rewrite Hrun. cbn [calls main_loop]. unfold bind at 1.
    rewrite process_events_run, Hkey. cbn [negb].
    match goal with
    | |- context [fold_left step_event (pending it) ?s] =>
        destruct (drained_frame (pending it) s) as (vs4 & l4 & H4 & _ & Hl4)
    end.
    rewrite H4. unfold bind at 1. rewrite render_run. cbn [vars calls].
    unfold bind at 1. rewrite Hnone. unfold monotonic_time, die.
    cbn [vars calls].
    exists vs4, c1, l1, l4. rewrite <- !app_assoc. auto. }
  destruct Hrun_main as (vs4 & c1 & l1 & l4 & Hrun_main & Hd1 & Hn1 & Hl4).
  unfold result, exec. rewrite Hrun_main. cbn [fst snd calls].
  split; [reflexivity |].
  rewrite new_calls_app.
  split; [| split].
  - rewrite !count_draws_app, Hd3, Hd1, (resize_call_no_draw _ Hl4),
      count_draws_time_upload, count_draws_frame_calls.
    cbn. lia.
  - assert (Hnt : forallb not_teardown
                    (l3 ++ l1 ++ l4 ++
                     (time_upload vs4 (float_of_double (timespec_diff t c1)) ++
                      frame_calls vs4 (wrap_int (vs4 frames + 1))) ++
                     [Stderr (line "clock_gettime on CLOCK_MONOTIC failed.")])
                  = true).
    { rewrite !not_teardown_app, Hn3, Hn1, (not_teardown_resize _ Hl4).
      unfold time_upload. destruct (0 <=? vs4 uniform_gtime); reflexivity. }
    revert Hnt.
    generalize (l3 ++ l1 ++ l4 ++
                (time_upload vs4 (float_of_double (timespec_diff t c1)) ++
                 frame_calls vs4 (wrap_int (vs4 frames + 1))) ++
                [Stderr (line "clock_gettime on CLOCK_MONOTIC failed.")]).
    intros l. induction l as [| c l IH]; [reflexivity |].
    cbn [forallb filter]. intros H. apply andb_true_iff in H as [Hc Hl].
    unfold not_teardown in Hc. destruct (is_teardown c); [discriminate Hc |].
    apply IH, Hl.
  - rewrite !app_assoc. apply last_last.
Qed.


Lemma startup_establishes_witness :
  let st' := exec (startup (desktop every_stage all_uniforms (800, 600))
                     red_body 640 360 false) initial_state in
  vars st' uniform_gtime = 1 /\ vars st' uniform_res = 0 /\
  vars st' uniform_frame = 2.
Proof.
  destruct (startup_establishes
              (desktop every_stage all_uniforms (800, 600)) red_body
              640 360 false initial_state
              (exec (startup (desktop every_stage all_uniforms (800, 600))
                       red_body 640 360 false) initial_state))
    as (_ & Hloc & _).
  - vm_compute. reflexivity.
  - destruct Hloc as (_ & _ & _ & _ & _ & _ & Hf & _ & _ & Ht & _ & Hr & _).
    split; [exact Ht | split; [exact Hr | exact Hf]].
Defined.

Lemma main_returns_zero_witness :
  result (main 640 360 false red_body
            (two_frames_then_q (desktop every_stage all_uniforms (640, 360))
               (mk_timespec 0 0)))
         initial_state = Ret (Some 0).
Proof.
  apply (main_returns_zero 640 360 false red_body
           (two_frames_then_q (desktop every_stage all_uniforms (640, 360))
              (mk_timespec 0 0))
           [ mk_Iteration [ConfigureNotify 800 600; KeyPress 32]
                          (Some (mk_timespec 100 16000000));
             mk_Iteration [] (Some (mk_timespec 100 33000000)) ]
           (mk_Iteration
              [OtherEvent 12; KeyPress XK_q; ConfigureNotify 640 360] None)
           [mk_Iteration [] None]
           initial_state).
  - vm_compute. reflexivity.
  - discriminate.
  - reflexivity.
  - repeat constructor; discriminate.
  - reflexivity.
Defined.

Lemma main_dies_when_clock_fails_witness :
  result (main 640 360 false red_body
            (clock_lost (desktop every_stage all_uniforms (640, 360))))
         initial_state = Exit EXIT_FAILURE
  /\ count_draws
       (new_calls initial_state
          (exec (main 640 360 false red_body
                   (clock_lost (desktop every_stage all_uniforms (640, 360))))
                initial_state)) = 2%nat.
Proof.
  destruct (main_dies_when_clock_fails 640 360 false red_body
              (clock_lost (desktop every_stage all_uniforms (640, 360)))
              [mk_Iteration [KeyPress 32] (Some (mk_timespec 100 16000000))]
              (mk_Iteration [ConfigureNotify 800 600] None)
              [mk_Iteration [KeyPress XK_q] None]
              initial_state)
    as (Hres & Hdraws & _).
  - vm_compute. reflexivity.
  - discriminate.
  - reflexivity.
  - repeat constructor; discriminate.
  - reflexivity.
  - reflexivity.
  - split; [exact Hres | exact Hdraws].
Defined.

(** ** What a drain cannot touch *)

(** A drain never does anything but resize: whatever the events, it leaves
    every variable other than the cached width and height as it was (the
    frame counter and the locations among them), logs nothing but the calls
    of the resizes it applies, and with no configure event in the queue it
    leaves the whole state, log included, unchanged. *)
Theorem process_events_only_resizes (queue : list XEvent) (st : State) :
  let st' := exec (process_events queue) st in
  (forall g, g <> viewport_width -> g <> viewport_height ->
             vars st' g = vars st g) /\
  (exists l, calls st' = calls st ++ l /\ forallb resize_call l = true) /\
  (existsb is_configure queue = false -> st' = st).
Proof.
  intros st'. subst st'. unfold exec. rewrite process_events_run. cbn [snd].
  destruct (drained_frame queue st) as (vs' & l & Hrun & Hvs & Hl).
  split; [| split].
  - rewrite Hrun. exact Hvs.
  - exists l. rewrite Hrun. auto.
  - clear. revert st. induction queue as [| ev queue IH]; intros st H.
    + reflexivity.
    + cbn [existsb] in H. apply orb_false_iff in H as [Hev Hq].
      cbn [fold_left]. unfold step_event at 2, exec.
      rewrite process_event_inert by assumption. cbn [snd]. apply IH, Hq.
Qed.

Lemma process_events_only_resizes_witness :
  exec (process_events [KeyPress 32; OtherEvent 6; KeyPress XK_Escape])
       initial_state = initial_state.
Proof.
  apply (process_events_only_resizes
           [KeyPress 32; OtherEvent 6; KeyPress XK_Escape] initial_state).
  reflexivity.
Defined.

(** ** [read_file_into_str] *)

Lemma string_length_app (a b : string) :
  String.length (a ++ b) = (String.length a + String.length b)%nat.
Proof. induction a as [| c a IH]; simpl; [| rewrite IH]; reflexivity. Qed.

Lemma strlen_le_length (s : string) : (strlen s <= String.length s)%nat.
Proof.
  induction s as [| c s IH]; simpl; [lia |].
  destruct (Ascii.eqb c zero); lia.
Qed.

Lemma strlen_app_NUL (s : string) : strlen (s ++ NUL) = strlen s.
Proof.
  induction s as [| c s IH]; simpl; [reflexivity |].
  destruct (Ascii.eqb c zero); [reflexivity | rewrite IH; reflexivity].
Qed.

Lemma c_string_app_NUL (s : string) :
  no_NUL s -> c_string (s ++ NUL) = s.
Proof.
  unfold no_NUL, c_string. rewrite strlen_app_NUL.
  induction s as [| c s IH]; simpl; [reflexivity |].
  destruct (Ascii.eqb c zero); [discriminate |].
  intros H. injection H as H. rewrite (IH H). reflexivity.
Qed.

(** The file is closed on every path that opened it: a call of
    [read_file_into_str] either fails to open the file and makes no other
    call, or closes it exactly once, as the last call it makes. *)
Theorem read_file_closes_what_it_opens (fs : FileSystem) (filename : string) :
  let log := snd (read_file_into_str fs filename) in
  hd_error log = Some (Fopen filename) /\
  match fopen fs filename with
  | None => log = [Fopen filename]
  | Some _ =>
      List.length (filter is_fclose log) = 1%nat /\ last log Ftell = Fclose
  end.
Proof.
  unfold read_file_into_str.
  destruct (fopen fs filename) as [file |]; [| split; reflexivity].
  destruct (negb (fseek_end_status file =? 0)); [repeat split |].
  destruct (negb (fseek_set_status file =? 0)); [repeat split |].
  destruct (malloc fs _); repeat split.
Qed.

(** [read_file_into_str] returns NULL exactly when the file cannot be
    opened, one of the two seeks fails, or the allocation fails.  (A failing
    [ftell] is not among the causes: its result is not tested.) *)
Theorem read_file_null_iff (fs : FileSystem) (filename : string) :
  fst (read_file_into_str fs filename) = NULL <->
  match fopen fs filename with
  | None => True
  | Some file =>
      fseek_end_status file <> 0 \/ fseek_set_status file <> 0 \/
      malloc fs (to_size_t
                   (to_size_t (wrap_long (ftell_position file + 1)) * 1))
        = false
  end.
Proof.
  unfold read_file_into_str.
  destruct (fopen fs filename) as [file |]; [| split; auto].
  destruct (Z.eqb_spec (fseek_end_status file) 0) as [He | He]; cbn [negb].
  - destruct (Z.eqb_spec (fseek_set_status file) 0) as [Hs | Hs]; cbn [negb].
    + destruct (malloc fs _); cbn [fst]; split.
      * discriminate.
      * intros [H | [H | H]]; [contradiction | contradiction | discriminate].
      * auto.
      * reflexivity.
    + split; auto.
  - split; auto.
Qed.

Lemma to_size_t_small (x : Z) : 0 <= x < 2 ^ 64 -> to_size_t x = x.
Proof. intros H. unfold to_size_t. apply Z.mod_small. exact H. Qed.

(** What a successful read returns.  When [ftell] has not failed and [fread]
    stores no more than it is asked for, the buffer returned has room for
    the file's length plus one, holds the bytes [fread] delivered followed by
    a NUL, all of it inside the allocation; so it is a C string no longer
    than what was read, and it is exactly what was read when that holds no
    NUL byte.  An empty file gives the empty string, not NULL. *)
Theorem read_file_returns_terminated_copy (fs : FileSystem)
    (filename : string) (file : File) (capacity : Z) (contents : string) :
  fopen fs filename = Some file ->
  0 <= ftell_position file < 2 ^ 63 - 1 ->
  fread_honest file ->
  fst (read_file_into_str fs filename) = Buffer capacity contents ->
  let bytes := fread_bytes file (ftell_position file) in
  capacity = ftell_position file + 1 /\
  contents = (bytes ++ NUL)%string /\
  Z.of_nat (String.length contents) <= capacity /\
  (strlen contents <= String.length bytes)%nat /\
  (no_NUL bytes -> c_string contents = bytes) /\
  (ftell_position file = 0 -> c_string contents = EmptyString).
Proof.
  intros Hopen Hlen Honest Hres bytes. subst bytes.
  change (2 ^ 63 - 1) with 9223372036854775807 in Hlen.
  unfold read_file_into_str in Hres. rewrite Hopen in Hres.
  destruct (negb (fseek_end_status file =? 0)); [discriminate Hres |].
  destruct (negb (fseek_set_status file =? 0)); [discriminate Hres |].
  rewrite (wrap_long_small (ftell_position file + 1)) in Hres
    by (change (2 ^ 63) with 9223372036854775808; lia).
  rewrite (to_size_t_small (ftell_position file + 1)) in Hres
    by (change (2 ^ 64) with 18446744073709551616; lia).
  rewrite Z.mul_1_r in Hres.
  rewrite (to_size_t_small (ftell_position file + 1)) in Hres
    by (change (2 ^ 64) with 18446744073709551616; lia).
  rewrite (to_size_t_small (ftell_position file)) in Hres
    by (change (2 ^ 64) with 18446744073709551616; lia).
  destruct (malloc fs _); [| discriminate Hres].
  cbn [fst] in Hres. injection Hres as <- <-.
  specialize (Honest (ftell_position file) (proj1 Hlen)).
  split; [reflexivity | split; [reflexivity |]].
  split; [| split; [| split]].
  - rewrite string_length_app. cbn [NUL String.length]. lia.
  - rewrite strlen_app_NUL. apply strlen_le_length.
  - apply c_string_app_NUL.
  - intros H0. rewrite H0 in *.
    destruct (fread_bytes file 0) as [| c s]; [reflexivity |].
    cbn [String.length] in Honest. lia.
Qed.

Lemma read_file_returns_terminated_copy_witness :
  fst (read_file_into_str (disk red_body) "shader.glsl") =
    Buffer 64 (red_body ++ NUL)%string
  /\ c_string (red_body ++ NUL)%string = red_body.
Proof.
  assert (Hres : fst (read_file_into_str (disk red_body) "shader.glsl") =
                 Buffer 64 (red_body ++ NUL)%string) by reflexivity.
  split; [exact Hres |].
  refine (proj1 (proj2 (proj2 (proj2 (proj2
            (read_file_returns_terminated_copy (disk red_body) "shader.glsl"
               _ 64 (red_body ++ NUL)%string eq_refl _ _ Hres))))) _).
  - simpl. lia.
  - intros count Hc. unfold disk. cbn [fread_bytes].
    assert (H : forall (s : string) (n : nat),
               (String.length (substring 0 n s) <= n)%nat).
    { induction s as [| c s IH]; intros [| n]; simpl; try lia.
      specialize (IH n). lia. }
    specialize (H red_body (Z.to_nat count)).
    apply Nat2Z.inj_le in H. rewrite Z2Nat.id in H by exact Hc. exact H.
  - reflexivity.
Defined.

Lemma c_string_app_NUL_any (s : string) : c_string (s ++ NUL) = c_string s.
Proof.
  unfold c_string. rewrite strlen_app_NUL.
  induction s as [| c s IH]; simpl; [reflexivity |].
  destruct (Ascii.eqb c zero); [reflexivity | rewrite IH; reflexivity].
Qed.

(** A source whose C string is shorter than 2^32 bytes reaches the driver
    as that C string. *)
Lemma taken_strlen (s : string) :
  Z.of_nat (strlen s) < 2 ^ 32 -> taken s = strlen s.
Proof.
  intros Hlen. unfold taken.
  destruct (wrap_int_length (Z.of_nat (strlen s))) as [E | E]; [lia | |].
  - rewrite E.
    destruct (Z.ltb_spec (Z.of_nat (strlen s)) 0) as [Hneg | _]; [lia |].
    apply Nat2Z.id.
  - destruct (Z.ltb_spec (wrap_int (Z.of_nat (strlen s))) 0) as [_ | Hge];
      [reflexivity | lia].
Qed.

Lemma c_string_fragment_text (body : string) :
  Z.of_nat (strlen body) < 2 ^ 32 ->
  stage_text (fragment_sources body) =
    (common_shader_header ++ fragment_shader_header ++ c_string body
       ++ fragment_shader_footer)%string.
Proof.
  intros Hlen. unfold fragment_sources, c_string.
  rewrite !stage_text_cons, (taken_strlen body Hlen).
  change (substring 0 (taken common_shader_header) common_shader_header)
    with common_shader_header.
  change (substring 0 (taken fragment_shader_header) fragment_shader_header)
    with fragment_shader_header.
  change (substring 0 (taken fragment_shader_footer) fragment_shader_footer)
    with fragment_shader_footer.
  change (stage_text []) with EmptyString.
  rewrite string_app_nil_r. reflexivity.
Qed.

(** From the file to the driver.  When [read_file_into_str] succeeds on a
    file of fewer than 2^32 bytes ([fread] storing no more than it is asked
    for) and [startup] is run on the buffer it returned, as [main] does for
    the -s option, the text [startup] hands to [glShaderSource] for the
    fragment stage is the header, the uniform block, the bytes [fread]
    delivered up to their first NUL, and the footer; [compile_shader] hands
    over that text whether or not it compiles; and when the bytes hold no
    NUL they are, verbatim, the body of the text. *)
Theorem source_file_becomes_fragment_body (fs : FileSystem)
    (filename : string) (file : File) (capacity : Z) (buffer : string)
    (env : Env) (width height : Z) (fullscreen : bool) (st st' : State) :
  fopen fs filename = Some file ->
  0 <= ftell_position file < 2 ^ 32 ->
  fread_honest file ->
  fst (read_file_into_str fs filename) = Buffer capacity buffer ->
  startup env buffer width height fullscreen st = (Ret tt, st') ->
  let content := fread_bytes file (ftell_position file) in
  let text := (common_shader_header ++ fragment_shader_header
                 ++ c_string content ++ fragment_shader_footer)%string in
  In (GlShaderSource (env_glCreateShader env GL_FRAGMENT_SHADER) text)
     (new_calls st st') /\
  (forall s,
     In (GlShaderSource (env_glCreateShader env GL_FRAGMENT_SHADER) text)
        (new_calls s
           (exec (compile_shader env GL_FRAGMENT_SHADER
                    (fragment_sources buffer)) s))) /\
  (no_NUL content ->
   text = (common_shader_header ++ fragment_shader_header ++ content
             ++ fragment_shader_footer)%string).
Proof.
  intros Hopen Hlen Honest Hres Hrun content text. subst content text.
  change (2 ^ 32) with 4294967296 in Hlen.
  unfold read_file_into_str in Hres. rewrite Hopen in Hres.
  destruct (negb (fseek_end_status file =? 0)); [discriminate Hres |].
  destruct (negb (fseek_set_status file =? 0)); [discriminate Hres |].
  rewrite (to_size_t_small (ftell_position file)) in Hres
    by (change (2 ^ 64) with 18446744073709551616; lia).
  destruct (malloc fs _); [| discriminate Hres].
  cbn [fst] in Hres. injection Hres as _ <-.
  pose proof (Honest (ftell_position file) (proj1 Hlen)) as Hcount.
  set (content := fread_bytes file (ftell_position file)) in *.
  assert (Hshort : Z.of_nat (strlen (content ++ NUL)) < 2 ^ 32).
  { rewrite strlen_app_NUL. pose proof (strlen_le_length content).
    change (2 ^ 32) with 4294967296. lia. }
  pose proof (c_string_fragment_text (content ++ NUL) Hshort) as Htext.
  rewrite c_string_app_NUL_any in Htext.
  destruct (startup_success _ _ _ _ _ _ _ Hrun)
    as (l & Hcalls & _ & _ & Hsrc & _).
  rewrite Htext in Hsrc.
  split; [| split].
  - rewrite (new_calls_of_app _ _ _ Hcalls).
    apply (proj1 (filter_In is_shader_source _ l)).
    rewrite Hsrc. right. left. reflexivity.
  - intros s. rewrite <- Htext. apply compile_shader_logs_text.
  - intros Hn. unfold c_string. rewrite (substring_strlen _ Hn). reflexivity.
Qed.

Lemma source_file_becomes_fragment_body_witness :
  In (GlShaderSource 2
        (common_shader_header ++ fragment_shader_header ++ red_body
           ++ fragment_shader_footer)%string)
     (new_calls initial_state
        (exec (startup (desktop every_stage all_uniforms (640, 360))
                 (red_body ++ NUL) 640 360 false) initial_state)).
Proof.
  refine (proj1 (source_file_becomes_fragment_body (disk red_body)
                   "shader.glsl" _ 64 (red_body ++ NUL)%string
                   (desktop every_stage all_uniforms (640, 360))
                   640 360 false initial_state
                   (exec (startup (desktop every_stage all_uniforms (640, 360))
                            (red_body ++ NUL) 640 360 false) initial_state)
                   eq_refl _ _ eq_refl _)).
  - simpl. change (2 ^ 32) with 4294967296. lia.
  - intros count Hc. unfold disk. cbn [fread_bytes].
    assert (H : forall (s : string) (n : nat),
               (String.length (substring 0 n s) <= n)%nat).
    { induction s as [| c s IH]; intros [| n]; simpl; try lia.
      specialize (IH n). lia. }
    specialize (H red_body (Z.to_nat count)).
    apply Nat2Z.inj_le in H. rewrite Z2Nat.id in H by exact Hc. exact H.
  - vm_compute. reflexivity.
Defined.

(** ** C7: a body past the range of [GLsizei] *)

Lemma strlen_spaces (n : nat) : strlen (spaces n) = n.
Proof. induction n as [| n IH]; simpl; [| rewrite IH]; reflexivity. Qed.

Lemma length_spaces (n : nat) : String.length (spaces n) = n.
Proof. induction n as [| n IH]; simpl; [| rewrite IH]; reflexivity. Qed.

Lemma strlen_app_whole (a b : string) :
  strlen a = String.length a ->
  strlen (a ++ b) = (String.length a + strlen b)%nat.
Proof.
  induction a as [| c a IH]; simpl; [reflexivity |].
  destruct (Ascii.eqb c zero); [discriminate |].
  intros H. injection H as H. rewrite (IH H). reflexivity.
Qed.

(** The red body padded to 2^32 + 5 bytes: its length reaches the driver as
    5, and the driver is handed the first five bytes of the body. *)
Lemma padded_body_text (n : nat) :
  Z.of_nat n = 2 ^ 32 + 5 - 63 ->
  let body := (red_body ++ spaces n)%string in
  strlen body = String.length body /\
  Z.of_nat (String.length body) = 2 ^ 32 + 5 /\
  stage_text (fragment_sources body) =
    (common_shader_header ++ fragment_shader_header ++ "void "
       ++ fragment_shader_footer)%string /\
  (common_shader_header ++ fragment_shader_header ++ "void "
     ++ fragment_shader_footer)%string <>
  (common_shader_header ++ fragment_shader_header ++ body
     ++ fragment_shader_footer)%string.
Proof.
  intros Hn body.
  change (2 ^ 32 + 5 - 63) with 4294967238 in Hn.
  assert (Hstrlen : strlen body = (63 + n)%nat).
  { subst body. rewrite strlen_app_whole by reflexivity.
    rewrite strlen_spaces. reflexivity. }
  assert (Hlength : String.length body = (63 + n)%nat).
  { subst body. rewrite string_length_app, length_spaces. reflexivity. }
  split; [congruence |].
  split; [rewrite Hlength; change (2 ^ 32 + 5) with 4294967301; lia |].
  split.
  - assert (Htaken : taken body = 5%nat).
    { unfold taken. rewrite Hstrlen.
      replace (Z.of_nat (63 + n)) with 4294967301 by lia.
      reflexivity. }
    unfold fragment_sources. rewrite !stage_text_cons, Htaken.
    reflexivity.
  - intros H.
    apply (f_equal (String.get 349)) in H. subst body.
    vm_compute in H. discriminate H.
Qed.

(** C7 as stated fails on a body of 2^32 + 5 bytes.  [long_body] is a
    C string (the red body and blanks); [strlen] gives 2^32 + 5, the cast
    to [GLsizei] leaves 5, and [startup] hands the driver, as the only text
    of the fragment stage, the header, the uniform block, the first five
    bytes of the body and the footer: not the body. *)
Lemma fragment_body_cut_at_2p32 :
  let env := desktop every_stage all_uniforms (640, 360) in
  let handed := (common_shader_header ++ fragment_shader_header ++ "void "
                   ++ fragment_shader_footer)%string in
  strlen long_body = String.length long_body /\
  Z.of_nat (String.length long_body) = 2 ^ 32 + 5 /\
  result (startup env long_body 640 360 false) initial_state = Ret tt /\
  filter is_shader_source
    (calls (exec (startup env long_body 640 360 false) initial_state)) =
    [GlShaderSource 1 (common_shader_header ++ vertex_shader_body);
     GlShaderSource 2 handed] /\
  handed <> (common_shader_header ++ fragment_shader_header ++ long_body
               ++ fragment_shader_footer)%string.
Proof.
  intros env handed.
  destruct (padded_body_text (Z.to_nat (2 ^ 32 + 5 - 63)))
    as (Hc & Hlen & Htext & Hne).
  { apply Z2Nat.id. discriminate. }
  fold long_body in Hc, Hlen, Htext, Hne.
  split; [exact Hc |]. split; [exact Hlen |].
  assert (Hres : result (startup env long_body 640 360 false) initial_state
                 = Ret tt).
  { rewrite startup_result. reflexivity. }
  split; [exact Hres |]. split; [| exact Hne].
  unfold result, exec in *.
  destruct (startup env long_body 640 360 false initial_state)
    as [r st'] eqn:Hrun.
  cbn [fst snd] in *. subst r.
  destruct (startup_success _ _ _ _ _ _ _ Hrun)
    as (l & Hcalls & _ & _ & Hsrc & _).
  rewrite Hcalls. cbn [initial_state calls app].
  rewrite Hsrc, Htext. reflexivity.
Qed.

(** ** Option parsing *)

Section Parsing.

Variable atoi : string -> Z.
Variable fs : FileSystem.

Lemma arguments_of_cons (c : ascii) (g : Cli.Getopt)
    (options : list Cli.Getopt) :
  arguments_of c (g :: options) =
    if Cli.selected_option g =? Cli.opt c
    then Cli.optarg g :: arguments_of c options
    else arguments_of c options.
Proof.
  unfold arguments_of. cbn [filter].
  destruct (Cli.selected_option g =? Cli.opt c); reflexivity.
Qed.

Lemma has_option_cons (c : ascii) (g : Cli.Getopt)
    (options : list Cli.Getopt) :
  has_option c (g :: options) =
    (Cli.selected_option g =? Cli.opt c) || has_option c options.
Proof. reflexivity. Qed.

(** Decide the comparisons of two option characters. *)
Ltac compare_options :=
  repeat match goal with
         | |- context [Cli.opt ?a =? Cli.opt ?b] =>
             let v := eval vm_compute in (Cli.opt a =? Cli.opt b) in
             change (Cli.opt a =? Cli.opt b) with v
         end.

(** Parsing options that let it go on prints only to stdout, and leaves the
    locals at what the last positive -w and -h, any -f and the last -s
    say. *)
Lemma parse_prefix (before rest : list Cli.Getopt) :
  forall (l : Cli.locals) (st : State),
    Forall (parses_on fs) before ->
    exists l' lout,
      Cli.parse atoi fs (before ++ rest) l st =
        Cli.parse atoi fs rest l'
          {| vars := vars st; calls := calls st ++ lout |}
      /\ forallb is_stdout lout = true
      /\ Cli.window_width l' =
           last_positive (Cli.window_width l)
             (map atoi (arguments_of "w" before))
      /\ Cli.window_height l' =
           last_positive (Cli.window_height l)
             (map atoi (arguments_of "h" before))
      /\ Cli.fullscreen l' = Cli.fullscreen l || has_option "f" before
      /\ Cli.program_source l' =
           last_source fs (Cli.program_source l) (arguments_of "s" before).
Proof.
  induction before as [| g before IH]; intros l st Hok.
  - exists l, []. cbn [app]. rewrite app_nil_r, state_eta.
    unfold arguments_of, has_option, last_positive, last_source.
    cbn. rewrite orb_false_r. auto 10.
  - inversion Hok as [| ? ? [Hhelp Hsrc] Hrest]; subst.
    cbn [app Cli.parse]. rewrite !arguments_of_cons, has_option_cons.
    destruct (Z.eqb_spec (Cli.selected_option g) (Cli.opt "f")) as [E | Hf].
    { rewrite E. compare_options. cbn [orb].
      match goal with
      | |- context [Cli.parse atoi fs (before ++ rest) ?l0 st] =>
          destruct (IH l0 st Hrest)
            as (l' & lout & Hrun & Hout & Hw & Hh & Hfs & Hs)
      end.
      exists l', lout. rewrite Hrun.
      cbn [Cli.fullscreen Cli.window_width Cli.window_height
           Cli.program_source orb] in *.
      rewrite Hfs, orb_true_r. auto 10. }
    destruct (Z.eqb_spec (Cli.selected_option g) (Cli.opt "w")) as [E | Hw0].
    { rewrite E. compare_options. cbn [orb map].
      match goal with
      | |- context [Cli.parse atoi fs (before ++ rest) ?l0 st] =>
          destruct (IH l0 st Hrest)
            as (l' & lout & Hrun & Hout & Hw & Hh & Hfs & Hs)
      end.
      exists l', lout. rewrite Hrun.
      unfold last_positive at 1. cbn [fold_left].
      fold (last_positive
              (if 0 <? atoi (Cli.optarg g) then atoi (Cli.optarg g)
               else Cli.window_width l)
              (map atoi (arguments_of "w" before))).
      destruct (0 <? atoi (Cli.optarg g));
        cbn [Cli.fullscreen Cli.window_width Cli.window_height
             Cli.program_source] in *;
        auto 10. }
    destruct (Z.eqb_spec (Cli.selected_option g) (Cli.opt "h")) as [E | Hh0].
    { rewrite E. compare_options. cbn [orb map].
      match goal with
      | |- context [Cli.parse atoi fs (before ++ rest) ?l0 st] =>
          destruct (IH l0 st Hrest)
            as (l' & lout & Hrun & Hout & Hw & Hh & Hfs & Hs)
      end.
      exists l', lout. rewrite Hrun.
      unfold last_positive at 2. cbn [fold_left].
      fold (last_positive
              (if 0 <? atoi (Cli.optarg g) then atoi (Cli.optarg g)
               else Cli.window_height l)
              (map atoi (arguments_of "h" before))).
      destruct (0 <? atoi (Cli.optarg g));
        cbn [Cli.fullscreen Cli.window_width Cli.window_height
             Cli.program_source] in *;
        auto 10. }
    destruct (Z.eqb_spec (Cli.selected_option g) (Cli.opt "s")) as [E | Hs0].
    { specialize (Hsrc E). cbn [orb].
      unfold bind at 1, info, call. cbn [vars calls].
      unfold last_source at 1. cbn [fold_left].
      fold (last_source fs (fst (read_file_into_str fs (Cli.optarg g)))
              (arguments_of "s" before)).
      destruct (fst (read_file_into_str fs (Cli.optarg g)))
        as [| cap contents]; [contradiction |].
      match goal with
      | |- context [Cli.parse atoi fs (before ++ rest) ?l0 ?s0] =>
          destruct (IH l0 s0 Hrest)
            as (l' & lout & Hrun & Hout & Hw & Hh & Hfs & Hs)
      end.
      exists l'. eexists. rewrite Hrun. cbn [vars calls]. rewrite <- app_assoc.
      split; [reflexivity |].
      cbn [Cli.fullscreen Cli.window_width Cli.window_height
           Cli.program_source] in *.
      cbn [app forallb is_stdout andb]. auto 10. }
    destruct (Z.eqb_spec (Cli.selected_option g) (Cli.opt "?"))
      as [E | _]; [contradiction |].
    destruct (IH l st Hrest) as (l' & lout & Hrun & Hout & Hw & Hh & Hfs & Hs).
    exists l', lout. rewrite Hrun. cbn [orb]. auto 10.
Qed.

Lemma last_positive_positive (current : Z) (given : list Z) :
  0 < current -> 0 < last_positive current given.
Proof.
  unfold last_positive. revert current.
  induction given as [| v given IH]; intros current H; [exact H |].
  cbn [fold_left]. apply IH.
  destruct (Z.ltb_spec 0 v); assumption.
Qed.

Variable VERSION : string.
Variable default_fragment_shader : string.

(** The options reach the core as the source reads them.  When no option
    asks for help and every source file named can be read, [main] prints to
    stdout only and then runs the core with: the last positive width and
    height given (640 and 360 when none is; a value that is not positive is
    ignored), so both are always positive; fullscreen exactly when -f was
    given; and as fragment body the content of the file named last, or the
    default body when none was. *)
Theorem main_runs_with_parsed_options (options : list Cli.Getopt)
    (w : World) (st : State) :
  Forall (parses_on fs) options ->
  let width := last_positive 640 (map atoi (arguments_of "w" options)) in
  let height := last_positive 360 (map atoi (arguments_of "h" options)) in
  0 < width /\ 0 < height /\
  exists lout,
    forallb is_stdout lout = true /\
    Cli.main atoi fs VERSION default_fragment_shader options w st =
      main width height (has_option "f" options)
           (chosen_body fs default_fragment_shader options) w
           {| vars := vars st; calls := calls st ++ lout |}.
Proof.
  intros Hok width height. subst width height.
  split; [apply last_positive_positive; lia |].
  split; [apply last_positive_positive; lia |].
  unfold Cli.main. unfold bind at 1, info at 1, call. unfold bind at 1.
  match goal with
  | |- context [Cli.parse atoi fs options Cli.defaults ?s] =>
      destruct (parse_prefix options [] Cli.defaults s Hok)
        as (l' & lout & Hrun & Hout & Hw & Hh & Hfs & Hs)
  end.
  rewrite app_nil_r in Hrun. cbn [Cli.parse ret vars calls] in Hrun.
  exists (Stdout (line ("ESShader -  Version: " ++ VERSION)) [] :: lout).
  split; [| rewrite Hrun].
  2:{ unfold ret at 1. cbv iota beta. rewrite <- app_assoc.
      unfold Cli.fragment_body, chosen_body.
      rewrite Hw, Hh, Hfs, Hs. cbn [Cli.defaults Cli.window_width
        Cli.window_height Cli.fullscreen Cli.program_source orb].
      reflexivity. }
  cbn [app forallb is_stdout andb]. exact Hout.
Qed.

(** Help ends the program before anything is opened.  When the options up to
    the first help option parse on, [main] prints the usage text and returns
    0: it has written to stdout only (no window, no context, no shader, no
    teardown), the usage text last, and what follows the help option, like
    the world the core would run in, plays no part. *)
Theorem help_returns_zero_without_startup (before : list Cli.Getopt)
    (g : Cli.Getopt) (after : list Cli.Getopt) (w : World) (st : State) :
  Forall (parses_on fs) before ->
  Cli.selected_option g = Cli.opt "?" ->
  exists lout,
    Cli.main atoi fs VERSION default_fragment_shader
      (before ++ g :: after) w st =
      (Ret (Some 0),
       {| vars := vars st;
          calls := calls st ++ lout ++ [Stdout Cli.usage []] |})
    /\ forallb is_stdout lout = true.
Proof.
  intros Hok Hhelp.
  unfold Cli.main. unfold bind at 1, info at 1, call. unfold bind at 1.
  match goal with
  | |- context [Cli.parse atoi fs (before ++ g :: after) Cli.defaults ?s] =>
      destruct (parse_prefix before (g :: after) Cli.defaults s Hok)
        as (l' & lout & Hrun & Hout & _)
  end.
  cbn [Cli.parse vars calls] in Hrun. rewrite Hhelp in Hrun.
  revert Hrun. compare_options. cbv iota. intros Hrun.
  rewrite Hrun.
  unfold bind, info, call, ret. cbn [vars calls].
  exists (Stdout (line ("ESShader -  Version: " ++ VERSION)) [] :: lout).
  rewrite <- !app_assoc. split; [reflexivity |].
  cbn [app forallb is_stdout andb]. exact Hout.
Qed.

(** A source file that cannot be read is fatal before anything is opened.
    When the options before it parse on and [read_file_into_str] returns
    NULL for the file a -s names, [main] exits with EXIT_FAILURE, its last
    output the diagnostic naming the file, everything before it written to
    stdout: no window, no context, no teardown. *)
Theorem unreadable_source_is_fatal (before : list Cli.Getopt)
    (g : Cli.Getopt) (after : list Cli.Getopt) (w : World) (st : State) :
  Forall (parses_on fs) before ->
  Cli.selected_option g = Cli.opt "s" ->
  fst (read_file_into_str fs (Cli.optarg g)) = NULL ->
  exists lout,
    Cli.main atoi fs VERSION default_fragment_shader
      (before ++ g :: after) w st =
      (Exit EXIT_FAILURE,
       {| vars := vars st;
          calls :=
            calls st ++ lout ++
            [Stderr (line ("Could not read shader program "
                           ++ Cli.optarg g))] |})
    /\ forallb is_stdout lout = true.
Proof.
  intros Hok Hsrc Hnull.
  unfold Cli.main. unfold bind at 1, info at 1, call. unfold bind at 1.
  match goal with
  | |- context [Cli.parse atoi fs (before ++ g :: after) Cli.defaults ?s] =>
      destruct (parse_prefix before (g :: after) Cli.defaults s Hok)
        as (l' & lout & Hrun & Hout & _)
  end.
  cbn [Cli.parse vars calls] in Hrun. rewrite Hsrc, Hnull in Hrun.
  revert Hrun. compare_options. cbv iota. intros Hrun.
  rewrite Hrun.
  unfold bind, info, call, die. cbn [vars calls].
  exists (Stdout (line ("ESShader -  Version: " ++ VERSION)) [] ::
          lout ++
          [Stdout (line ("Loading shader program: " ++ Cli.optarg g)) []]).
  split; [cbn [app]; rewrite <- !app_assoc; cbn [app]; reflexivity |].
  cbn [forallb is_stdout andb]. rewrite forallb_app, Hout. reflexivity.
Qed.

End Parsing.

Lemma main_runs_with_parsed_options_witness :
  exists lout,
    Cli.main decimal_atoi (disk red_body) "0.1" red_body sample_options
      (two_frames_then_q (desktop every_stage all_uniforms (640, 360))
         (mk_timespec 0 0))
      initial_state =
    main 1280 360 true (red_body ++ NUL)%string
      (two_frames_then_q (desktop every_stage all_uniforms (640, 360))
         (mk_timespec 0 0))
      {| vars := initial_globals; calls := lout |}.
Proof.
  destruct (main_runs_with_parsed_options decimal_atoi (disk red_body)
              "0.1" red_body sample_options
              (two_frames_then_q (desktop every_stage all_uniforms (640, 360))
                 (mk_timespec 0 0))
              initial_state)
    as (_ & _ & lout & _ & Hrun).
  - repeat constructor; try discriminate; intros _; discriminate.
  - exists lout. exact Hrun.
Defined.

Lemma help_returns_zero_without_startup_witness :
  result (Cli.main decimal_atoi (disk red_body) "0.1" red_body
            [ Cli.mk_Getopt (Cli.opt "w") "1280";
              Cli.mk_Getopt (Cli.opt "?") EmptyString;
              Cli.mk_Getopt (Cli.opt "s") "missing.glsl" ]
            (two_frames_then_q (desktop every_stage all_uniforms (640, 360))
               (mk_timespec 0 0)))
         initial_state = Ret (Some 0).
Proof.
  destruct (help_returns_zero_without_startup decimal_atoi (disk red_body)
              "0.1" red_body
              [Cli.mk_Getopt (Cli.opt "w") "1280"]
              (Cli.mk_Getopt (Cli.opt "?") EmptyString)
              [Cli.mk_Getopt (Cli.opt "s") "missing.glsl"]
              (two_frames_then_q (desktop every_stage all_uniforms (640, 360))
                 (mk_timespec 0 0))
              initial_state)
    as (lout & Hrun & _).
  - repeat constructor; try discriminate; intros _; discriminate.
  - reflexivity.
  - unfold result. cbn [app] in Hrun. rewrite Hrun. reflexivity.
Defined.

Lemma unreadable_source_is_fatal_witness :
  result (Cli.main decimal_atoi (disk red_body) "0.1" red_body
            [ Cli.mk_Getopt (Cli.opt "f") EmptyString;
              Cli.mk_Getopt (Cli.opt "s") "missing.glsl" ]
            (two_frames_then_q (desktop every_stage all_uniforms (640, 360))
               (mk_timespec 0 0)))
         initial_state = Exit EXIT_FAILURE.
Proof.
  destruct (unreadable_source_is_fatal decimal_atoi (disk red_body)
              "0.1" red_body
              [Cli.mk_Getopt (Cli.opt "f") EmptyString]
              (Cli.mk_Getopt (Cli.opt "s") "missing.glsl")
              []
              (two_frames_then_q (desktop every_stage all_uniforms (640, 360))
                 (mk_timespec 0 0))
              initial_state)
    as (lout & Hrun & _).
  - repeat constructor; try discriminate; intros _; discriminate.
  - reflexivity.
  - reflexivity.
  - unfold result. cbn [app] in Hrun. rewrite Hrun. reflexivity.
Defined.
